(** * RaidArrayDriver: the tagline driver, its write-back cache and the bus client

    A shallow embedding of [tagline_driver.c], [raid_cache.c] and
    [raid_client.c].  C integers are [Z] with their wrap-around written
    out, byte buffers are [list byte], the queue nodes of the cache live in
    a heap ([gmap Z QUEUE_NODE]) and are reached through pointers
    ([option Z], [None] being [NULL]), and every C function is a
    computation in a state monad whose failure outcome stands for a run
    that leaves defined behaviour (a [NULL] or dangling dereference, an
    out-of-bounds index, a read of a field that was never written). *)

From stdpp Require Import gmap list.
From Stdlib Require Import ZArith Lia.
From Stdlib.Strings Require Import Byte.

Local Open Scope Z_scope.

(** ** Machine integers *)

Definition u8 (z : Z) : Z := z mod 2 ^ 8.
Definition u16 (z : Z) : Z := z mod 2 ^ 16.
Definition u32 (z : Z) : Z := z mod 2 ^ 32.
Definition u64 (z : Z) : Z := z mod 2 ^ 64.

(** Conversion of an [unsigned int] value to [int] (two's complement). *)
Definition to_int (z : Z) : Z :=
  let w := u32 z in if w <? 2 ^ 31 then w else w - 2 ^ 32.

(** ** Constants

    [tagline_driver.h] and [raid_cache.c] fix the geometry. *)

Definition MAX_TAGLINE_BLOCK_NUMBER : Z := 256.
Definition RAID_DISKS : Z := 9.
Definition RAID_DISKBLOCKS : Z := 4096.
Definition HASHTABLE_SIZE : Z := 8192.

(** [raid_bus.h] and [raid_cache.h] are not part of the sources at hand:
    the block size, the track size, the cache size and the numbering of
    the request types are parameters of the development. *)
Class RaidBusHeader := {
  RAID_BLOCK_SIZE : nat;
  RAID_TRACK_BLOCKS : Z;
  TAGLINE_CACHE_SIZE : Z;
  RAID_INIT : Z;
  RAID_FORMAT : Z;
  RAID_READ : Z;
  RAID_WRITE : Z;
  RAID_CLOSE : Z;
  RAID_STATUS : Z;
  (** contents of a block-sized buffer fresh from [malloc] *)
  malloc_block : list byte;
}.

(** ** Opcode codec ([generate_RAIDOpCode], [decode_RAIDOpCode],
    [check_response]) *)

Record RAID_REQUEST := mkRequest {
  request_type : Z;      (* uint8_t *)
  number_of_blocks : Z;  (* uint8_t *)
  disk_number : Z;       (* RAIDDiskID, uint8_t *)
  reserved : Z;          (* uint8_t *)
  status : Z;            (* uint8_t *)
  blockid : Z;           (* RAIDBlockID, uint32_t *)
}.

Definition RAID_RESPONSE := RAID_REQUEST.

Definition generate_RAIDOpCode (opcode : RAID_REQUEST) : Z :=
  let generated_opcode := request_type opcode in
  let generated_opcode := u64 (Z.shiftl generated_opcode 8) in
  let generated_opcode := u64 (generated_opcode + number_of_blocks opcode) in
  let generated_opcode := u64 (Z.shiftl generated_opcode 8) in
  let generated_opcode := u64 (generated_opcode + disk_number opcode) in
  let generated_opcode := u64 (Z.shiftl generated_opcode 7) in
  let generated_opcode := u64 (generated_opcode + reserved opcode) in
  let generated_opcode := u64 (Z.shiftl generated_opcode 1) in
  let generated_opcode := u64 (generated_opcode + status opcode) in
  let generated_opcode := u64 (Z.shiftl generated_opcode 32) in
  let generated_opcode := u64 (generated_opcode + blockid opcode) in
  generated_opcode.

Definition decode_RAIDOpCode (opcode : Z) : RAID_RESPONSE :=
  let r_blockid := Z.land opcode 0xFFFFFFFF in
  let opcode := Z.shiftr opcode 32 in
  let r_status := Z.land opcode 0x1 in
  let opcode := Z.shiftr opcode 1 in
  let r_reserved := Z.land opcode 0x3F in
  let opcode := Z.shiftr opcode 7 in
  let r_disk_number := Z.land opcode 0xFF in
  let opcode := Z.shiftr opcode 8 in
  let r_number_of_blocks := Z.land opcode 0xFF in
  let opcode := Z.shiftr opcode 8 in
  let r_request_type := u8 opcode in
  {| request_type := r_request_type;
     number_of_blocks := r_number_of_blocks;
     disk_number := r_disk_number;
     reserved := r_reserved;
     status := r_status;
     blockid := r_blockid |}.

(** [check_response] returns [0] when the response echoes the request with
    a clear status bit and [-1] otherwise. *)
Definition check_response (request : RAID_REQUEST) (response : RAID_RESPONSE) : Z :=
  if negb (request_type request =? request_type response) then -1
  else if negb (number_of_blocks request =? number_of_blocks response) then -1
  else if negb (disk_number request =? disk_number response) then -1
  else if negb (status response =? 0) then -1
  else if negb (blockid request =? blockid response) then -1
  else 0.

(** The field widths of the bus opcode layout. *)
Definition fits_layout (r : RAID_REQUEST) : Prop :=
  0 <= request_type r < 2 ^ 8 /\
  0 <= number_of_blocks r < 2 ^ 8 /\
  0 <= disk_number r < 2 ^ 8 /\
  0 <= reserved r < 2 ^ 7 /\
  0 <= status r < 2 ^ 1 /\
  0 <= blockid r < 2 ^ 32.

(** ** The monad of C computations

    A computation reads and updates the static variables it can see; [None]
    is a run that leaves defined behaviour. *)

Definition M (S A : Type) : Type := S -> option (A * S).

Definition ret {S A} (a : A) : M S A := fun s => Some (a, s).

Definition bind {S A A'} (m : M S A) (k : A -> M S A') : M S A' :=
  fun s => match m s with
           | Some (a, s') => k a s'
           | None => None
           end.

Definition undefined {S A} : M S A := fun _ => None.

Definition gets {S A} (f : S -> A) : M S A := fun s => Some (f s, s).

Definition modify {S} (f : S -> S) : M S unit := fun s => Some (tt, f s).

(** Run a computation of a component inside a larger state. *)
Definition zoom {S T A} (proj : S -> T) (inj : T -> S -> S) (m : M T A) : M S A :=
  fun s => match m (proj s) with
           | Some (a, t) => Some (a, inj t s)
           | None => None
           end.

(** Dereference: the value behind a pointer that must not be [NULL]. *)
Definition deref {S A} (o : option A) : M S A :=
  match o with
  | Some a => ret a
  | None => undefined
  end.

(** A computation [m] keeps the invariant [I] of the state, and what it
    returns satisfies [Q]. *)
Definition preserves {S A} (I : S -> Prop) (m : M S A) (Q : A -> Prop) : Prop :=
  forall s a s', I s -> m s = Some (a, s') -> I s' /\ Q a.

Declare Scope c_scope.
Delimit Scope c_scope with C.
Notation "'let!' x ':=' m 'in' k" := (bind m (fun x => k))
  (at level 10, x pattern, m at level 100, k at level 200) : c_scope.
Notation "m ';;' k" := (bind m (fun _ => k))
  (at level 100, k at level 200, right associativity) : c_scope.

(** [for (i = 0; i < n; i++) body(i)] where a non-zero result of the body
    leaves the enclosing function with [-1]; the result is [0] when the loop
    ran to its end. *)
Fixpoint for_loop {S} (n : nat) (i : Z) (body : Z -> M S Z) : M S Z :=
  match n with
  | O => ret 0
  | S n' =>
      bind (body i) (fun r => if negb (r =? 0) then ret (-1) else for_loop n' (i + 1) body)
  end.

(** [memcpy(dst, src, n)] on the contents of the two buffers. *)
Definition memcpy (dst src : list byte) (n : nat) : list byte :=
  take n src ++ drop n dst.

(** ** The bus client ([raid_client.c])

    The server at the other end of the socket is the environment: it
    receives the opcode and, for a WRITE, the block, and answers with an
    opcode and possibly a block.  [None] is a failed socket operation. *)
Class RaidServer (B : Type) :=
  server_exchange : Z -> list byte -> B -> option (Z * option (list byte)) * B.

Module raid_client.
Section Client.
Context `{RaidBusHeader} {B : Type} `{RaidServer B}.
Local Open Scope c_scope.

(** [client_raid_bus_request(op, buf)]: the response opcode and the
    contents of [buf] afterwards ([None] is a [NULL] buffer). *)
Definition client_raid_bus_request (op : Z) (buf : option (list byte))
  : M B (Z * option (list byte)) :=
  let request_type := u8 (Z.shiftr op 56) in
  let is_write :=
    negb (request_type =? RAID_INIT) && negb (request_type =? RAID_FORMAT)
    && negb (request_type =? RAID_READ) && (request_type =? RAID_WRITE) in
  let sent := if is_write then take RAID_BLOCK_SIZE (default [] buf) else [] in
  let! answer := (fun b => Some (server_exchange op sent b)) in
  match answer with
  | None => ret (u64 (-1), buf)
  | Some (response_op, None) => ret (response_op, buf)
  | Some (response_op, Some data) =>
      match buf with
      | None => ret (u64 (-1), buf)
      | Some bytes => ret (response_op, Some (memcpy bytes data RAID_BLOCK_SIZE))
      end
  end.
End Client.
End raid_client.

(** ** The write-back cache ([raid_cache.c]) *)

Module raid_cache.

(** A queue node; [next_node] points towards the front of the queue (the
    end the source marks LRU), [prev_node] towards the back (MRU). *)
Record QUEUE_NODE := mkQueueNode {
  value_buf : list byte;
  age_bit : Z;
  next_node : option Z;
  prev_node : option Z;
  parent_hash_node : option (Z * nat);
}.

(** A hash node.  The chain of a bucket is a list, so that a pointer to a
    hash node is the index of its bucket and its position in the chain
    (chains only ever grow at their end). *)
Record HASH_NODE := mkHashNode {
  disk : Z;
  block : Z;
  cache_block_ptr : option Z;
}.

Record QUEUE := mkQueue {
  capacity : Z;
  back_ptr : option Z;
  front_ptr : option Z;
}.

(** The static variables of [raid_cache.c], with the heap of queue nodes
    and the address the next [malloc] of a queue node returns.  [dangling]
    holds the buckets whose chain has been freed by [close_raid_cache]
    while [hashtable] still points to it. *)
Record Cache := mkCache {
  cache_queue : QUEUE;
  hashtable : gmap Z (list HASH_NODE);
  dangling : gset Z;
  queue_nodes : gmap Z QUEUE_NODE;
  next_address : Z;
  max_cache_size : Z;
  total_cache_inserts : Z;
  total_cache_gets : Z;
  total_cache_hits : Z;
  total_cache_misses : Z;
}.

(** The state of the program before [main] runs. *)
Definition startup : Cache :=
  {| cache_queue := mkQueue 0 None None;
     hashtable := ∅;
     dangling := ∅;
     queue_nodes := ∅;
     next_address := 0;
     max_cache_size := 0;
     total_cache_inserts := 0;
     total_cache_gets := 0;
     total_cache_hits := 0;
     total_cache_misses := 0 |}.

Definition with_queue (q : QUEUE) (c : Cache) : Cache :=
  mkCache q (hashtable c) (dangling c) (queue_nodes c) (next_address c) (max_cache_size c)
    (total_cache_inserts c) (total_cache_gets c) (total_cache_hits c) (total_cache_misses c).

Definition with_hashtable (h : gmap Z (list HASH_NODE)) (c : Cache) : Cache :=
  mkCache (cache_queue c) h (dangling c) (queue_nodes c) (next_address c) (max_cache_size c)
    (total_cache_inserts c) (total_cache_gets c) (total_cache_hits c) (total_cache_misses c).

Definition with_nodes (n : gmap Z QUEUE_NODE) (c : Cache) : Cache :=
  mkCache (cache_queue c) (hashtable c) (dangling c) n (next_address c) (max_cache_size c)
    (total_cache_inserts c) (total_cache_gets c) (total_cache_hits c) (total_cache_misses c).

Definition with_dangling (d : gset Z) (c : Cache) : Cache :=
  mkCache (cache_queue c) (hashtable c) d (queue_nodes c) (next_address c) (max_cache_size c)
    (total_cache_inserts c) (total_cache_gets c) (total_cache_hits c) (total_cache_misses c).

Definition with_next_address (a : Z) (c : Cache) : Cache :=
  mkCache (cache_queue c) (hashtable c) (dangling c) (queue_nodes c) a (max_cache_size c)
    (total_cache_inserts c) (total_cache_gets c) (total_cache_hits c) (total_cache_misses c).

Definition with_max_cache_size (m : Z) (c : Cache) : Cache :=
  mkCache (cache_queue c) (hashtable c) (dangling c) (queue_nodes c) (next_address c) m
    (total_cache_inserts c) (total_cache_gets c) (total_cache_hits c) (total_cache_misses c).

(** [inserts], [gets], [hits] and [misses] are the increments of the four
    counters. *)
Definition count (inserts gets hits misses : Z) (c : Cache) : Cache :=
  mkCache (cache_queue c) (hashtable c) (dangling c) (queue_nodes c) (next_address c) (max_cache_size c)
    (total_cache_inserts c + inserts) (total_cache_gets c + gets)
    (total_cache_hits c + hits) (total_cache_misses c + misses).

Definition set_next (v : option Z) (n : QUEUE_NODE) : QUEUE_NODE :=
  mkQueueNode (value_buf n) (age_bit n) v (prev_node n) (parent_hash_node n).

Definition set_prev (v : option Z) (n : QUEUE_NODE) : QUEUE_NODE :=
  mkQueueNode (value_buf n) (age_bit n) (next_node n) v (parent_hash_node n).

Definition set_parent (v : option (Z * nat)) (n : QUEUE_NODE) : QUEUE_NODE :=
  mkQueueNode (value_buf n) (age_bit n) (next_node n) (prev_node n) v.

Definition set_value_buf (v : list byte) (n : QUEUE_NODE) : QUEUE_NODE :=
  mkQueueNode v (age_bit n) (next_node n) (prev_node n) (parent_hash_node n).

Definition set_cache_block_ptr (v : option Z) (n : HASH_NODE) : HASH_NODE :=
  mkHashNode (disk n) (block n) v.

(** The chain of a bucket; the empty chain is the [NULL] bucket. *)
Definition chain (c : Cache) (hash_value : Z) : list HASH_NODE :=
  default [] (hashtable c !! hash_value).

Definition bucket_in_use (c : Cache) (hash_value : Z) : bool :=
  match chain c hash_value with
  | [] => false
  | _ :: _ => true
  end.

(** The position in a chain of the first hash node for a disk and block
    pair (the [while] loop of [put_raid_cache] and [get_raid_cache]). *)
Fixpoint find_pair (dsk blk : Z) (l : list HASH_NODE) : option nat :=
  match l with
  | [] => None
  | n :: l' =>
      if (disk n =? dsk) && (block n =? blk) then Some 0%nat
      else S <$> find_pair dsk blk l'
  end.

(** A bucket can be read when it is an index into the table and its chain
    has not been freed. *)
Definition bucket_ok (c : Cache) (hash_value : Z) : Prop :=
  (hash_value ∉ dangling c) /\ 0 <= hash_value < HASHTABLE_SIZE.

(** The entries of the cache are its queue nodes, each holding one
    block. *)
Definition live_entries (c : Cache) : nat := size (queue_nodes c).

(** The counter of the queue counts the live entries, and [malloc] returns
    fresh addresses. *)
Definition counted (c : Cache) : Prop :=
  Z.of_nat (live_entries c) = capacity (cache_queue c) /\
  forall a, a ∈ dom (queue_nodes c) -> a < next_address c.

(** Every pointer the cache holds was returned by [malloc] earlier: the
    pointers to queue nodes are below [N], the value of [next_address],
    and the pointers to hash nodes lie within the [L h] nodes of the chain
    of their bucket [h]. *)
Definition ptr_by (N : Z) (p : option Z) : Prop :=
  forall a, p = Some a -> a < N.

Definition hash_ptr_by (L : Z -> nat) (p : option (Z * nat)) : Prop :=
  forall a, p = Some a -> (snd a < L (fst a))%nat.

Definition node_by (N : Z) (L : Z -> nat) (n : QUEUE_NODE) : Prop :=
  ptr_by N (next_node n) /\ ptr_by N (prev_node n) /\ hash_ptr_by L (parent_hash_node n).

Definition bounded_by (N : Z) (L : Z -> nat) (c : Cache) : Prop :=
  next_address c = N /\
  (forall h, length (chain c h) = L h) /\
  ptr_by N (front_ptr (cache_queue c)) /\ ptr_by N (back_ptr (cache_queue c)) /\
  (forall a n, queue_nodes c !! a = Some n -> a < N /\ node_by N L n) /\
  (forall h i n, chain c h !! i = Some n -> ptr_by N (cache_block_ptr n)).

Definition bounded (c : Cache) : Prop :=
  bounded_by (next_address c) (fun h => length (chain c h)) c.

(** Every queue node is the node of the hash node it names as its parent. *)
Definition linked (c : Cache) : Prop :=
  forall a n, queue_nodes c !! a = Some n ->
    exists p hn,
      parent_hash_node n = Some p /\
      chain c (fst p) !! snd p = Some hn /\
      cache_block_ptr hn = Some a.

Section Cache.
Context `{RaidBusHeader} {B : Type} `{RaidServer B}.
Local Open Scope c_scope.

(** The cache sees its own static variables and the bus. *)
Definition World : Type := Cache * B.

Definition cache_gets {A} (f : Cache -> A) : M World A := gets (fun w => f (fst w)).

Definition cache_modify (f : Cache -> Cache) : M World unit :=
  modify (fun w => (f (fst w), snd w)).

Definition bus_request (op : Z) (buf : option (list byte)) : M World (Z * option (list byte)) :=
  zoom snd (fun b w => (fst w, b)) (raid_client.client_raid_bus_request op buf).

(** [*p] for a pointer to a queue node. *)
Definition load (p : option Z) : M World QUEUE_NODE :=
  let! a := deref p in
  let! heap := cache_gets queue_nodes in
  deref (heap !! a).

(** [p->field = v], written as the update [f] of the node. *)
Definition store (p : option Z) (f : QUEUE_NODE -> QUEUE_NODE) : M World unit :=
  let! a := deref p in
  let! n := load p in
  cache_modify (fun c => with_nodes (<[a := f n]> (queue_nodes c)) c).

(** [malloc] of a queue node. *)
Definition new_queue_node (n : QUEUE_NODE) : M World (option Z) :=
  let! a := cache_gets next_address in
  cache_modify (fun c => with_next_address (a + 1) (with_nodes (<[a := n]> (queue_nodes c)) c));;
  ret (Some a).

(** [free] of a queue node. *)
Definition free_queue_node (p : option Z) : M World unit :=
  let! a := deref p in
  load p;;
  cache_modify (fun c => with_nodes (delete a (queue_nodes c)) c).

(** The chain a bucket points to: reading it dereferences the bucket,
    which must be an index into the table and must not dangle. *)
Definition load_chain (hash_value : Z) : M World (list HASH_NODE) :=
  let! freed := cache_gets dangling in
  if bool_decide (hash_value ∈ freed) || (hash_value <? 0) || (HASHTABLE_SIZE <=? hash_value)
  then undefined
  else cache_gets (fun c => chain c hash_value).

Definition load_hash (p : option (Z * nat)) : M World HASH_NODE :=
  let! a := deref p in
  let! l := load_chain (fst a) in
  deref (l !! snd a).

Definition store_hash (p : option (Z * nat)) (f : HASH_NODE -> HASH_NODE) : M World unit :=
  let! a := deref p in
  let! n := load_hash p in
  cache_modify (fun c =>
    with_hashtable (<[fst a := <[snd a := f n]> (chain c (fst a))]> (hashtable c)) c).

(** Append a hash node to the chain of a bucket; its address is returned. *)
Definition new_hash_node (hash_value : Z) (n : HASH_NODE) : M World (option (Z * nat)) :=
  let! l := load_chain hash_value in
  cache_modify (fun c => with_hashtable (<[hash_value := l ++ [n]]> (hashtable c)) c);;
  ret (Some (hash_value, length l)).

Definition set_capacity (v : Z) : M World unit :=
  cache_modify (fun c => with_queue (mkQueue v (back_ptr (cache_queue c)) (front_ptr (cache_queue c))) c).

Definition set_back_ptr (v : option Z) : M World unit :=
  cache_modify (fun c => with_queue (mkQueue (capacity (cache_queue c)) v (front_ptr (cache_queue c))) c).

Definition set_front_ptr (v : option Z) : M World unit :=
  cache_modify (fun c => with_queue (mkQueue (capacity (cache_queue c)) (back_ptr (cache_queue c)) v) c).

Definition get_capacity : M World Z := cache_gets (fun c => capacity (cache_queue c)).
Definition get_back_ptr : M World (option Z) := cache_gets (fun c => back_ptr (cache_queue c)).
Definition get_front_ptr : M World (option Z) := cache_gets (fun c => front_ptr (cache_queue c)).

(** The cache's own copy of the codec. *)
Definition generate_RAIDOpCode_c (opcode : RAID_REQUEST) : Z :=
  let generated_opcode := request_type opcode in
  let generated_opcode := u64 (Z.shiftl generated_opcode 8) in
  let generated_opcode := u64 (generated_opcode + number_of_blocks opcode) in
  let generated_opcode := u64 (Z.shiftl generated_opcode 8) in
  let generated_opcode := u64 (generated_opcode + disk_number opcode) in
  let generated_opcode := u64 (Z.shiftl generated_opcode 7) in
  let generated_opcode := u64 (generated_opcode + reserved opcode) in
  let generated_opcode := u64 (Z.shiftl generated_opcode 1) in
  let generated_opcode := u64 (generated_opcode + status opcode) in
  let generated_opcode := u64 (Z.shiftl generated_opcode 32) in
  let generated_opcode := u64 (generated_opcode + blockid opcode) in
  generated_opcode.

Definition decode_RAIDOpCode_c (opcode : Z) : RAID_RESPONSE :=
  let r_blockid := Z.land opcode 0xFFFFFFFF in
  let opcode := Z.shiftr opcode 32 in
  let r_status := Z.land opcode 0x1 in
  let opcode := Z.shiftr opcode 1 in
  let r_reserved := Z.land opcode 0x3F in
  let opcode := Z.shiftr opcode 7 in
  let r_disk_number := Z.land opcode 0xFF in
  let opcode := Z.shiftr opcode 8 in
  let r_number_of_blocks := Z.land opcode 0xFF in
  let opcode := Z.shiftr opcode 8 in
  let r_request_type := u8 opcode in
  {| request_type := r_request_type;
     number_of_blocks := r_number_of_blocks;
     disk_number := r_disk_number;
     reserved := r_reserved;
     status := r_status;
     blockid := r_blockid |}.

(** [hashfunction]: [temp] is an [int]; the sum with the unsigned block
    number is computed modulo [2^32] and converted back, and [%] truncates
    towards zero. *)
Definition hashfunction (dsk blk : Z) : Z :=
  let temp := dsk * 10000 in
  let temp := to_int (temp + blk) in
  Z.rem temp HASHTABLE_SIZE.

(** [init_raid_cache] *)
Definition init_raid_cache (max_items : Z) : M World Z :=
  cache_modify (with_queue (mkQueue 0 None None));;
  cache_modify (with_max_cache_size (to_int max_items));;
  ret 0.

(** [evict_lru]: write the block at the front of the queue to its disk and
    take it out of the queue. *)
Definition evict_lru : M World Z :=
  let! eject_queue_node := get_front_ptr in
  match eject_queue_node with
  | None => ret (-1)
  | Some _ =>
      let! e := load eject_queue_node in
      let! parent := load_hash (parent_hash_node e) in
      let write :=
        {| request_type := u8 RAID_WRITE;
           number_of_blocks := 1;
           disk_number := disk parent;
           reserved := 0;
           status := 0;
           blockid := block parent |} in
      let write_opcode := generate_RAIDOpCode_c write in
      let! answer := bus_request write_opcode (Some (value_buf e)) in
      store eject_queue_node (set_value_buf (default (value_buf e) (snd answer)));;
      let write_response := decode_RAIDOpCode_c (fst answer) in
      if negb (status write_response =? 0) then ret (-1)
      else
        let! e := load eject_queue_node in
        set_front_ptr (prev_node e);;
        let! e := load eject_queue_node in
        store (prev_node e) (set_next None);;
        let! e := load eject_queue_node in
        store_hash (parent_hash_node e) (set_cache_block_ptr None);;
        store eject_queue_node (set_parent None);;
        store eject_queue_node (set_prev None);;
        let! cap := get_capacity in
        set_capacity (cap - 1);;
        free_queue_node eject_queue_node;;
        ret 0
  end.

(** The request [evict_lru] sends when the cache is in state [c]: the
    [RAID_WRITE] opcode for the disk and block of the node at the front of
    the queue, and the buffer of that node. *)
Definition eviction_write (c : Cache) : option (Z * list byte) :=
  match front_ptr (cache_queue c) with
  | None => None
  | Some f =>
      match queue_nodes c !! f with
      | None => None
      | Some e =>
          match parent_hash_node e with
          | None => None
          | Some a =>
              match chain c (fst a) !! snd a with
              | None => None
              | Some parent =>
                  Some (generate_RAIDOpCode_c
                          {| request_type := u8 RAID_WRITE;
                             number_of_blocks := 1;
                             disk_number := disk parent;
                             reserved := 0;
                             status := 0;
                             blockid := block parent |},
                        value_buf e)
              end
          end
      end
  end.

(** The queue node the table has for a disk and block pair, as
    [put_raid_cache] and [get_raid_cache] look it up; [None] when the pair
    is not cached. *)
Definition cached_at (c : Cache) (dsk blk : Z) : option Z :=
  match find_pair dsk blk (chain c (hashfunction dsk blk)) with
  | None => None
  | Some i =>
      match chain c (hashfunction dsk blk) !! i with
      | None => None
      | Some current => cache_block_ptr current
      end
  end.

(** [insert_in_queue]: link a node at the back of the queue, then evict
    the front when the queue has outgrown [TAGLINE_CACHE_SIZE]. *)
Definition insert_in_queue (node : option Z) : M World Z :=
  let! back := get_back_ptr in
  store node (set_next back);;
  store node (set_prev None);;
  let! back := get_back_ptr in
  store back (set_prev node);;
  set_back_ptr node;;
  let! cap := get_capacity in
  set_capacity (cap + 1);;
  let! cap := get_capacity in
  if cap >? TAGLINE_CACHE_SIZE then
    let! r := evict_lru in
    if negb (r =? 0) then ret (-1) else ret 0
  else ret 0.

(** [update_block_in_queue]: move a node to the back of the queue. *)
Definition update_block_in_queue (node : option Z) : M World Z :=
  let! n := load node in
  match prev_node n, next_node n with
  | None, None =>
      let! back := get_back_ptr in
      store back (set_prev node);;
      let! back := get_back_ptr in
      store node (set_next back);;
      store node (set_prev None);;
      set_back_ptr node;;
      ret 0
  | None, Some _ => ret 0
  | Some _, None =>
      let! front := get_front_ptr in
      let! back := get_back_ptr in
      store front (set_next back);;
      let! front := get_front_ptr in
      let! back := get_back_ptr in
      store back (set_prev front);;
      let! front := get_front_ptr in
      let! f := load front in
      store (prev_node f) (set_next None);;
      let! front := get_front_ptr in
      set_back_ptr front;;
      let! front := get_front_ptr in
      let! f := load front in
      set_front_ptr (prev_node f);;
      let! back := get_back_ptr in
      store back (set_prev None);;
      ret 0
  | Some _, Some _ =>
      let! n := load node in
      store (prev_node n) (set_next (next_node n));;
      let! n := load node in
      store (next_node n) (set_prev (prev_node n));;
      let! back := get_back_ptr in
      store back (set_prev node);;
      let! back := get_back_ptr in
      store node (set_next back);;
      store node (set_prev None);;
      set_back_ptr node;;
      ret 0
  end.

(** [put_raid_cache(dsk, blk, buf)]; [dsk] and [blk] are values of
    [RAIDDiskID] and [RAIDBlockID], [buf] is the block to store. *)
Definition put_raid_cache (dsk blk : Z) (buf : list byte) : M World Z :=
  let hash_value := hashfunction dsk blk in
  let! bucket := load_chain hash_value in
  match bucket with
  | [] =>
      (* no entry in this bucket yet *)
      let! new_hash := new_hash_node hash_value (mkHashNode dsk blk None) in
      let! new_queue :=
        new_queue_node (mkQueueNode (memcpy malloc_block buf RAID_BLOCK_SIZE) 0 None None new_hash) in
      store_hash new_hash (set_cache_block_ptr new_queue);;
      let! cap := get_capacity in
      if cap =? 0 then
        set_front_ptr new_queue;;
        set_back_ptr new_queue;;
        set_capacity (cap + 1);;
        cache_modify (count 1 0 0 1);;
        ret 0
      else if cap =? 1 then
        set_back_ptr new_queue;;
        let! front := get_front_ptr in
        store front (set_prev new_queue);;
        let! front := get_front_ptr in
        store new_queue (set_next front);;
        set_capacity (cap + 1);;
        cache_modify (count 1 0 0 1);;
        ret 0
      else
        cache_modify (count 1 0 0 1);;
        let! r := insert_in_queue new_queue in
        if negb (r =? 0) then ret (-1) else ret 0
  | _ :: _ =>
      match find_pair dsk blk bucket with
      | None =>
          (* the bucket is in use, but not by this pair *)
          let! new_hash := new_hash_node hash_value (mkHashNode dsk blk None) in
          let! new_queue :=
            new_queue_node (mkQueueNode (memcpy malloc_block buf RAID_BLOCK_SIZE) 0 None None new_hash) in
          store_hash new_hash (set_cache_block_ptr new_queue);;
          cache_modify (count 1 0 0 1);;
          let! r := insert_in_queue new_queue in
          if negb (r =? 0) then ret (-1) else ret 0
      | Some i =>
          let current_hash_node := Some (hash_value, i) in
          let! current := load_hash current_hash_node in
          match cache_block_ptr current with
          | None =>
              (* the pair has a hash node but is not in the queue *)
              let! new_queue :=
                new_queue_node
                  (mkQueueNode (memcpy malloc_block buf RAID_BLOCK_SIZE) 0 None None current_hash_node) in
              store_hash current_hash_node (set_cache_block_ptr new_queue);;
              cache_modify (count 1 0 0 1);;
              let! r := insert_in_queue new_queue in
              if negb (r =? 0) then ret (-1) else ret 0
          | Some _ =>
              (* the pair is in the queue: overwrite and move to the back *)
              cache_modify (count 0 0 1 0);;
              let! n := load (cache_block_ptr current) in
              store (cache_block_ptr current)
                (set_value_buf (memcpy (value_buf n) buf RAID_BLOCK_SIZE));;
              let! r := update_block_in_queue (cache_block_ptr current) in
              if negb (r =? 0) then ret (-1) else ret 0
          end
      end
  end.

(** [get_raid_cache(dsk, blk)]: the cached block, or [None] for [NULL]. *)
Definition get_raid_cache (dsk blk : Z) : M World (option (list byte)) :=
  cache_modify (count 0 1 0 0);;
  let hash_value := hashfunction dsk blk in
  let! bucket := load_chain hash_value in
  match bucket with
  | [] => cache_modify (count 0 0 0 1);; ret None
  | _ :: _ =>
      match find_pair dsk blk bucket with
      | None => cache_modify (count 0 0 0 1);; ret None
      | Some i =>
          let! current := load_hash (Some (hash_value, i)) in
          match cache_block_ptr current with
          | None => cache_modify (count 0 0 0 1);; ret None
          | Some _ =>
              cache_modify (count 0 0 1 0);;
              let! n := load (cache_block_ptr current) in
              ret (Some (value_buf n))
          end
      end
  end.

(** [free_hash_nodes] over a chain: the queue node of every hash node is
    freed with it. *)
Fixpoint free_hash_nodes (l : list HASH_NODE) : M World unit :=
  match l with
  | [] => ret tt
  | n :: l' =>
      free_hash_nodes l';;
      match cache_block_ptr n with
      | None => ret tt
      | Some _ => free_queue_node (cache_block_ptr n)
      end
  end.

Fixpoint free_buckets (entries : list Z) : M World unit :=
  match entries with
  | [] => ret tt
  | entry :: rest =>
      let! l := load_chain entry in
      free_hash_nodes l;;
      cache_modify (fun c => with_dangling ({[entry]} ∪ dangling c) c);;
      free_buckets rest
  end.

(** [close_raid_cache]: every chain is freed; the table keeps its (now
    dangling) pointers. *)
Definition close_raid_cache : M World Z :=
  let! c := cache_gets (fun c => c) in
  free_buckets (List.filter (bucket_in_use c) (seqZ 0 HASHTABLE_SIZE));;
  ret 0.

End Cache.
End raid_cache.

(** ** The driver ([tagline_driver.c])

    The request and response containers ([init], [format], [read], [close],
    [status] and their responses) are filled field by field before every
    use; the model builds the request where the source generates its
    opcode, and keeps of the containers whether they are allocated: a
    function that writes to a container has no defined result while the
    containers are [NULL].  Log messages are left out. *)

Module tagline_driver.

(** A block of a tagline and where it lives on the array.  The backup
    fields are [None] as long as they hold what [malloc] returned. *)
Record BLOCK := mkBlock {
  block : Z;
  RAID_disk : Z;
  RAID_block : Z;
  backup_disk : option Z;
  backup_block : option Z;
}.

(** A tagline; [block_0] is its linked list of blocks. *)
Record TAGLINE := mkTagline {
  tagline : Z;
  max_start_allowed : Z;
  blocks_in_tagline : Z;
  block_0 : list BLOCK;
}.

Record SCHEDULED_BLOCK := mkScheduled {
  sched_disk : Z;
  sched_block : Z;
}.

(** The static variables of [tagline_driver.c]; [head_tag] is the linked
    list of taglines and [directory_freed] tells that [tagline_close] has
    freed it.  [containers_allocated] tells that the ten request and
    response containers ([init], [init_response], [format],
    [format_response], [read], [read_response], [close], [close_response],
    [status] and [status_response]) point to allocated memory: they are
    [NULL] when the program starts, [tagline_driver_init] allocates the
    ten of them and [tagline_close] frees the ten of them and sets them to
    [NULL].  Every function writes the fields of a container before it
    reads them, so the contents are local values of the functions below.
    [buf_read] is the buffer [buf_read] points to, [None] for [NULL]. *)
Record Driver := mkDriver {
  last_block_added : list Z;
  head_tag : list TAGLINE;
  directory_freed : bool;
  taglines_in_use : Z;
  containers_allocated : bool;
  buf_read : option (list byte);
  new_scheduled_block : SCHEDULED_BLOCK;
  new_scheduled_block_backup : SCHEDULED_BLOCK;
  current_disk : Z;
  current_block : Z;
}.

Definition startup : Driver :=
  {| last_block_added := replicate (Z.to_nat RAID_DISKS) (-1);
     head_tag := [];
     directory_freed := false;
     taglines_in_use := 0;
     containers_allocated := false;
     buf_read := None;
     new_scheduled_block := mkScheduled 0 0;
     new_scheduled_block_backup := mkScheduled 0 0;
     current_disk := 0;
     current_block := 0 |}.

Definition with_last_block_added (v : list Z) (d : Driver) : Driver :=
  mkDriver v (head_tag d) (directory_freed d) (taglines_in_use d) (containers_allocated d) (buf_read d)
    (new_scheduled_block d) (new_scheduled_block_backup d) (current_disk d) (current_block d).

Definition with_head_tag (v : list TAGLINE) (d : Driver) : Driver :=
  mkDriver (last_block_added d) v (directory_freed d) (taglines_in_use d) (containers_allocated d) (buf_read d)
    (new_scheduled_block d) (new_scheduled_block_backup d) (current_disk d) (current_block d).

Definition with_directory_freed (v : bool) (d : Driver) : Driver :=
  mkDriver (last_block_added d) (head_tag d) v (taglines_in_use d) (containers_allocated d) (buf_read d)
    (new_scheduled_block d) (new_scheduled_block_backup d) (current_disk d) (current_block d).

Definition with_taglines_in_use (v : Z) (d : Driver) : Driver :=
  mkDriver (last_block_added d) (head_tag d) (directory_freed d) v (containers_allocated d)
    (buf_read d)
    (new_scheduled_block d) (new_scheduled_block_backup d) (current_disk d) (current_block d).

Definition with_containers_allocated (v : bool) (d : Driver) : Driver :=
  mkDriver (last_block_added d) (head_tag d) (directory_freed d) (taglines_in_use d) v
    (buf_read d)
    (new_scheduled_block d) (new_scheduled_block_backup d) (current_disk d) (current_block d).

Definition with_buf_read (v : option (list byte)) (d : Driver) : Driver :=
  mkDriver (last_block_added d) (head_tag d) (directory_freed d) (taglines_in_use d)
    (containers_allocated d) v
    (new_scheduled_block d) (new_scheduled_block_backup d) (current_disk d) (current_block d).

Definition with_new_scheduled_block (v : SCHEDULED_BLOCK) (d : Driver) : Driver :=
  mkDriver (last_block_added d) (head_tag d) (directory_freed d) (taglines_in_use d) (containers_allocated d) (buf_read d)
    v (new_scheduled_block_backup d) (current_disk d) (current_block d).

Definition with_new_scheduled_block_backup (v : SCHEDULED_BLOCK) (d : Driver) : Driver :=
  mkDriver (last_block_added d) (head_tag d) (directory_freed d) (taglines_in_use d) (containers_allocated d) (buf_read d)
    (new_scheduled_block d) v (current_disk d) (current_block d).

Definition with_cursor (dsk blk : Z) (d : Driver) : Driver :=
  mkDriver (last_block_added d) (head_tag d) (directory_freed d) (taglines_in_use d) (containers_allocated d) (buf_read d)
    (new_scheduled_block d) (new_scheduled_block_backup d) dsk blk.

Definition set_backup (dsk blk : Z) (b : BLOCK) : BLOCK :=
  mkBlock (block b) (RAID_disk b) (RAID_block b) (Some dsk) (Some blk).

(** [while (current_tag->tagline != tag) current_tag = current_tag->next_tagline]:
    the position of the tagline the loop stops at, [None] when it runs off
    the end of the list. *)
Fixpoint find_tag (tag : Z) (l : list TAGLINE) : option nat :=
  match l with
  | [] => None
  | t :: l' => if tagline t =? tag then Some 0%nat else S <$> find_tag tag l'
  end.

(** [while (current_block->block != bnum) current_block = current_block->next_block] *)
Fixpoint find_block (bnum : Z) (l : list BLOCK) : option nat :=
  match l with
  | [] => None
  | b :: l' => if block b =? bnum then Some 0%nat else S <$> find_block bnum l'
  end.

Section Driver.
Context `{RaidBusHeader} {B : Type} `{RaidServer B}.
Local Open Scope c_scope.

(** The driver sees its own static variables, the cache and the bus. *)
Definition Machine : Type := Driver * raid_cache.World (B := B).

Definition driver_gets {A} (f : Driver -> A) : M Machine A := gets (fun m => f (fst m)).

Definition driver_modify (f : Driver -> Driver) : M Machine unit :=
  modify (fun m => (f (fst m), snd m)).

Definition in_cache {A} (m : M raid_cache.World A) : M Machine A :=
  zoom snd (fun w s => (fst s, w)) m.

Definition bus_request (op : Z) (buf : option (list byte)) : M Machine (Z * option (list byte)) :=
  in_cache (raid_cache.bus_request op buf).

(** [c->field] for one of the request and response containers [c]. *)
Definition use_containers : M Machine unit :=
  let! allocated := driver_gets containers_allocated in
  if allocated then ret tt else undefined.

(** [*buf_read] *)
Definition load_buf_read : M Machine (list byte) :=
  let! p := driver_gets buf_read in
  deref p.

(** The linked list of taglines, reached through [head_tag]. *)
Definition load_tags : M Machine (list TAGLINE) :=
  let! freed := driver_gets directory_freed in
  if freed then undefined else driver_gets head_tag.

Definition update_tag (i : nat) (f : TAGLINE -> TAGLINE) : M Machine unit :=
  let! tags := load_tags in
  let! t := deref (tags !! i) in
  driver_modify (with_head_tag (<[i := f t]> tags)).

(** [get_max_start_allowed] *)
Definition get_max_start_allowed (tag : Z) : M Machine Z :=
  let! tags := load_tags in
  let! i := deref (find_tag tag tags) in
  let! current := deref (tags !! i) in
  ret (max_start_allowed current).

(** [add_new_tag] *)
Definition add_new_tag : M Machine Z :=
  let! tags := load_tags in
  match tags with
  | [] =>
      driver_modify (with_head_tag [mkTagline 0 0 0 []])
  | _ :: _ =>
      let tag_counter := Z.of_nat (length tags) - 1 in
      driver_modify (with_head_tag (tags ++ [mkTagline (u16 (tag_counter + 1)) 0 0 []]))
  end;;
  let! n := driver_gets taglines_in_use in
  driver_modify (with_taglines_in_use (u32 (n + 1)));;
  ret 0.

(** [RAID_scheduler(slot, primary_disk)]: [slot] is the container the
    scheduled disk and block are written to. *)
Definition RAID_scheduler (slot : SCHEDULED_BLOCK -> Driver -> Driver) (primary_disk : Z)
  : M Machine Z :=
  let! cd := driver_gets current_disk in
  let! cb := driver_gets current_block in
  if (cb =? RAID_DISKBLOCKS) && (cd =? RAID_DISKS) then ret (-1)
  else if (cb =? RAID_DISKBLOCKS - 1) && (cd =? RAID_DISKS) then
    driver_modify (slot (mkScheduled cd cb));;
    driver_modify (with_cursor (u8 (cd + 1)) (u32 (cb + 1)));;
    ret 0
  else if cd =? RAID_DISKS - 1 then
    driver_modify (slot (mkScheduled cd cb));;
    driver_modify (with_cursor 0 (if cb =? RAID_DISKBLOCKS then 0 else u32 (cb + 1)));;
    ret 0
  else
    driver_modify (slot (mkScheduled cd cb));;
    driver_modify (with_cursor (u8 (cd + 1)) cb);;
    ret 0.

(** [last_block_added[disk]++] *)
Definition bump_last_block_added (dsk : Z) : M Machine unit :=
  let! counts := driver_gets last_block_added in
  if dsk <? 0 then undefined
  else
    let! n := deref (counts !! Z.to_nat dsk) in
    driver_modify (with_last_block_added (<[Z.to_nat dsk := n + 1]> counts)).

(** The body of [tagline_write] past the [blks > 1] test: one block. *)
Definition tagline_write_block (tag bnum : Z) (buf : list byte) : M Machine Z :=
  (* tag >= taglines_in_use is logged as an error, and the function carries on *)
  let! max_start := get_max_start_allowed tag in
  (* bnum > max_start is logged as an error, and the function carries on *)
  let! r :=
    if bnum =? max_start then
      (* a new block: the primary copy *)
      let! r := RAID_scheduler with_new_scheduled_block (u8 (-1)) in
      if negb (r =? 0) then ret (-1)
      else
        let! nsb := driver_gets new_scheduled_block in
        let! r := in_cache (raid_cache.put_raid_cache (sched_disk nsb) (sched_block nsb) buf) in
        if negb (r =? 0) then ret (-1)
        else
          bump_last_block_added (sched_disk nsb);;
          let! tags := load_tags in
          let! i := deref (find_tag tag tags) in
          update_tag i (fun t =>
            mkTagline (tagline t) (max_start_allowed t) (u64 (blocks_in_tagline t + 1)) (block_0 t));;
          update_tag i (fun t =>
            mkTagline (tagline t) (u32 (max_start_allowed t + 1)) (blocks_in_tagline t) (block_0 t));;
          update_tag i (fun t =>
            mkTagline (tagline t) (max_start_allowed t) (blocks_in_tagline t)
              (block_0 t ++ [mkBlock bnum (sched_disk nsb) (sched_block nsb) None None]));;
          (* the backup copy *)
          let! r := RAID_scheduler with_new_scheduled_block_backup (sched_disk nsb) in
          if negb (r =? 0) then ret (-1)
          else
            let! nsbb := driver_gets new_scheduled_block_backup in
            let! r := in_cache (raid_cache.put_raid_cache (sched_disk nsbb) (sched_block nsbb) buf) in
            if negb (r =? 0) then ret (-1)
            else
              bump_last_block_added (sched_disk nsbb);;
              let! tags := load_tags in
              let! i := deref (find_tag tag tags) in
              let! current := deref (tags !! i) in
              let! _ := deref (find_block bnum (block_0 current)) in
              (* new_block is the node appended above, the last of the list *)
              update_tag i (fun t =>
                mkTagline (tagline t) (max_start_allowed t) (blocks_in_tagline t)
                  (alter (set_backup (sched_disk nsbb) (sched_block nsbb))
                     (Nat.pred (length (block_0 t))) (block_0 t)));;
              ret 0
    else ret 0 in
  if negb (r =? 0) then ret (-1)
  else if bnum <? max_start then
    (* an old block: overwrite both copies *)
    let! tags := load_tags in
    let! i := deref (find_tag tag tags) in
    let! current_tag := deref (tags !! i) in
    let! j := deref (find_block bnum (block_0 current_tag)) in
    let! current_block := deref (block_0 current_tag !! j) in
    let! r := in_cache (raid_cache.put_raid_cache (RAID_disk current_block) (RAID_block current_block) buf) in
    if negb (r =? 0) then ret (-1)
    else
      let! bd := deref (backup_disk current_block) in
      let! bb := deref (backup_block current_block) in
      let! r := in_cache (raid_cache.put_raid_cache bd bb buf) in
      if negb (r =? 0) then ret (-1) else ret 0
  else ret 0.

(** [tagline_write]: more than one block is written block by block, each
    from its own part of the buffer. *)
Definition tagline_write (tag bnum blks : Z) (buf : list byte) : M Machine Z :=
  if blks >? 1 then
    for_loop (Z.to_nat blks) 0 (fun blk =>
      tagline_write_block tag (u32 (bnum + blk)) (drop (RAID_BLOCK_SIZE * Z.to_nat blk) buf))
  else tagline_write_block tag bnum buf.

(** The body of [tagline_read] past the [blks > 1] test: one block; the
    result is the return value and the contents of [buf] afterwards. *)
Definition tagline_read_block (tag bnum : Z) (buf : list byte) : M Machine (Z * list byte) :=
  let! in_use := driver_gets taglines_in_use in
  if tag >=? in_use then ret (-1, buf)
  else
    let! max_start := get_max_start_allowed tag in
    if bnum >=? max_start then ret (-1, buf)
    else
      let! tags := load_tags in
      let! i := deref (find_tag tag tags) in
      let! current_tag := deref (tags !! i) in
      let! j := deref (find_block bnum (block_0 current_tag)) in
      let! current_block := deref (block_0 current_tag !! j) in
      let! fixbuf := in_cache (raid_cache.get_raid_cache (RAID_disk current_block) (RAID_block current_block)) in
      match fixbuf with
      | None =>
          use_containers;;
          let read :=
            {| request_type := u8 RAID_READ;
               number_of_blocks := 1;
               disk_number := RAID_disk current_block;
               reserved := 0;
               status := 0;
               blockid := RAID_block current_block |} in
          let read_opcode := generate_RAIDOpCode read in
          let! answer := bus_request read_opcode (Some buf) in
          let buf := default buf (snd answer) in
          let read_response := decode_RAIDOpCode (fst answer) in
          if negb (status read_response =? 0) then ret (-1, buf)
          else
            (* a failure of put_raid_cache is logged, nothing more *)
            let! _ := in_cache (raid_cache.put_raid_cache (RAID_disk current_block) (RAID_block current_block) buf) in
            ret (0, buf)
      | Some cached => ret (0, memcpy buf cached RAID_BLOCK_SIZE)
      end.

(** The [for] loop of [tagline_read] over the blocks [block .. blks-1]. *)
Fixpoint tagline_read_blocks (n : nat) (blk : Z) (tag bnum : Z) (buf : list byte)
  : M Machine (Z * list byte) :=
  match n with
  | O => ret (0, buf)
  | S n' =>
      let offset := (RAID_BLOCK_SIZE * Z.to_nat blk)%nat in
      let! r := tagline_read_block tag (u32 (bnum + blk)) (drop offset buf) in
      let buf := take offset buf ++ snd r in
      if negb (fst r =? 0) then ret (-1, buf)
      else tagline_read_blocks n' (blk + 1) tag bnum buf
  end.

(** [tagline_read] *)
Definition tagline_read (tag bnum blks : Z) (buf : list byte) : M Machine (Z * list byte) :=
  if blks >? 1 then tagline_read_blocks (Z.to_nat blks) 0 tag bnum buf
  else tagline_read_block tag bnum buf.

(** The recovery of one block of a tagline after [dsk] has been formatted
    (the body of the inner [while] loop of [raid_disk_signal]); the result
    is [-1] where the source returns [-1]. *)
Definition recover_block (dsk : Z) (current_block : BLOCK) : M Machine Z :=
  if RAID_disk current_block =? dsk then
    (* primary block lost: recover it from the backup *)
    let! bd := deref (backup_disk current_block) in
    let! bb := deref (backup_block current_block) in
    let! buf := in_cache (raid_cache.get_raid_cache bd bb) in
    match buf with
    | None =>
        let read :=
          {| request_type := u8 RAID_READ;
             number_of_blocks := 1;
             disk_number := bd;
             reserved := 0;
             status := 0;
             blockid := bb |} in
        let read_opcode := generate_RAIDOpCode read in
        let! old := load_buf_read in
        let! answer := bus_request read_opcode (Some old) in
        driver_modify (with_buf_read (Some (default old (snd answer))));;
        let read_response := decode_RAIDOpCode (fst answer) in
        if negb (status read_response =? 0) then ret (-1)
        else
          let! data := load_buf_read in
          let! r := in_cache (raid_cache.put_raid_cache (RAID_disk current_block) (RAID_block current_block) data) in
          if negb (r =? 0) then ret (-1) else ret 0
    | Some cached =>
        let! old := load_buf_read in
        driver_modify (with_buf_read (Some (memcpy old cached RAID_BLOCK_SIZE)));;
        let! data := load_buf_read in
        let! r := in_cache (raid_cache.put_raid_cache (RAID_disk current_block) (RAID_block current_block) data) in
        if negb (r =? 0) then ret (-1) else ret 0
    end
  else
    let! bd := deref (backup_disk current_block) in
    if bd =? dsk then
      (* backup block lost: recover it from the primary *)
      let! bb := deref (backup_block current_block) in
      let! buf := in_cache (raid_cache.get_raid_cache (RAID_disk current_block) (RAID_block current_block)) in
      match buf with
      | None =>
          let read :=
            {| request_type := u8 RAID_READ;
               number_of_blocks := 1;
               disk_number := RAID_disk current_block;
               reserved := 0;
               status := 0;
               blockid := RAID_block current_block |} in
          let read_opcode := generate_RAIDOpCode read in
          let! old := load_buf_read in
          let! answer := bus_request read_opcode (Some old) in
          driver_modify (with_buf_read (Some (default old (snd answer))));;
          let read_response := decode_RAIDOpCode (fst answer) in
          if negb (status read_response =? 0) then ret (-1)
          else
            let! data := load_buf_read in
            let! r := in_cache (raid_cache.put_raid_cache bd bb data) in
            if negb (r =? 0) then ret (-1) else ret 0
      | Some cached =>
          let! r := in_cache (raid_cache.put_raid_cache bd bb cached) in
          if negb (r =? 0) then ret (-1) else ret 0
      end
    else ret 0.

(** The inner [while] loop: all blocks of one tagline. *)
Fixpoint recover_blocks (dsk : Z) (l : list BLOCK) : M Machine Z :=
  match l with
  | [] => ret 0
  | current_block :: rest =>
      let! r := recover_block dsk current_block in
      if negb (r =? 0) then ret (-1) else recover_blocks dsk rest
  end.

(** The outer [while] loop: all taglines. *)
Fixpoint recover_tags (dsk : Z) (l : list TAGLINE) : M Machine Z :=
  match l with
  | [] => ret 0
  | current_tag :: rest =>
      let! r := recover_blocks dsk (block_0 current_tag) in
      if negb (r =? 0) then ret (-1) else recover_tags dsk rest
  end.

(** The body of the [for] loop of [raid_disk_signal] for one disk. *)
Definition signal_disk (dsk : Z) : M Machine Z :=
  let status_request :=
    {| request_type := u8 RAID_STATUS;
       number_of_blocks := 0;
       disk_number := dsk;
       reserved := 0;
       status := 0;
       blockid := 0 |} in
  let status_opcode := generate_RAIDOpCode status_request in
  let! answer := bus_request status_opcode None in
  let status_response := decode_RAIDOpCode (fst answer) in
  if negb (status status_response =? 0) then ret (-1)
  else if blockid status_response =? 2 then
    let format :=
      {| request_type := u8 RAID_FORMAT;
         number_of_blocks := 0;
         disk_number := dsk;
         reserved := 0;
         status := 0;
         blockid := 0 |} in
    let format_opcode := generate_RAIDOpCode format in
    let! answer := bus_request format_opcode None in
    let format_response := decode_RAIDOpCode (fst answer) in
    if negb (status format_response =? 0) then ret (-1)
    else
      let! freed := driver_gets directory_freed in
      let! tags := driver_gets head_tag in
      match tags with
      | [] => ret 0
      | _ :: _ => if freed then undefined else recover_tags dsk tags
      end
  else ret 0.

(** [raid_disk_signal]: [buf_read] is allocated anew, and fields of the
    [read], [status] and [format] containers are written before the loop. *)
Definition raid_disk_signal : M Machine Z :=
  driver_modify (with_buf_read (Some malloc_block));;
  use_containers;;
  for_loop (Z.to_nat RAID_DISKS) 0 signal_disk.

(** [tagline_driver_init]: the containers and [buf_read] are allocated
    first ([malloc] is taken to succeed). *)
Definition tagline_driver_init (maxlines : Z) : M Machine Z :=
  driver_modify (with_containers_allocated true);;
  driver_modify (with_buf_read (Some malloc_block));;
  let! r := in_cache (raid_cache.init_raid_cache TAGLINE_CACHE_SIZE) in
  if negb (r =? 0) then ret (-1)
  else
    let total_number_of_blocks := RAID_DISKS * RAID_DISKBLOCKS in
    if RAID_TRACK_BLOCKS =? 0 then undefined
    else
      let total_number_of_tracks := total_number_of_blocks / RAID_TRACK_BLOCKS in
      let total_number_of_disks := RAID_DISKS in
      let init :=
        {| request_type := u8 RAID_INIT;
           number_of_blocks := u8 total_number_of_tracks;
           disk_number := u8 total_number_of_disks;
           reserved := 0;
           status := 0;
           blockid := 0 |} in
      let init_opcode := generate_RAIDOpCode init in
      let! answer := bus_request init_opcode None in
      let init_response := decode_RAIDOpCode (fst answer) in
      if negb (check_response init init_response =? 0) then ret (-1)
      else
        let! r :=
          for_loop (Z.to_nat total_number_of_disks) 0 (fun dsk =>
            let format :=
              {| request_type := u8 RAID_FORMAT;
                 number_of_blocks := 0;
                 disk_number := dsk;
                 reserved := 0;
                 status := 0;
                 blockid := 0 |} in
            let format_opcode := generate_RAIDOpCode format in
            let! answer := bus_request format_opcode None in
            let format_response := decode_RAIDOpCode (fst answer) in
            if negb (check_response format format_response =? 0) then ret (-1) else ret 0) in
        if negb (r =? 0) then ret (-1)
        else for_loop (Z.to_nat (u32 maxlines)) 0 (fun _ => add_new_tag).

(** [free_block_linked_list] dereferences its argument: the list of blocks
    must not be empty. *)
Definition free_block_linked_list (l : list BLOCK) : M Machine unit :=
  match l with
  | [] => undefined
  | _ :: _ => ret tt
  end.

(** [free_tag_linked_list] *)
Fixpoint free_tags (l : list TAGLINE) : M Machine unit :=
  match l with
  | [] => ret tt
  | t :: rest => free_tags rest;; free_block_linked_list (block_0 t)
  end.

Definition free_tag_linked_list (l : list TAGLINE) : M Machine unit :=
  match l with
  | [] => undefined
  | _ :: _ => free_tags l;; driver_modify (with_directory_freed true)
  end.

(** [tagline_close]: after the list of taglines, the ten containers and
    [buf_read] are freed and set to [NULL]. *)
Definition tagline_close : M Machine Z :=
  let! r := in_cache raid_cache.close_raid_cache in
  if negb (r =? 0) then ret (-1)
  else
    use_containers;;
    let close :=
      {| request_type := u8 RAID_CLOSE;
         number_of_blocks := 0;
         disk_number := 0;
         reserved := 0;
         status := 0;
         blockid := 0 |} in
    let close_opcode := generate_RAIDOpCode close in
    let! answer := bus_request close_opcode None in
    let close_response := decode_RAIDOpCode (fst answer) in
    if negb (check_response close close_response =? 0) then ret (-1)
    else
      let! tags := load_tags in
      free_tag_linked_list tags;;
      driver_modify (with_containers_allocated false);;
      driver_modify (with_buf_read None);;
      ret 0.

End Driver.
End tagline_driver.

(** ** Environments *)

(** Modelled from the spec: the RAID array behind the bus (the server is
    not part of the sources).  Following §6, a response echoes the request
    with the status bit telling success (0) or failure (1); READ and WRITE
    carry one block; FORMAT leaves a disk blank; the STATUS response holds
    the health of the disk in its block_id field, [2] for a failed disk.
    Requests to a failed disk or outside the geometry of §3 fail. *)
Record RaidArray := mkArray {
  failed : gset Z;
  stored : gmap (Z * Z) (list byte);
}.

Definition blank_array : RaidArray := mkArray ∅ ∅.

(** The environment event of a disk failure. *)
Definition fail_disk (d : Z) (a : RaidArray) : RaidArray :=
  mkArray ({[d]} ∪ failed a) (stored a).

Definition failure_bit (op : Z) : Z := Z.lor op (Z.shiftl 1 32).

Definition on_array (d b : Z) : bool :=
  (0 <=? d) && (d <? RAID_DISKS) && (0 <=? b) && (b <? RAID_DISKBLOCKS).

Definition array_exchange `{RaidBusHeader} (op : Z) (sent : list byte) (a : RaidArray)
  : option (Z * option (list byte)) * RaidArray :=
  let kind := Z.shiftr op 56 in
  let d := Z.land (Z.shiftr op 40) 0xFF in
  let b := Z.land op 0xFFFFFFFF in
  let healthy := negb (bool_decide (d ∈ failed a)) in
  if kind =? RAID_INIT then (Some (op, None), a)
  else if kind =? RAID_FORMAT then
    if on_array d 0
    then (Some (op, None), mkArray (failed a ∖ {[d]}) (filter (fun kv => kv.1.1 ≠ d) (stored a)))
    else (Some (failure_bit op, None), a)
  else if kind =? RAID_READ then
    if on_array d b && healthy
    then (Some (op, Some (default (replicate RAID_BLOCK_SIZE x00) (stored a !! (d, b)))), a)
    else (Some (failure_bit op, None), a)
  else if kind =? RAID_WRITE then
    if on_array d b && healthy
    then (Some (op, None), mkArray (failed a) (<[(d, b) := sent]> (stored a)))
    else (Some (failure_bit op, None), a)
  else if kind =? RAID_CLOSE then (Some (op, None), a)
  else if kind =? RAID_STATUS then
    if on_array d 0
    then (Some (Z.lor (Z.land op (Z.lnot 0xFFFFFFFF)) (if healthy then 0 else 2), None), a)
    else (Some (failure_bit op, None), a)
  else (Some (failure_bit op, None), a).

#[export] Instance array_server `{RaidBusHeader} : RaidServer RaidArray := array_exchange.

(** A server that keeps the list of the opcodes it has received, most
    recent first, in front of another server. *)
#[export] Instance recording_server {B : Type} `{RaidServer B} : RaidServer (list Z * B) :=
  fun op sent b =>
    (fst (server_exchange op sent (snd b)), (op :: fst b, snd (server_exchange op sent (snd b)))).

(** A server that answers from a script, whatever it is asked. *)
#[export] Instance scripted_server : RaidServer (list (Z * option (list byte))) :=
  fun op sent script =>
    match script with
    | [] => (None, [])
    | answer :: rest => (Some answer, rest)
    end.

(** The numbering of the request types in the order §6 lists them, with
    blocks of [size] bytes and a cache of [cache_size] blocks. *)
Definition header (size : nat) (cache_size : Z) : RaidBusHeader :=
  {| RAID_BLOCK_SIZE := size;
     RAID_TRACK_BLOCKS := 1024;
     TAGLINE_CACHE_SIZE := cache_size;
     RAID_INIT := 0;
     RAID_FORMAT := 1;
     RAID_READ := 2;
     RAID_WRITE := 3;
     RAID_CLOSE := 4;
     RAID_STATUS := 5;
     malloc_block := replicate size x00 |}.

(** What the development asks of the header: request types are distinct
    values of [uint8_t], and [malloc] returns block-sized buffers. *)
Definition header_ok `{RaidBusHeader} : Prop :=
  NoDup [RAID_INIT; RAID_FORMAT; RAID_READ; RAID_WRITE; RAID_CLOSE; RAID_STATUS] /\
  Forall (fun k => 0 <= k < 2 ^ 8) [RAID_INIT; RAID_FORMAT; RAID_READ; RAID_WRITE; RAID_CLOSE; RAID_STATUS] /\
  length malloc_block = RAID_BLOCK_SIZE.

(** ** The life of the driver *)

Module lifecycle.
Section Lifecycle.
Context `{RaidBusHeader} {B : Type} `{RaidServer B}.
Import tagline_driver.

(** A direct use of the cache, as the driver makes it. *)
Inductive cache_op :=
| CacheGet (dsk blk : Z)
| CachePut (dsk blk : Z) (buf : list byte).

Definition op_disk (o : cache_op) : Z :=
  match o with CacheGet d _ | CachePut d _ _ => d end.

Definition op_block (o : cache_op) : Z :=
  match o with CacheGet _ b | CachePut _ b _ => b end.

(** The result of a cache operation is the return value of a put, and
    [0] for a get. *)
Definition run_cache_op (o : cache_op) : M (raid_cache.World (B := B)) Z :=
  match o with
  | CacheGet d b => bind (raid_cache.get_raid_cache d b) (fun _ => ret 0)
  | CachePut d b buf => raid_cache.put_raid_cache d b buf
  end.

Fixpoint run_cache_ops (l : list cache_op) : M (raid_cache.World (B := B)) (list Z) :=
  match l with
  | [] => ret []
  | o :: l' =>
      bind (run_cache_op o) (fun r => bind (run_cache_ops l') (fun rs => ret (r :: rs)))
  end.

(** The states the driver goes through: [tagline_driver_init] runs once,
    on the program as it starts, and returns [0]; reads, writes and disk
    signals follow, whatever they return; in between the environment may
    change the state of the bus server at will. *)
Inductive reachable : Machine (B := B) -> Prop :=
| reach_init b maxlines s :
    tagline_driver_init maxlines (startup, (raid_cache.startup, b)) = Some (0, s) ->
    reachable s
| reach_write s tag bnum blks buf r s' :
    reachable s ->
    tagline_write tag bnum blks buf s = Some (r, s') ->
    reachable s'
| reach_read s tag bnum blks buf r s' :
    reachable s ->
    tagline_read tag bnum blks buf s = Some (r, s') ->
    reachable s'
| reach_signal s r s' :
    reachable s ->
    raid_disk_signal s = Some (r, s') ->
    reachable s'
| reach_environment s b :
    reachable s ->
    reachable (fst s, (fst (snd s), b)).

(** The placements the directory has recorded with both their sides: the
    primary and the backup address of every block whose backup fields
    have been written. *)
Definition placement (b : BLOCK) : option ((Z * Z) * (Z * Z)) :=
  match backup_disk b, backup_block b with
  | Some bd, Some bb => Some ((RAID_disk b, RAID_block b), (bd, bb))
  | _, _ => None
  end.

Definition recorded_placements (d : Driver) : list ((Z * Z) * (Z * Z)) :=
  omap placement (mjoin (block_0 <$> head_tag d)).

(** [n] one-block writes in a row, filling the taglines one after the
    other with [MAX_TAGLINE_BLOCK_NUMBER] blocks each, starting at block
    [bnum] of tagline [tag]; the result is [0] when all of them returned
    [0]. *)
Fixpoint fill (n : nat) (tag bnum : Z) (buf : list byte) : M (Machine (B := B)) Z :=
  match n with
  | O => ret 0
  | S n' =>
      bind (tagline_write tag bnum 1 buf) (fun r =>
        if negb (r =? 0) then ret (-1)
        else if bnum + 1 =? MAX_TAGLINE_BLOCK_NUMBER then fill n' (tag + 1) 0 buf
        else fill n' tag (bnum + 1) buf)
  end.

End Lifecycle.
End lifecycle.

(** ** Invariants of the directory and of the allocation cursor *)

Module directory.
Import tagline_driver.

(** Where a block may have been put: the scheduler hands out the disks
    [0 .. RAID_DISKS-1] and the blocks [0 .. RAID_DISKBLOCKS]. *)
Definition scheduled (d b : Z) : Prop :=
  0 <= d < RAID_DISKS /\ 0 <= b <= RAID_DISKBLOCKS.

Definition block_ok (j : nat) (b : BLOCK) : Prop :=
  block b = u32 (Z.of_nat j) /\
  scheduled (RAID_disk b) (RAID_block b) /\
  match backup_disk b, backup_block b with
  | Some bd, Some bb => scheduled bd bb /\ bd <> RAID_disk b
  | None, None => True
  | _, _ => False
  end.

Definition tag_ok (i : nat) (t : TAGLINE) : Prop :=
  tagline t = u16 (Z.of_nat i) /\
  max_start_allowed t = u32 (Z.of_nat (length (block_0 t))) /\
  forall j b, block_0 t !! j = Some b -> block_ok j b.

Definition driver_ok (d : Driver) : Prop :=
  directory_freed d = false /\
  0 <= current_disk d < RAID_DISKS /\
  0 <= current_block d <= RAID_DISKBLOCKS /\
  length (last_block_added d) = Z.to_nat RAID_DISKS /\
  taglines_in_use d = Z.of_nat (length (head_tag d)) /\
  Z.of_nat (length (head_tag d)) < 2 ^ 32 /\
  forall i t, head_tag d !! i = Some t -> tag_ok i t.

(** A tagline with one more block at its end. *)
Definition appended (t : TAGLINE) (b : BLOCK) : TAGLINE :=
  mkTagline (tagline t) (u32 (max_start_allowed t + 1)) (u64 (blocks_in_tagline t + 1))
    (block_0 t ++ [b]).

(** [d'] is [d] with a new list of taglines and a new cursor. *)
Definition moved (d d' : Driver) (tags : list TAGLINE) (cd cb : Z) : Prop :=
  head_tag d' = tags /\ current_disk d' = cd /\ current_block d' = cb /\
  directory_freed d' = directory_freed d /\
  taglines_in_use d' = taglines_in_use d /\
  length (last_block_added d') = length (last_block_added d).

(** [d'] is [d] but for the buffers and the scheduling containers. *)
Definition same_directory (d d' : Driver) : Prop :=
  moved d d' (head_tag d) (current_disk d) (current_block d).

Definition next_disk (cd : Z) : Z := if cd =? RAID_DISKS - 1 then 0 else cd + 1.

Definition next_block (cd cb : Z) : Z :=
  if cd =? RAID_DISKS - 1 then (if cb =? RAID_DISKBLOCKS then 0 else cb + 1) else cb.

(** The disk and the block of allocation number [k], counted from [0]. *)
Definition allocation_address (k : Z) : Z * Z :=
  (k mod RAID_DISKS, (k / RAID_DISKS) mod (RAID_DISKBLOCKS + 1)).

(** [d] with the cursor at allocation number [k]. *)
Definition at_allocation (k : Z) (d : Driver) : Driver :=
  with_cursor (fst (allocation_address k)) (snd (allocation_address k)) d.

End directory.

(** ** Scenarios

    The literal setting of the end-to-end scenarios of §8: blocks of 1024
    bytes and a cache of 8192 blocks, in front of a blank array. *)

Module scenario.
Import tagline_driver.

#[export] Instance spec_header : RaidBusHeader := header 1024 8192.

Definition State : Type := Machine (B := RaidArray).

(** The program as it starts. *)
Definition boot : State := (startup, (raid_cache.startup, blank_array)).

Definition block_A : list byte := replicate 1024 "A"%byte.
Definition block_B : list byte := replicate 1024 "B"%byte.

(** The state a computation ends in ([boot] when it does not end). *)
Definition state_after {A} (m : M State A) (s : State) : State :=
  match m s with
  | Some (_, s') => s'
  | None => boot
  end.

(** The value a computation returns. *)
Definition result {A} (m : M State A) (s : State) : option A :=
  fst <$> m s.

Definition initialised : State := state_after (tagline_driver_init 1) boot.

(** Scenario 1: the first write. *)
Definition first_write : State := state_after (tagline_write 0 0 1 block_A) initialised.

(** What the allocator has done: the cursor and the two addresses it
    scheduled last. *)
Definition allocator_view (s : State) : (Z * Z) * (Z * Z) * (Z * Z) :=
  ((current_disk (fst s), current_block (fst s)),
   (sched_disk (new_scheduled_block (fst s)), sched_block (new_scheduled_block (fst s))),
   (sched_disk (new_scheduled_block_backup (fst s)),
    sched_block (new_scheduled_block_backup (fst s)))).

(** One allocation seen from the cursor: the step [RAID_scheduler] takes
    when [current_disk] is one of the disks. *)
Definition cursor_step (c : Z * Z) : Z * Z :=
  (directory.next_disk (fst c), directory.next_block (fst c) (snd c)).

(** The cursor after [n] allocations. *)
Definition cursor_after (n : nat) : Z * Z := Nat.iter n cursor_step (0, 0).

(** A cache of two blocks of four bytes in front of the array, and the
    state of this cache after [init_raid_cache] and a list of gets and
    puts. *)
Definition small_header : RaidBusHeader := header 4 2.

Definition CacheState : Type := raid_cache.World (B := RaidArray).

Definition cache_boot : CacheState := (raid_cache.startup, blank_array).

Definition cache_initialised : CacheState :=
  match raid_cache.init_raid_cache 2 cache_boot with
  | Some (_, w) => w
  | None => cache_boot
  end.

Definition cache_after (ops : list lifecycle.cache_op) : CacheState :=
  match lifecycle.run_cache_ops (H := small_header) ops cache_initialised with
  | Some (_, w) => w
  | None => cache_boot
  end.

Definition bytes_A : list byte := replicate 4 "A"%byte.
Definition bytes_B : list byte := replicate 4 "B"%byte.
Definition bytes_C : list byte := replicate 4 "C"%byte.

Definition two_puts : list lifecycle.cache_op :=
  [lifecycle.CachePut 0 0 bytes_A; lifecycle.CachePut 1 0 bytes_B].

(** The state a computation of the cache ends in ([cache_boot] when it
    does not end). *)
Definition cache_state_after {A} (m : M CacheState A) (w : CacheState) : CacheState :=
  match m w with
  | Some (_, w') => w'
  | None => cache_boot
  end.

(** The state of the cache of two blocks, in front of the array for
    blocks of four bytes, after [init_raid_cache] and a list of gets and
    puts. *)
Definition small_cache_after (ops : list lifecycle.cache_op) : CacheState :=
  match @lifecycle.run_cache_ops small_header RaidArray (@array_server small_header)
          ops cache_initialised with
  | Some (_, w) => w
  | None => cache_boot
  end.

(** Two puts fill the cache of two blocks; the block put first is read,
    and a third block is put. *)
Definition read_before_put : list lifecycle.cache_op :=
  [lifecycle.CachePut 0 0 bytes_A; lifecycle.CachePut 1 0 bytes_B;
   lifecycle.CacheGet 0 0; lifecycle.CachePut 2 0 bytes_C].

(** Puts only: block 0 of disk 0 is put twice, block 0 of disk 1 once,
    block 0 of disk 0 once more, and a third block is put. *)
Definition put_again_before_put : list lifecycle.cache_op :=
  [lifecycle.CachePut 0 0 bytes_A; lifecycle.CachePut 0 0 bytes_A;
   lifecycle.CachePut 1 0 bytes_B; lifecycle.CachePut 0 0 bytes_A;
   lifecycle.CachePut 2 0 bytes_C].

(** A second [init_raid_cache] of the full cache of two blocks, and two
    more puts. *)
Definition initialised_again : CacheState :=
  cache_state_after (raid_cache.init_raid_cache 2) (small_cache_after two_puts).

Definition two_more_puts : list lifecycle.cache_op :=
  [lifecycle.CachePut 2 0 bytes_C; lifecycle.CachePut 3 0 bytes_A].

Definition after_second_init : CacheState :=
  cache_state_after
    (@lifecycle.run_cache_ops small_header RaidArray (@array_server small_header) two_more_puts)
    initialised_again.

(** Two puts, the first one for a disk the array does not have. *)
Definition off_array_puts : list lifecycle.cache_op :=
  [lifecycle.CachePut 9 0 bytes_A; lifecycle.CachePut 1 0 bytes_B].

(** After the first write: the same block written again, read back, a
    disk signal, and the close of the driver. *)
Definition overwritten : State := state_after (tagline_write 0 0 1 block_B) first_write.

Definition read_back : State := state_after (tagline_read 0 0 1 block_B) first_write.

Definition signalled : State := state_after raid_disk_signal first_write.

Definition closed : State := state_after tagline_close first_write.

(** The environment event of the failure of disk [d]. *)
Definition disk_fails (d : Z) (s : State) : State :=
  (fst s, (fst (snd s), fail_disk d (snd (snd s)))).

(** The driver in front of the cache of two blocks of four bytes: after
    the first write the cache is full; disk 1 fails, and the write of the
    next block has its backup copy refused. *)
Definition small_initialised : State :=
  state_after (tagline_driver_init (H := small_header) 1) boot.

Definition small_first_write : State :=
  state_after (tagline_write (H := small_header) 0 0 1 bytes_A) small_initialised.

Definition small_failed_backup : State :=
  state_after (tagline_write (H := small_header) 0 1 1 bytes_B) (disk_fails 1 small_first_write).

(** The program as it starts in front of an array that records the
    opcodes it receives, and its state after [tagline_driver_init(1)]. *)
Definition recorded_boot : Machine (B := list Z * RaidArray) :=
  (startup, (raid_cache.startup, ([], blank_array))).

Definition recorded_initialised : Machine (B := list Z * RaidArray) :=
  match tagline_driver_init 1 recorded_boot with
  | Some (_, s) => s
  | None => recorded_boot
  end.

End scenario.

(** * Proofs *)

#[global] Arguments u8 : simpl never.
#[global] Arguments u16 : simpl never.
#[global] Arguments u32 : simpl never.
#[global] Arguments u64 : simpl never.
#[global] Arguments to_int : simpl never.
#[global] Arguments generate_RAIDOpCode : simpl never.
#[global] Arguments decode_RAIDOpCode : simpl never.
#[global] Arguments check_response : simpl never.
#[global] Arguments raid_cache.generate_RAIDOpCode_c : simpl never.
#[global] Arguments raid_cache.decode_RAIDOpCode_c : simpl never.
#[global] Arguments raid_cache.hashfunction : simpl never.
#[global] Arguments memcpy : simpl never.
#[global] Arguments bind : simpl never.
#[global] Arguments zoom : simpl never.
#[global] Arguments for_loop : simpl nomatch.
#[global] Arguments tagline_driver.in_cache : simpl never.
#[global] Arguments tagline_driver.bus_request : simpl never.
#[global] Arguments raid_cache.bus_request : simpl never.
#[global] Arguments raid_cache.put_raid_cache : simpl never.
#[global] Arguments raid_cache.get_raid_cache : simpl never.
#[global] Arguments raid_cache.insert_in_queue : simpl never.
#[global] Arguments raid_cache.update_block_in_queue : simpl never.
#[global] Arguments raid_cache.evict_lru : simpl never.
#[global] Arguments tagline_driver.tagline_write_block : simpl never.
#[global] Arguments tagline_driver.tagline_read_block : simpl never.
#[global] Arguments tagline_driver.recover_block : simpl never.
#[global] Arguments tagline_driver.signal_disk : simpl never.
#[global] Arguments tagline_driver.RAID_scheduler : simpl never.
#[global] Arguments tagline_driver.use_containers : simpl never.
#[global] Arguments tagline_driver.load_buf_read : simpl never.

(** ** The codec *)

Lemma generate_RAIDOpCode_sum (r : RAID_REQUEST) :
  fits_layout r ->
  generate_RAIDOpCode r =
    request_type r * 2 ^ 56 + number_of_blocks r * 2 ^ 48 + disk_number r * 2 ^ 40
    + reserved r * 2 ^ 33 + status r * 2 ^ 32 + blockid r.
Proof.
  intros (Ht & Hn & Hd & Hr & Hs & Hb).
  unfold generate_RAIDOpCode, u64.
  rewrite !Z.shiftl_mul_pow2 by lia.
  change (2 ^ 8) with 256 in *. change (2 ^ 7) with 128 in *.
  change (2 ^ 1) with 2 in *. change (2 ^ 32) with 4294967296 in *.
  change (2 ^ 64) with 18446744073709551616.
  change (2 ^ 56) with 72057594037927936. change (2 ^ 48) with 281474976710656.
  change (2 ^ 40) with 1099511627776. change (2 ^ 33) with 8589934592.
  rewrite (Z.mod_small (request_type r * 256)) by lia.
  rewrite (Z.mod_small (request_type r * 256 + _)) by lia.
  rewrite (Z.mod_small ((request_type r * 256 + _) * 256)) by lia.
  rewrite (Z.mod_small ((request_type r * 256 + _) * 256 + _)) by lia.
  rewrite (Z.mod_small (((request_type r * 256 + _) * 256 + _) * 128)) by lia.
  rewrite (Z.mod_small (((request_type r * 256 + _) * 256 + _) * 128 + _)) by lia.
  rewrite (Z.mod_small ((((request_type r * 256 + _) * 256 + _) * 128 + _) * 2)) by lia.
  rewrite (Z.mod_small ((((request_type r * 256 + _) * 256 + _) * 128 + _) * 2 + _)) by lia.
  rewrite (Z.mod_small (((((request_type r * 256 + _) * 256 + _) * 128 + _) * 2 + _) * 4294967296)) by lia.
  rewrite Z.mod_small by lia.
  lia.
Qed.

Lemma split_low (hi lo m : Z) :
  0 <= lo < m -> (hi * m + lo) mod m = lo /\ (hi * m + lo) / m = hi.
Proof.
  intros Hlo. split.
  - rewrite Z.add_comm, Z.mod_add by lia. apply Z.mod_small; lia.
  - rewrite Z.add_comm, Z.div_add by lia. rewrite Z.div_small; lia.
Qed.

Lemma decode_RAIDOpCode_fields (t n d r s b : Z) :
  0 <= t < 2 ^ 8 -> 0 <= n < 2 ^ 8 -> 0 <= d < 2 ^ 8 -> 0 <= r < 2 ^ 7 ->
  0 <= s < 2 ^ 1 -> 0 <= b < 2 ^ 32 ->
  decode_RAIDOpCode (t * 2 ^ 56 + n * 2 ^ 48 + d * 2 ^ 40 + r * 2 ^ 33 + s * 2 ^ 32 + b)
  = mkRequest t n d (r mod 2 ^ 6) s b.
Proof.
  intros Ht Hn Hd Hr Hs Hb.
  unfold decode_RAIDOpCode, u8. cbv zeta.
  rewrite !Z.shiftr_div_pow2 by lia.
  repeat match goal with
         | |- context [Z.land ?a 0xFFFFFFFF] =>
             change (Z.land a 0xFFFFFFFF) with (Z.land a (Z.ones 32))
         | |- context [Z.land ?a 0x1] => change (Z.land a 0x1) with (Z.land a (Z.ones 1))
         | |- context [Z.land ?a 0x3F] => change (Z.land a 0x3F) with (Z.land a (Z.ones 6))
         | |- context [Z.land ?a 0xFF] => change (Z.land a 0xFF) with (Z.land a (Z.ones 8))
         end.
  rewrite !Z.land_ones by lia.
  replace (t * 2 ^ 56 + n * 2 ^ 48 + d * 2 ^ 40 + r * 2 ^ 33 + s * 2 ^ 32 + b)
    with (((((t * 2 ^ 8 + n) * 2 ^ 8 + d) * 2 ^ 7 + r) * 2 ^ 1 + s) * 2 ^ 32 + b) by lia.
  destruct (split_low ((((t * 2 ^ 8 + n) * 2 ^ 8 + d) * 2 ^ 7 + r) * 2 ^ 1 + s) b (2 ^ 32) Hb)
    as [-> ->].
  destruct (split_low (((t * 2 ^ 8 + n) * 2 ^ 8 + d) * 2 ^ 7 + r) s (2 ^ 1) Hs) as [-> ->].
  destruct (split_low ((t * 2 ^ 8 + n) * 2 ^ 8 + d) r (2 ^ 7) Hr) as [_ ->].
  destruct (split_low (t * 2 ^ 8 + n) d (2 ^ 8) Hd) as [-> ->].
  destruct (split_low t n (2 ^ 8) Hn) as [-> ->].
  rewrite (Z.mod_small t) by lia.
  f_equal.
  replace ((((t * 2 ^ 8 + n) * 2 ^ 8 + d) * 2 ^ 7 + r))
    with (r + (((t * 2 ^ 8 + n) * 2 ^ 8 + d) * 2) * 2 ^ 6) by lia.
  by rewrite Z.mod_add by lia.
Qed.

(** Decoding an encoded request gives the request back, except that the
    reserved field comes back modulo [2^6]. *)
Lemma decode_generate (r : RAID_REQUEST) :
  fits_layout r ->
  decode_RAIDOpCode (generate_RAIDOpCode r) =
    mkRequest (request_type r) (number_of_blocks r) (disk_number r)
      (reserved r mod 2 ^ 6) (status r) (blockid r).
Proof.
  intros Hfit. rewrite generate_RAIDOpCode_sum by done.
  destruct Hfit as (Ht & Hn & Hd & Hr & Hs & Hb).
  by apply decode_RAIDOpCode_fields.
Qed.

(** The round trip holds for the requests whose reserved field fits six
    bits, among them every request the driver builds (reserved is 0). *)
Lemma decode_generate_reserved6 (r : RAID_REQUEST) :
  fits_layout r -> reserved r < 2 ^ 6 ->
  decode_RAIDOpCode (generate_RAIDOpCode r) = r.
Proof.
  intros Hfit Hr. rewrite decode_generate by done.
  destruct Hfit as (_ & _ & _ & Hr' & _).
  rewrite Z.mod_small by lia. by destruct r.
Qed.

(** C3 (the code departs from the claim): a request that fits the widths of
    the layout, with reserved = 64 (bit 6 of the seven reserved bits), does
    not survive the round trip: the decoder masks the field with [0x3F] and
    gives reserved = 0. *)
Theorem codec_roundtrip_loses_reserved_bit6 :
  fits_layout (mkRequest 0 0 0 64 0 0) /\
  decode_RAIDOpCode (generate_RAIDOpCode (mkRequest 0 0 0 64 0 0)) = mkRequest 0 0 0 0 0 0 /\
  decode_RAIDOpCode (generate_RAIDOpCode (mkRequest 0 0 0 64 0 0)) <> mkRequest 0 0 0 64 0 0.
Proof.
  split; [unfold fits_layout; simpl; lia|].
  split; [reflexivity|]. vm_compute. discriminate.
Qed.

(** ** Running computations *)

Lemma bind_Some {S A A'} (m : M S A) (k : A -> M S A') (s : S) (r : A' * S) :
  bind m k s = Some r <-> exists a s', m s = Some (a, s') /\ k a s' = Some r.
Proof.
  unfold bind. split.
  - destruct (m s) as [[a s']|]; [eauto | discriminate].
  - by intros (a & s' & -> & Hk).
Qed.

Lemma bind_run {S A A'} (m : M S A) (k : A -> M S A') (s s' : S) (a : A) :
  m s = Some (a, s') -> bind m k s = k a s'.
Proof. unfold bind. by intros ->. Qed.

Lemma zoom_Some {S T A} (proj : S -> T) (inj : T -> S -> S) (m : M T A) (s : S) (r : A * S) :
  zoom proj inj m s = Some r <->
  exists a t, m (proj s) = Some (a, t) /\ r = (a, inj t s).
Proof.
  unfold zoom. split.
  - destruct (m (proj s)) as [[a t]|]; [|discriminate].
    intros [= <-]. eauto.
  - by intros (a & t & -> & ->).
Qed.

Section DriverFacts.
Context `{RaidBusHeader} {B : Type} `{RaidServer B}.
Import tagline_driver.

Local Abbreviation Machine := (Machine (B := B)).

(** The cache and the bus never touch the static variables of the driver. *)
Lemma in_cache_Some {A} (m : M raid_cache.World A) (s : Machine) (r : A * Machine) :
  in_cache m s = Some r <->
  exists a w, m (snd s) = Some (a, w) /\ r = (a, (fst s, w)).
Proof. unfold in_cache. apply zoom_Some. Qed.

Lemma get_max_start_allowed_run (s : Machine) (tag : Z) (i : nat) (t : TAGLINE) :
  directory_freed (fst s) = false ->
  find_tag tag (head_tag (fst s)) = Some i ->
  head_tag (fst s) !! i = Some t ->
  get_max_start_allowed tag s = Some (max_start_allowed t, s).
Proof.
  intros Hfreed Hfind Hi.
  unfold get_max_start_allowed, load_tags, driver_gets, bind, gets, deref, ret.
  by rewrite Hfreed, Hfind, Hi.
Qed.

(** A one-block write beyond the end of a tagline returns [0] and changes
    nothing. *)
Lemma tagline_write_block_hole (s : Machine) (tag bnum : Z) (buf : list byte)
    (i : nat) (t : TAGLINE) :
  directory_freed (fst s) = false ->
  find_tag tag (head_tag (fst s)) = Some i ->
  head_tag (fst s) !! i = Some t ->
  max_start_allowed t < bnum ->
  tagline_write_block tag bnum buf s = Some (0, s).
Proof.
  intros Hfreed Hfind Hi Hlt.
  unfold tagline_write_block.
  rewrite (bind_run _ _ _ _ _ (get_max_start_allowed_run s tag i t Hfreed Hfind Hi)).
  assert ((bnum =? max_start_allowed t) = false) as -> by lia.
  assert ((bnum <? max_start_allowed t) = false) as -> by lia.
  reflexivity.
Qed.

(** With [blks = 0] the [blks > 1] test fails just as it does with
    [blks = 1], and the one-block body runs. *)
Lemma tagline_write_zero_blocks (tag bnum : Z) (buf : list byte) (s : Machine) :
  tagline_write tag bnum 0 buf s = tagline_write_block tag bnum buf s /\
  tagline_write tag bnum 1 buf s = tagline_write_block tag bnum buf s.
Proof. split; reflexivity. Qed.

Lemma tagline_read_zero_blocks (tag bnum : Z) (buf : list byte) (s : Machine) :
  tagline_read tag bnum 0 buf s = tagline_read_block tag bnum buf s /\
  tagline_read tag bnum 1 buf s = tagline_read_block tag bnum buf s.
Proof. split; reflexivity. Qed.

End DriverFacts.

(** ** Inversion of runs *)

Lemma ret_Some {S A} (a : A) (s : S) (r : A * S) : ret a s = Some r <-> r = (a, s).
Proof. unfold ret. split; [by intros [= <-] | by intros ->]. Qed.

Lemma gets_Some {S A} (f : S -> A) (s : S) (r : A * S) : gets f s = Some r <-> r = (f s, s).
Proof. unfold gets. split; [by intros [= <-] | by intros ->]. Qed.

Lemma modify_Some {S} (f : S -> S) (s : S) (r : unit * S) :
  modify f s = Some r <-> r = (tt, f s).
Proof. unfold modify. split; [by intros [= <-] | by intros ->]. Qed.

Lemma deref_Some {S A} (o : option A) (s : S) (r : A * S) :
  deref o s = Some r <-> exists a, o = Some a /\ r = (a, s).
Proof.
  destruct o as [a|]; simpl; unfold ret, undefined; split.
  - intros [= <-]. by exists a.
  - by intros (a' & [= <-] & ->).
  - discriminate.
  - by intros (a' & [=] & _).
Qed.

(** [minv] takes apart the hypotheses that tell a computation has run. *)
Ltac minv_step :=
  match goal with
  | H : bind _ _ _ = Some _ |- _ =>
      apply bind_Some in H; destruct H as (? & ? & ? & H); cbv beta in H
  | H : ret _ _ = Some _ |- _ => apply ret_Some in H
  | H : gets _ _ = Some _ |- _ => apply gets_Some in H
  | H : modify _ _ = Some _ |- _ => apply modify_Some in H
  | H : deref _ _ = Some _ |- _ => apply deref_Some in H; destruct H as (? & ? & H)
  | H : undefined _ = Some _ |- _ => discriminate H
  | H : @None _ = Some _ |- _ => discriminate H
  | H : Some _ = Some _ |- _ => injection H as H
  | H : (_, _) = (_, _) |- _ => injection H as ? ?
  | H : (if ?b then _ else _) _ = Some _ |- _ => destruct b eqn:?
  | H : (match ?o with Some _ => _ | None => _ end) _ = Some _ |- _ => destruct o eqn:?
  | H : (match ?l with [] => _ | _ :: _ => _ end) _ = Some _ |- _ => destruct l eqn:?
  | H : (let (_, _) := ?p in _) _ = Some _ |- _ => destruct p eqn:?
  end.

Ltac minv := repeat (minv_step; simplify_eq; cbn in * ).

(** [zbool] turns the outcomes of the tests on integers into
    propositions. *)
Ltac zbool :=
  repeat match goal with
         | H : negb (_ =? _) = true |- _ => apply negb_true_iff, Z.eqb_neq in H
         | H : negb (_ =? _) = false |- _ => apply negb_false_iff, Z.eqb_eq in H
         | H : (_ =? _) = true |- _ => apply Z.eqb_eq in H
         | H : (_ =? _) = false |- _ => apply Z.eqb_neq in H
         | H : (_ <? _) = true |- _ => apply Z.ltb_lt in H
         | H : (_ <? _) = false |- _ => apply Z.ltb_ge in H
         | H : (_ >? _) = true |- _ => apply Z.gtb_gt in H
         | H : (_ >? _) = false |- _ => rewrite Z.gtb_ltb in H; apply Z.ltb_ge in H
         | H : (_ >=? _) = true |- _ => apply Z.geb_ge in H
         | H : (_ >=? _) = false |- _ => rewrite Z.geb_leb in H; apply Z.leb_gt in H
         | H : (_ <=? _) = true |- _ => apply Z.leb_le in H
         | H : (_ <=? _) = false |- _ => apply Z.leb_gt in H
         end.

(** ** The allocation cursor *)

Section Allocator.
Context `{RaidBusHeader} {B : Type} `{RaidServer B}.
Import tagline_driver directory.

Local Abbreviation Machine := (Machine (B := B)).

(** As long as [current_disk] is one of the nine disks, [RAID_scheduler]
    returns [0]: it hands out the cursor and moves it to the next disk,
    and past the last disk to the next block, starting again at block [0]
    after block [RAID_DISKBLOCKS]. *)
Lemma RAID_scheduler_run (slot : SCHEDULED_BLOCK -> Driver -> Driver) (pd : Z) (s : Machine) :
  0 <= current_disk (fst s) < RAID_DISKS ->
  0 <= current_block (fst s) <= RAID_DISKBLOCKS ->
  RAID_scheduler slot pd s =
    Some (0, (with_cursor (next_disk (current_disk (fst s)))
                (next_block (current_disk (fst s)) (current_block (fst s)))
                (slot (mkScheduled (current_disk (fst s)) (current_block (fst s))) (fst s)),
              snd s)).
Proof.
  intros Hd Hb. destruct s as [d w]. simpl in *.
  unfold RAID_scheduler, driver_gets, driver_modify, bind, gets, modify, ret,
    next_disk, next_block, RAID_DISKS, RAID_DISKBLOCKS, u8, u32 in *. simpl.
  repeat case_match; try lia; simpl; repeat f_equal;
    rewrite ?Z.mod_small by lia; lia.
Qed.

Lemma load_tags_Some (s : Machine) (r : list TAGLINE * Machine) :
  load_tags s = Some r <->
  directory_freed (fst s) = false /\ r = (head_tag (fst s), s).
Proof.
  unfold load_tags, driver_gets, bind, gets, undefined.
  destruct (directory_freed (fst s)); split.
  - discriminate.
  - by intros [[=] _].
  - by intros [= <-].
  - by intros [_ ->].
Qed.

Lemma get_max_start_allowed_Some (tag : Z) (s : Machine) (r : Z * Machine) :
  get_max_start_allowed tag s = Some r ->
  exists i t, directory_freed (fst s) = false /\
    find_tag tag (head_tag (fst s)) = Some i /\ head_tag (fst s) !! i = Some t /\
    r = (max_start_allowed t, s).
Proof.
  unfold get_max_start_allowed. intros Hrun.
  apply bind_Some in Hrun as (tags & s1 & (Hfreed & [= -> ->])%load_tags_Some & Hrun).
  apply bind_Some in Hrun as (i & s2 & (i' & Hi & [= -> ->])%deref_Some & Hrun).
  apply bind_Some in Hrun as (t & s3 & (t' & Ht & [= -> ->])%deref_Some & Hrun).
  apply ret_Some in Hrun. eauto 10.
Qed.

Lemma update_tag_Some (i : nat) (f : TAGLINE -> TAGLINE) (s : Machine) (r : unit * Machine) :
  update_tag i f s = Some r ->
  exists t, directory_freed (fst s) = false /\ head_tag (fst s) !! i = Some t /\
    r = (tt, (with_head_tag (<[i := f t]> (head_tag (fst s))) (fst s), snd s)).
Proof.
  unfold update_tag. intros Hrun.
  apply bind_Some in Hrun as (tags & s1 & (Hfreed & [= -> ->])%load_tags_Some & Hrun).
  apply bind_Some in Hrun as (t & s3 & (t' & Ht & [= -> ->])%deref_Some & Hrun).
  unfold driver_modify in Hrun. apply modify_Some in Hrun. eauto.
Qed.

Lemma bump_last_block_added_Some (dsk : Z) (s : Machine) (r : unit * Machine) :
  bump_last_block_added dsk s = Some r ->
  exists n, r = (tt, (with_last_block_added (<[Z.to_nat dsk := n]> (last_block_added (fst s))) (fst s), snd s)).
Proof.
  unfold bump_last_block_added, driver_gets, driver_modify. intros Hrun.
  apply bind_Some in Hrun as (counts & s1 & [= -> ->]%gets_Some & Hrun).
  destruct (dsk <? 0); [discriminate|].
  apply bind_Some in Hrun as (n & s2 & (n' & Hn & [= -> ->])%deref_Some & Hrun).
  apply modify_Some in Hrun. eauto.
Qed.

Lemma find_tag_Some (tag : Z) (l : list TAGLINE) (i : nat) :
  find_tag tag l = Some i ->
  exists t, l !! i = Some t /\ tagline t = tag /\
    forall j t', (j < i)%nat -> l !! j = Some t' -> tagline t' <> tag.
Proof.
  revert i. induction l as [|t l IH]; intros i; simpl; [discriminate|].
  destruct (tagline t =? tag) eqn:Heq.
  - intros [= <-]. exists t. split_and!; [done | lia | intros; lia].
  - destruct (find_tag tag l) as [i'|]; [|discriminate]. intros [= <-].
    destruct (IH i' eq_refl) as (t0 & Ht0 & Htag & Hfirst).
    exists t0. split_and!; [done..|].
    intros [|j] t' Hj; simpl; [intros [= <-]; lia|].
    apply Hfirst. lia.
Qed.

Lemma find_tag_first (tag : Z) (l : list TAGLINE) (i : nat) (t : TAGLINE) :
  l !! i = Some t -> tagline t = tag ->
  (forall j t', (j < i)%nat -> l !! j = Some t' -> tagline t' <> tag) ->
  find_tag tag l = Some i.
Proof.
  revert i. induction l as [|t0 l IH]; intros i; [done|].
  destruct i as [|i]; simpl.
  - intros [= ->] Htag _. assert ((tagline t =? tag) = true) as -> by lia. done.
  - intros Hi Htag Hfirst.
    assert ((tagline t0 =? tag) = false) as ->.
    { specialize (Hfirst 0%nat t0). simpl in Hfirst. apply Z.eqb_neq, Hfirst; [lia|done]. }
    rewrite (IH i); [done..|].
    intros j t' Hj Hl. apply (Hfirst (S j)); [lia|done].
Qed.

(** An update of a tagline that keeps its number does not move the
    taglines the search loops stop at. *)
Lemma find_tag_insert (tag : Z) (l : list TAGLINE) (i : nat) (t t' : TAGLINE) :
  l !! i = Some t -> tagline t' = tagline t ->
  find_tag tag (<[i := t']> l) = find_tag tag l.
Proof.
  revert i. induction l as [|t0 l IH]; intros i; [done|].
  destruct i as [|i]; simpl.
  - intros [= ->] ->. done.
  - intros Hi Htag. by rewrite (IH i).
Qed.

Lemma find_block_Some (bnum : Z) (l : list BLOCK) (j : nat) :
  find_block bnum l = Some j ->
  exists b, l !! j = Some b /\ block b = bnum.
Proof.
  revert j. induction l as [|b l IH]; intros j; simpl; [discriminate|].
  destruct (block b =? bnum) eqn:Heq.
  - intros [= <-]. exists b. split; [done | lia].
  - destruct (find_block bnum l) as [j'|]; [|discriminate]. intros [= <-].
    by apply IH.
Qed.

Lemma find_block_first (bnum : Z) (l : list BLOCK) (j : nat) (b : BLOCK) :
  l !! j = Some b -> block b = bnum ->
  (forall j' b', (j' < j)%nat -> l !! j' = Some b' -> block b' <> bnum) ->
  find_block bnum l = Some j.
Proof.
  revert j. induction l as [|b0 l IH]; intros j; [done|].
  destruct j as [|j]; simpl.
  - intros [= ->] Hb _. assert ((block b =? bnum) = true) as -> by lia. done.
  - intros Hj Hb Hfirst.
    assert ((block b0 =? bnum) = false) as ->.
    { specialize (Hfirst 0%nat b0). simpl in Hfirst. apply Z.eqb_neq, Hfirst; [lia|done]. }
    rewrite (IH j); [done..|].
    intros j' b' Hlt Hl. apply (Hfirst (S j')); [lia|done].
Qed.

End Allocator.

Section DirectoryInvariant.
Context `{RaidBusHeader} {B : Type} `{RaidServer B}.
Import tagline_driver directory.

Local Abbreviation Machine := (Machine (B := B)).

Lemma driver_gets_Some {A} (f : Driver -> A) (s : Machine) (r : A * Machine) :
  driver_gets f s = Some r <-> r = (f (fst s), s).
Proof. exact (gets_Some (fun m : Machine => f (fst m)) s r). Qed.

Lemma driver_modify_Some (f : Driver -> Driver) (s : Machine) (r : unit * Machine) :
  driver_modify f s = Some r <-> r = (tt, (f (fst s), snd s)).
Proof. exact (modify_Some (fun m : Machine => (f (fst m), snd m)) s r). Qed.

Lemma use_containers_Some (s : Machine) (r : unit * Machine) :
  use_containers s = Some r <-> containers_allocated (fst s) = true /\ r = (tt, s).
Proof.
  unfold use_containers, driver_gets, bind, gets, ret, undefined.
  destruct (containers_allocated (fst s)); split.
  - by intros [= <-].
  - by intros [_ ->].
  - discriminate.
  - by intros [[=] _].
Qed.

Lemma load_buf_read_Some (s : Machine) (r : list byte * Machine) :
  load_buf_read s = Some r <-> exists buf, buf_read (fst s) = Some buf /\ r = (buf, s).
Proof.
  unfold load_buf_read, driver_gets, bind, gets. apply deref_Some.
Qed.

Lemma bus_request_Some (op : Z) (buf : option (list byte)) (s : Machine)
    (r : (Z * option (list byte)) * Machine) :
  bus_request op buf s = Some r ->
  exists a w, raid_cache.bus_request op buf (snd s) = Some (a, w) /\ r = (a, (fst s, w)).
Proof. unfold bus_request. by intros ?%in_cache_Some. Qed.

Lemma RAID_scheduler_Some (slot : SCHEDULED_BLOCK -> Driver -> Driver) (pd : Z)
    (s : Machine) (r : Z * Machine) :
  RAID_scheduler slot pd s = Some r ->
  0 <= current_disk (fst s) < RAID_DISKS ->
  0 <= current_block (fst s) <= RAID_DISKBLOCKS ->
  r = (0, (with_cursor (next_disk (current_disk (fst s)))
             (next_block (current_disk (fst s)) (current_block (fst s)))
             (slot (mkScheduled (current_disk (fst s)) (current_block (fst s))) (fst s)),
           snd s)).
Proof. intros Hrun Hd Hb. rewrite RAID_scheduler_run in Hrun by done. by injection Hrun. Qed.

Lemma next_cursor_ok (cd cb : Z) :
  0 <= cd < RAID_DISKS -> 0 <= cb <= RAID_DISKBLOCKS ->
  0 <= next_disk cd < RAID_DISKS /\ 0 <= next_block cd cb <= RAID_DISKBLOCKS /\
  next_disk cd <> cd.
Proof.
  unfold next_disk, next_block, RAID_DISKS, RAID_DISKBLOCKS.
  intros ??. repeat case_match; lia.
Qed.

End DirectoryInvariant.

(** [dinv] takes apart the runs of the driver, stopping at the calls of the
    cache. *)
Ltac dinv_step :=
  match goal with
  | H : tagline_driver.driver_gets _ _ = Some _ |- _ => apply driver_gets_Some in H
  | H : tagline_driver.driver_modify _ _ = Some _ |- _ => apply driver_modify_Some in H
  | H : tagline_driver.in_cache _ _ = Some _ |- _ =>
      apply in_cache_Some in H; destruct H as (? & ? & ? & H)
  | H : tagline_driver.bus_request _ _ _ = Some _ |- _ =>
      apply bus_request_Some in H; destruct H as (? & ? & ? & H)
  | H : tagline_driver.load_tags _ = Some _ |- _ =>
      apply load_tags_Some in H; destruct H as (? & H)
  | H : tagline_driver.use_containers _ = Some _ |- _ =>
      apply use_containers_Some in H; destruct H as (? & H)
  | H : tagline_driver.load_buf_read _ = Some _ |- _ =>
      apply load_buf_read_Some in H; destruct H as (? & ? & H)
  | H : tagline_driver.update_tag _ _ _ = Some _ |- _ =>
      apply update_tag_Some in H; destruct H as (? & ? & ? & H)
  | H : tagline_driver.bump_last_block_added _ _ = Some _ |- _ =>
      apply bump_last_block_added_Some in H; destruct H as (? & H)
  | H : tagline_driver.RAID_scheduler _ _ _ = Some _ |- _ =>
      apply RAID_scheduler_Some in H; [|simpl; tauto..]
  | H : tagline_driver.get_max_start_allowed _ _ = Some _ |- _ =>
      apply get_max_start_allowed_Some in H; destruct H as (? & ? & ? & ? & ? & H)
  | _ => minv_step
  end.

Ltac dinv := repeat (dinv_step; simplify_eq; cbn in * ).

Section DirectoryInvariant2.
Context `{RaidBusHeader} {B : Type} `{RaidServer B}.
Import tagline_driver directory.

Local Abbreviation Machine := (Machine (B := B)).

Lemma alter_last {A} (f : A -> A) (l : list A) (x : A) :
  alter f (Nat.pred (length (l ++ [x]))) (l ++ [x]) = l ++ [f x].
Proof.
  rewrite length_app. simpl.
  replace (Nat.pred (length l + 1)) with (length l + 0)%nat by lia.
  by rewrite alter_app_r.
Qed.

(** What a one-block write does: nothing beyond the end of the tagline;
    two puts into the cache on a block of the tagline; and at the end of
    the tagline two allocations and two puts, the block being appended
    between them and its backup address recorded after the second. *)
Lemma tagline_write_block_cases (tag bnum : Z) (buf : list byte) (s s' : Machine) (r : Z) :
  driver_ok (fst s) ->
  tagline_write_block tag bnum buf s = Some (r, s') ->
  exists i t,
    find_tag tag (head_tag (fst s)) = Some i /\ head_tag (fst s) !! i = Some t /\
    ((max_start_allowed t < bnum /\ r = 0 /\ s' = s) \/
     (bnum < max_start_allowed t /\
      exists j b r1 w1,
        find_block bnum (block_0 t) = Some j /\ block_0 t !! j = Some b /\
        fst s' = fst s /\
        raid_cache.put_raid_cache (RAID_disk b) (RAID_block b) buf (snd s) = Some (r1, w1) /\
        ((r1 <> 0 /\ r = -1 /\ snd s' = w1) \/
         (r1 = 0 /\
          exists bd bb r2,
            backup_disk b = Some bd /\ backup_block b = Some bb /\
            raid_cache.put_raid_cache bd bb buf w1 = Some (r2, snd s') /\
            r = (if r2 =? 0 then 0 else -1)))) \/
     (bnum = max_start_allowed t /\
      let cd := current_disk (fst s) in
      let cb := current_block (fst s) in
      let cd1 := next_disk cd in
      let cb1 := next_block cd cb in
      exists r1 w1,
        raid_cache.put_raid_cache cd cb buf (snd s) = Some (r1, w1) /\
        ((r1 <> 0 /\ r = -1 /\ snd s' = w1 /\
          moved (fst s) (fst s') (head_tag (fst s)) cd1 cb1) \/
         (r1 = 0 /\
          exists r2,
            raid_cache.put_raid_cache cd1 cb1 buf w1 = Some (r2, snd s') /\
            ((r2 <> 0 /\ r = -1 /\
              moved (fst s) (fst s')
                (<[i := appended t (mkBlock bnum cd cb None None)]> (head_tag (fst s)))
                (next_disk cd1) (next_block cd1 cb1)) \/
             (r2 = 0 /\ r = 0 /\
              moved (fst s) (fst s')
                (<[i := appended t (mkBlock bnum cd cb (Some cd1) (Some cb1))]> (head_tag (fst s)))
                (next_disk cd1) (next_block cd1 cb1))))))).
Proof.
  intros Hok Hrun. unfold tagline_write_block in Hrun.
  apply bind_Some in Hrun as (m & s0 & Hmax & Hrun).
  apply get_max_start_allowed_Some in Hmax as (i & t & Hfreed & Hfind & Hi & [= -> ->]).
  exists i, t. split_and!; [done..|].
  apply bind_Some in Hrun as (r1 & s1 & Hnew & Hrun).
  destruct Hok as (Hfr & Hcd & Hcb & Hlba & Hinuse & Hlen & Htags).
  pose proof (next_cursor_ok _ _ Hcd Hcb) as (Hcd' & Hcb' & Hne).
  pose proof (lookup_lt_Some _ _ _ Hi) as Hilt.
  destruct (bnum =? max_start_allowed t) eqn:Hbnum.
  - right; right. split; [lia|]. cbv zeta.
    assert ((bnum <? max_start_allowed t) = false) as Hlt by lia.
    rewrite Hlt in Hrun. clear Hlt.
    assert (r = (if r1 =? 0 then 0 else -1) /\ s' = s1) as [-> ->].
    { destruct (r1 =? 0); simpl in Hrun; by minv. }
    clear Hrun.
    dinv; zbool.
    + eexists _, _. split; [done|]. left. split_and!; [lia|done..|].
      by repeat split.
    + rewrite !list_lookup_insert_eq in * by (rewrite ?length_insert; done).
      simplify_eq/=.
      eexists _, _. split; [done|]. right. split; [lia|].
      eexists. split; [done|]. left. split_and!; [lia|done|].
      repeat split; simpl; rewrite ?list_insert_insert_eq, ?length_insert; try done.
    + rewrite !list_lookup_insert_eq in * by (rewrite ?length_insert; done).
      simplify_eq/=.
      rewrite !list_insert_insert_eq in *.
      rewrite (find_tag_insert _ _ _ t) in * by done.
      simplify_eq/=.
      rewrite !list_lookup_insert_eq in * by (rewrite ?length_insert; done).
      simplify_eq/=.
      rewrite !list_insert_insert_eq in *.
      rewrite alter_last.
      eexists _, _. split; [done|]. right. split; [lia|].
      eexists. split; [done|]. right. split_and!; [lia|done|].
      repeat split; simpl; rewrite ?length_insert; done.
  - assert (r1 = 0 /\ s1 = s) as [-> ->] by (by minv). simpl in Hrun. clear Hnew.
    destruct (bnum <? max_start_allowed t) eqn:Hlt.
    + right; left. split; [lia|]. dinv; zbool.
      * eexists _, _, _, _. split_and!; [done..|]. left. split_and!; [lia|done..].
      * eexists _, _, _, _. split_and!; [done..|]. right. split; [lia|].
        eexists _, _, _. split_and!; [done..|].
        case_match; [lia|done].
      * eexists _, _, _, _. split_and!; [done..|]. right. split; [lia|].
        eexists _, _, _. split_and!; [done..|]. by subst.
    + left. apply ret_Some in Hrun as [= -> ->]. split_and!; [lia|done..].
Qed.

Lemma moved_ok (d d' : Driver) (tags : list TAGLINE) (cd cb : Z) :
  driver_ok d -> moved d d' tags cd cb ->
  0 <= cd < RAID_DISKS -> 0 <= cb <= RAID_DISKBLOCKS ->
  length tags = length (head_tag d) ->
  (forall i t, tags !! i = Some t -> tag_ok i t) ->
  driver_ok d'.
Proof.
  intros (Hfr & _ & _ & Hlba & Hinuse & Hlen & _) (Htags & Hcd & Hcb & Hfr' & Hinuse' & Hlba').
  intros ?? Hlen' Hok. unfold driver_ok.
  rewrite Htags, Hcd, Hcb, Hfr', Hinuse', Hlba', Hlen'. done.
Qed.

Lemma u32_succ (n : Z) : u32 (u32 n + 1) = u32 (n + 1).
Proof. unfold u32. by rewrite Zplus_mod_idemp_l. Qed.

Lemma appended_ok (i : nat) (t : TAGLINE) (b : BLOCK) :
  tag_ok i t -> block_ok (length (block_0 t)) b -> tag_ok i (appended t b).
Proof.
  intros (Htag & Hmax & Hblocks) Hb. unfold tag_ok, appended. simpl.
  split_and!; [done|..].
  - rewrite Hmax, u32_succ, length_app. simpl. f_equal. lia.
  - intros j b' Hj. apply lookup_app_Some in Hj as [Hj|[Hlen Hj]]; [by apply Hblocks|].
    apply list_lookup_singleton_Some in Hj as [Hj ->].
    by replace j with (length (block_0 t)) by lia.
Qed.

Lemma insert_tags_ok (tags : list TAGLINE) (i : nat) (t : TAGLINE) :
  (forall i t, tags !! i = Some t -> tag_ok i t) ->
  tag_ok i t ->
  forall j t', <[i := t]> tags !! j = Some t' -> tag_ok j t'.
Proof.
  intros Hall Ht j t' Hj.
  destruct (decide (i = j)) as [->|Hne].
  - destruct (decide (j < length tags)%nat).
    + rewrite list_lookup_insert_eq in Hj by done. by simplify_eq.
    + rewrite list_insert_ge in Hj by lia. by apply Hall.
  - rewrite list_lookup_insert_ne in Hj by done. by apply Hall.
Qed.

Lemma tagline_write_block_ok (tag bnum : Z) (buf : list byte) (s s' : Machine) (r : Z) :
  driver_ok (fst s) ->
  tagline_write_block tag bnum buf s = Some (r, s') ->
  driver_ok (fst s').
Proof.
  intros Hok Hrun.
  destruct (tagline_write_block_cases _ _ _ _ _ _ Hok Hrun)
    as (i & t & Hfind & Hi & [(_ & _ & ->)|[(_ & j & b & r1 & w1 & _ & _ & Heq & _)|Hnew]]).
  - done.
  - by rewrite Heq.
  - destruct Hnew as (Hbnum & Hnew). cbv zeta in Hnew.
    pose proof Hok as (_ & Hcd & Hcb & _ & _ & _ & Htags).
    pose proof (next_cursor_ok _ _ Hcd Hcb) as (Hcd1 & Hcb1 & Hne).
    pose proof (next_cursor_ok _ _ Hcd1 Hcb1) as (Hcd2 & Hcb2 & _).
    pose proof (Htags i t Hi) as Ht.
    assert (block_ok (length (block_0 t))
              (mkBlock bnum (current_disk s.1) (current_block s.1) None None)) as Hb0.
    { destruct Ht as (_ & Hmax & _). unfold block_ok, scheduled. simpl.
      repeat split; try tauto; congruence. }
    assert (block_ok (length (block_0 t))
              (mkBlock bnum (current_disk s.1) (current_block s.1)
                 (Some (next_disk (current_disk s.1)))
                 (Some (next_block (current_disk s.1) (current_block s.1))))) as Hb1.
    { destruct Ht as (_ & Hmax & _). unfold block_ok, scheduled. simpl.
      repeat split; try tauto; congruence. }
    destruct Hnew as (r1 & w1 & _ & [(_ & _ & _ & Hmoved)|(_ & r2 & _ & [(_ & _ & Hmoved)|(_ & _ & Hmoved)])]).
    + by eapply moved_ok.
    + eapply moved_ok; [done..|by rewrite length_insert|].
      apply insert_tags_ok; [done|]. by apply appended_ok.
    + eapply moved_ok; [done..|by rewrite length_insert|].
      apply insert_tags_ok; [done|]. by apply appended_ok.
Qed.

(** A property of the state that every round of a loop keeps holds when
    the loop is left. *)
Lemma for_loop_invariant {S} (P : S -> Prop) (body : Z -> M S Z) (n : nat) (i : Z)
    (s s' : S) (r : Z) :
  (forall i s r s', P s -> body i s = Some (r, s') -> P s') ->
  P s -> for_loop n i body s = Some (r, s') -> P s'.
Proof.
  intros Hbody. revert i s. induction n as [|n IH]; intros i s HP Hrun; simpl in Hrun.
  - by apply ret_Some in Hrun as [= -> ->].
  - apply bind_Some in Hrun as (r1 & s1 & Hb & Hrun).
    pose proof (Hbody _ _ _ _ HP Hb) as HP1.
    destruct (negb (r1 =? 0)).
    + by apply ret_Some in Hrun as [= -> ->].
    + exact (IH _ _ HP1 Hrun).
Qed.

Lemma tagline_write_ok (tag bnum blks : Z) (buf : list byte) (s s' : Machine) (r : Z) :
  driver_ok (fst s) ->
  tagline_write tag bnum blks buf s = Some (r, s') ->
  driver_ok (fst s').
Proof.
  intros Hok Hrun. unfold tagline_write in Hrun.
  destruct (blks >? 1).
  - revert Hok Hrun. apply (for_loop_invariant (fun s => driver_ok (fst s))).
    intros i s1 r1 s1' Hok1 Hrun1. by eapply tagline_write_block_ok.
  - by eapply tagline_write_block_ok.
Qed.

(** *** Reads and disk signals leave the directory and the cursor alone *)

Lemma same_directory_refl (d : Driver) : same_directory d d.
Proof. by repeat split. Qed.

Lemma same_directory_trans (d1 d2 d3 : Driver) :
  same_directory d1 d2 -> same_directory d2 d3 -> same_directory d1 d3.
Proof.
  unfold same_directory, moved. intros (?&?&?&?&?&?) (?&?&?&?&?&?).
  split_and!; congruence.
Qed.

Lemma same_directory_ok (d d' : Driver) : same_directory d d' -> driver_ok d -> driver_ok d'.
Proof.
  intros Hsame Hok. pose proof Hok as (_ & ? & ? & _ & _ & _ & ?).
  by eapply moved_ok.
Qed.

Lemma tagline_read_block_directory (tag bnum : Z) (buf : list byte) (s s' : Machine)
    (r : Z * list byte) :
  tagline_read_block tag bnum buf s = Some (r, s') -> fst s' = fst s.
Proof.
  unfold tagline_read_block. intros Hrun. by dinv.
Qed.

Lemma tagline_read_blocks_directory (n : nat) (blk tag bnum : Z) (buf : list byte)
    (s s' : Machine) (r : Z * list byte) :
  tagline_read_blocks n blk tag bnum buf s = Some (r, s') -> fst s' = fst s.
Proof.
  revert blk buf s. induction n as [|n IH]; intros blk buf s Hrun; simpl in Hrun.
  - by apply ret_Some in Hrun as [= _ ->].
  - apply bind_Some in Hrun as (r1 & s1 & Hb & Hrun).
    apply tagline_read_block_directory in Hb.
    destruct (negb (r1.1 =? 0)).
    + apply ret_Some in Hrun as [= _ ->]. done.
    + apply IH in Hrun. congruence.
Qed.

Lemma tagline_read_directory (tag bnum blks : Z) (buf : list byte) (s s' : Machine)
    (r : Z * list byte) :
  tagline_read tag bnum blks buf s = Some (r, s') -> fst s' = fst s.
Proof.
  unfold tagline_read. destruct (blks >? 1).
  - apply tagline_read_blocks_directory.
  - apply tagline_read_block_directory.
Qed.

Lemma recover_block_directory (dsk : Z) (b : BLOCK) (s s' : Machine) (r : Z) :
  recover_block dsk b s = Some (r, s') -> same_directory (fst s) (fst s').
Proof.
  unfold recover_block. intros Hrun. dinv; by repeat split.
Qed.

Lemma recover_blocks_directory (dsk : Z) (l : list BLOCK) (s s' : Machine) (r : Z) :
  recover_blocks dsk l s = Some (r, s') -> same_directory (fst s) (fst s').
Proof.
  revert s. induction l as [|b l IH]; intros s Hrun; simpl in Hrun.
  - apply ret_Some in Hrun as [= _ ->]. apply same_directory_refl.
  - apply bind_Some in Hrun as (r1 & s1 & Hb & Hrun).
    apply recover_block_directory in Hb.
    destruct (negb (r1 =? 0)).
    + by apply ret_Some in Hrun as [= _ ->].
    + eapply same_directory_trans; [done|]. by apply IH.
Qed.

Lemma recover_tags_directory (dsk : Z) (l : list TAGLINE) (s s' : Machine) (r : Z) :
  recover_tags dsk l s = Some (r, s') -> same_directory (fst s) (fst s').
Proof.
  revert s. induction l as [|t l IH]; intros s Hrun; simpl in Hrun.
  - apply ret_Some in Hrun as [= _ ->]. apply same_directory_refl.
  - apply bind_Some in Hrun as (r1 & s1 & Hb & Hrun).
    apply recover_blocks_directory in Hb.
    destruct (negb (r1 =? 0)).
    + by apply ret_Some in Hrun as [= _ ->].
    + eapply same_directory_trans; [done|]. by apply IH.
Qed.

Lemma signal_disk_directory (dsk : Z) (s s' : Machine) (r : Z) :
  signal_disk dsk s = Some (r, s') -> same_directory (fst s) (fst s').
Proof.
  unfold signal_disk. intros Hrun. dinv.
  all: repeat match goal with
       | Hr : recover_tags _ _ _ = Some _ |- _ =>
           apply recover_tags_directory in Hr; cbn in Hr
       | Hr : recover_blocks _ _ _ = Some _ |- _ =>
           apply recover_blocks_directory in Hr; cbn in Hr
       end; eauto using same_directory_trans, same_directory_refl.
Qed.

Lemma raid_disk_signal_directory (s s' : Machine) (r : Z) :
  raid_disk_signal s = Some (r, s') -> same_directory (fst s) (fst s').
Proof.
  unfold raid_disk_signal. intros Hrun.
  apply bind_Some in Hrun as (u & s1 & [= -> ->]%driver_modify_Some & Hrun).
  apply bind_Some in Hrun as (u' & s2 & [_ [= -> ->]]%use_containers_Some & Hrun).
  revert Hrun.
  apply (for_loop_invariant (fun s1 : Machine => same_directory (fst s) (fst s1))).
  - intros i s1 r1 s1' Hsame Hrun. eapply same_directory_trans; [done|].
    by eapply signal_disk_directory.
  - by repeat split.
Qed.

(** *** Initialisation *)

Lemma add_new_tag_Some (s s' : Machine) (r : Z) :
  add_new_tag s = Some (r, s') ->
  r = 0 /\ directory_freed (fst s) = false /\ snd s' = snd s /\
  fst s' =
    with_taglines_in_use (u32 (taglines_in_use (fst s) + 1))
      (with_head_tag
         (head_tag (fst s) ++ [mkTagline (u16 (Z.of_nat (length (head_tag (fst s))))) 0 0 []])
         (fst s)).
Proof.
  unfold add_new_tag. intros Hrun.
  apply bind_Some in Hrun as (tags & s1 & (Hfreed & [= -> ->])%load_tags_Some & Hrun).
  destruct (head_tag s.1) as [|t tags] eqn:Htags; dinv; split_and!; try done.
  repeat f_equal. lia.
Qed.

Lemma add_new_tags_ok (n : nat) (i : Z) (s s' : Machine) (r : Z) :
  for_loop n i (fun _ => add_new_tag) s = Some (r, s') ->
  driver_ok (fst s) ->
  Z.of_nat (length (head_tag (fst s))) + Z.of_nat n < 2 ^ 32 ->
  driver_ok (fst s').
Proof.
  revert i s. induction n as [|n IH]; intros i s Hrun Hok Hlen; cbn in Hrun.
  - by apply ret_Some in Hrun as [= _ ->].
  - apply bind_Some in Hrun as (r1 & s1 & Hadd & Hrun).
    apply add_new_tag_Some in Hadd as (-> & Hfreed & _ & Hs1).
    cbn in Hrun. eapply IH; [exact Hrun|..].
    + rewrite Hs1. destruct Hok as (Hfr & Hcd & Hcb & Hlba & Hinuse & Hlt & Htags).
      unfold driver_ok. cbn. rewrite length_app. cbn.
      split_and!; try done; try lia.
      * rewrite Hinuse. unfold u32. rewrite Z.mod_small; lia.
      * intros j t Hj. apply lookup_app_Some in Hj as [Hj|[Hge Hj]]; [by apply Htags|].
        apply list_lookup_singleton_Some in Hj as [Hj <-].
        replace j with (length (head_tag s.1)) by lia.
        split_and!; [done..|]. intros j0 b0 Hb0. cbn in Hb0. by rewrite lookup_nil in Hb0.
    + rewrite Hs1. cbn. rewrite length_app. cbn. lia.
Qed.

Lemma tagline_driver_init_ok (maxlines : Z) (w : raid_cache.World (B := B)) (s : Machine) (r : Z) :
  tagline_driver_init maxlines (startup, w) = Some (r, s) ->
  driver_ok (fst s).
Proof.
  unfold tagline_driver_init. intros Hrun.
  assert (driver_ok (with_buf_read (Some malloc_block) (with_containers_allocated true startup))) as Hok0.
  { unfold driver_ok, RAID_DISKS, RAID_DISKBLOCKS. cbn.
    split_and!; try done; try lia. }
  assert (forall (n : nat) (i : Z) (w1 : raid_cache.World (B := B)) (r1 : Z) (s1 : Machine),
    for_loop n i
      (fun dsk =>
         bind (bus_request
                 (generate_RAIDOpCode
                    (mkRequest (u8 RAID_FORMAT) 0 dsk 0 0 0)) None)
           (fun answer =>
              if negb (check_response (mkRequest (u8 RAID_FORMAT) 0 dsk 0 0 0)
                         (decode_RAIDOpCode answer.1) =? 0)
              then ret (-1) else ret 0))
      (with_buf_read (Some malloc_block) (with_containers_allocated true startup), w1) = Some (r1, s1) ->
    fst s1 = with_buf_read (Some malloc_block) (with_containers_allocated true startup)) as Hformat.
  { intros n i w1 r1 s1.
    apply (for_loop_invariant (fun s1 : Machine =>
      fst s1 = with_buf_read (Some malloc_block) (with_containers_allocated true startup))); [|done].
    intros i' s2 r2 s2' Hfst Hb. dinv; done. }
  dinv; try done.
  - match goal with
    | Hf : for_loop _ _ _ _ = Some _ |- _ => apply Hformat in Hf; by rewrite Hf
    end.
  - match goal with
    | Hf : for_loop _ _ _ (_, _) = Some (_, ?s1), Hg : for_loop _ _ _ ?s1 = Some _ |- _ =>
        apply Hformat in Hf; eapply add_new_tags_ok; [exact Hg|..]; rewrite Hf
    end.
    + done.
    + cbn. unfold u32. pose proof (Z.mod_pos_bound maxlines (2 ^ 32)). lia.
Qed.

(** Every state the driver goes through keeps the directory and the
    cursor in order. *)
Lemma reachable_ok (s : Machine) : lifecycle.reachable s -> driver_ok (fst s).
Proof.
  induction 1 as [b n s Hinit|s tag bnum blks buf r s' _ IH Hrun
                 |s tag bnum blks buf r s' _ IH Hrun|s r s' _ IH Hrun|s b _ IH].
  - by eapply tagline_driver_init_ok.
  - by eapply tagline_write_ok.
  - apply tagline_read_directory in Hrun. by rewrite Hrun.
  - apply raid_disk_signal_directory in Hrun. by eapply same_directory_ok.
  - done.
Qed.

End DirectoryInvariant2.

(** ** Claims about the directory and the allocator *)

Section DirectoryClaims.
Context `{RaidBusHeader} {B : Type} `{RaidServer B}.
Import tagline_driver directory lifecycle.

Local Abbreviation Machine := (Machine (B := B)).

Lemma recorded_placements_lookup (d : Driver) (k : nat) (p m : Z * Z) :
  recorded_placements d !! k = Some (p, m) ->
  exists i t j b, head_tag d !! i = Some t /\ block_0 t !! j = Some b /\
    placement b = Some (p, m).
Proof.
  unfold recorded_placements. intros Hk.
  apply list_elem_of_lookup_2, list_elem_of_omap in Hk as (b & Hb & Hp).
  apply list_elem_of_join in Hb as (l & Hb & Hl).
  apply list_elem_of_fmap in Hl as (t & -> & Ht).
  apply list_elem_of_lookup in Ht as (i & Hi).
  apply list_elem_of_lookup in Hb as (j & Hj).
  eauto 10.
Qed.

(** C4: in every state the driver goes through, every placement the
    directory has recorded has its primary and its backup address on
    different disks. *)
Theorem mirror_disjointness (s : Machine) (k : nat) (p m : Z * Z) :
  reachable s ->
  recorded_placements (fst s) !! k = Some (p, m) ->
  fst p <> fst m.
Proof.
  intros Hreach Hk.
  apply reachable_ok in Hreach as (_ & _ & _ & _ & _ & _ & Htags).
  apply recorded_placements_lookup in Hk as (i & t & j & b & Hi & Hj & Hp).
  destruct (Htags i t Hi) as (_ & _ & Hblocks).
  destruct (Hblocks j b Hj) as (_ & _ & Hbackup).
  unfold placement in Hp.
  destruct (backup_disk b) as [bd|], (backup_block b) as [bb|]; simplify_eq.
  cbn. destruct Hbackup as [_ Hne]. congruence.
Qed.


End DirectoryClaims.

Section Scenarios.
Import tagline_driver directory lifecycle scenario.

Lemma initialised_run : tagline_driver_init 1 boot = Some (0, initialised).
Proof. vm_compute. reflexivity. Qed.

Lemma first_write_run : tagline_write 0 0 1 block_A initialised = Some (0, first_write).
Proof. vm_compute. reflexivity. Qed.

Lemma first_write_reachable : reachable first_write.
Proof.
  eapply reach_write; [eapply reach_init; exact initialised_run | exact first_write_run].
Qed.

(** Scenario 1 of §8: the first write lands on (0,0) and (1,0). *)
Lemma mirror_disjointness_witness :
  reachable first_write /\
  recorded_placements (fst first_write) !! 0%nat = Some ((0, 0), (1, 0)) /\
  fst (0, 0) <> fst (1, 0).
Proof.
  split; [exact first_write_reachable|].
  split; [vm_compute; reflexivity|].
  apply (mirror_disjointness first_write 0%nat (0, 0) (1, 0) first_write_reachable).
  vm_compute. reflexivity.
Defined.

(** C5 (the code departs from the claim): after [init(1)], the write of
    block 1 of the empty tagline 0 returns [0], the success value, and
    leaves the state as it was: nothing is allocated and no failure is
    reported. *)
Theorem hole_write_returns_success :
  tagline_write 0 1 1 block_A initialised = Some (0, initialised).
Proof. vm_compute. reflexivity. Qed.

(** With [blks = 0] a write is not a no-op: it allocates the block as the
    one-block write of Scenario 1 does. *)
Lemma zero_block_write_allocates :
  tagline_write 0 0 0 block_A initialised = Some (0, first_write).
Proof. vm_compute. reflexivity. Qed.

End Scenarios.

Section Exhaustion.
Context `{RaidBusHeader} {B : Type} `{RaidServer B}.
Import tagline_driver directory lifecycle scenario.

Local Abbreviation Machine := (Machine (B := B)).

(** A write of a new block that returns [0] has made two allocations. *)
Lemma new_block_write_moves_cursor (tag bnum : Z) (buf : list byte) (s s' : Machine) :
  driver_ok (fst s) ->
  get_max_start_allowed tag s = Some (bnum, s) ->
  tagline_write tag bnum 1 buf s = Some (0, s') ->
  (current_disk (fst s'), current_block (fst s'))
  = cursor_step (cursor_step (current_disk (fst s), current_block (fst s))).
Proof.
  intros Hok Hmax Hrun.
  apply get_max_start_allowed_Some in Hmax as (i & t & _ & Hfind & Hi & [= Hmax]).
  destruct (tagline_write_block_cases _ _ _ _ _ _ Hok Hrun)
    as (i' & t' & Hfind' & Hi' & Hcases).
  simplify_eq. destruct Hcases as [(? & _)|[(? & _)|(_ & Hnew)]]; [lia..|].
  cbv zeta in Hnew.
  destruct Hnew as (r1 & w1 & _ & [(_ & [=] & _)|(_ & r2 & _ & [(_ & [=] & _)|(_ & _ & Hmoved)])]).
  destruct Hmoved as (_ & -> & -> & _). done.
Qed.

(** C6 (the code departs from the claim): after the allocation of all
    [RAID_DISKS * RAID_DISKBLOCKS] blocks of the array the cursor stands at
    disk 0, block [RAID_DISKBLOCKS], and [RAID_scheduler] called there does
    not fail: it returns [0] and schedules block 4096 of disk 0, which the
    disk does not have. *)
Theorem exhausted_array_still_allocates (slot : SCHEDULED_BLOCK -> Driver -> Driver)
    (primary_disk : Z) (d : Driver) (w : raid_cache.World (B := B)) :
  cursor_after (Z.to_nat (RAID_DISKS * RAID_DISKBLOCKS)) = (0, RAID_DISKBLOCKS) /\
  RAID_scheduler slot primary_disk (with_cursor 0 RAID_DISKBLOCKS d, w)
  = Some (0, (with_cursor 1 RAID_DISKBLOCKS
                (slot (mkScheduled 0 RAID_DISKBLOCKS) (with_cursor 0 RAID_DISKBLOCKS d)), w)).
Proof.
  split; [by vm_compute|].
  rewrite RAID_scheduler_run; [done|cbn; unfold RAID_DISKS, RAID_DISKBLOCKS; lia..].
Qed.

End Exhaustion.

(** ** Runs of the cache *)

Section CacheRuns.
Context `{RaidBusHeader} {B : Type} `{RaidServer B}.
Import raid_cache.

Local Abbreviation World := (World (B := B)).

Lemma cache_gets_Some {A} (f : Cache -> A) (w : World) (r : A * World) :
  cache_gets f w = Some r <-> r = (f (fst w), w).
Proof. exact (gets_Some (fun w : World => f (fst w)) w r). Qed.

Lemma cache_modify_Some (f : Cache -> Cache) (w : World) (r : unit * World) :
  cache_modify f w = Some r <-> r = (tt, (f (fst w), snd w)).
Proof. exact (modify_Some (fun w : World => (f (fst w), snd w)) w r). Qed.

Lemma cache_bus_request_Some (op : Z) (buf : option (list byte)) (w : World)
    (r : (Z * option (list byte)) * World) :
  bus_request op buf w = Some r <->
  exists a b, raid_client.client_raid_bus_request op buf (snd w) = Some (a, b) /\
    r = (a, (fst w, b)).
Proof. unfold bus_request. apply zoom_Some. Qed.

Lemma load_Some (p : option Z) (w : World) (r : QUEUE_NODE * World) :
  load p w = Some r <->
  exists a, p = Some a /\ queue_nodes (fst w) !! a = Some (fst r) /\ snd r = w.
Proof.
  unfold load. destruct r as [n w']. split.
  - intros Hrun.
    apply bind_Some in Hrun as (a & w1 & (a' & -> & [= -> ->])%deref_Some & Hrun).
    apply bind_Some in Hrun as (heap & w2 & [= -> ->]%cache_gets_Some & Hrun).
    apply deref_Some in Hrun as (n' & Hn & [= -> ->]). eauto.
  - intros (a & -> & Hn & Hw). cbn in *. subst.
    unfold bind, deref, cache_gets, gets, ret. by rewrite Hn.
Qed.

Lemma store_Some (p : option Z) (f : QUEUE_NODE -> QUEUE_NODE) (w : World)
    (r : unit * World) :
  store p f w = Some r <->
  exists a n, p = Some a /\ queue_nodes (fst w) !! a = Some n /\
    r = (tt, (with_nodes (<[a := f n]> (queue_nodes (fst w))) (fst w), snd w)).
Proof.
  unfold store. split.
  - intros Hrun.
    apply bind_Some in Hrun as (a & w1 & (a' & -> & [= -> ->])%deref_Some & Hrun).
    apply bind_Some in Hrun as (n & w2 & (a & [= ->] & Hn & Hw)%load_Some & Hrun).
    cbn in *. subst. apply cache_modify_Some in Hrun. eauto.
  - intros (a & n & -> & Hn & ->).
    unfold bind, deref, load, bind, deref, cache_gets, cache_modify, gets, modify, ret.
    by rewrite Hn.
Qed.

Lemma new_queue_node_Some (n : QUEUE_NODE) (w : World) (r : option Z * World) :
  new_queue_node n w = Some r <->
  r = (Some (next_address (fst w)),
       (with_next_address (next_address (fst w) + 1)
          (with_nodes (<[next_address (fst w) := n]> (queue_nodes (fst w))) (fst w)),
        snd w)).
Proof.
  unfold new_queue_node, bind, cache_gets, cache_modify, gets, modify, ret.
  split; [by intros [= <-] | by intros ->].
Qed.

Lemma free_queue_node_Some (p : option Z) (w : World) (r : unit * World) :
  free_queue_node p w = Some r <->
  exists a n, p = Some a /\ queue_nodes (fst w) !! a = Some n /\
    r = (tt, (with_nodes (delete a (queue_nodes (fst w))) (fst w), snd w)).
Proof.
  unfold free_queue_node. split.
  - intros Hrun.
    apply bind_Some in Hrun as (a & w1 & (a' & -> & [= -> ->])%deref_Some & Hrun).
    apply bind_Some in Hrun as (n & w2 & (a & [= ->] & Hn & Hw)%load_Some & Hrun).
    cbn in *. subst. apply cache_modify_Some in Hrun. eauto.
  - intros (a & n & -> & Hn & ->).
    unfold bind, deref, load, bind, deref, cache_gets, cache_modify, gets, modify, ret.
    by rewrite Hn.
Qed.

Lemma load_chain_Some (hash_value : Z) (w : World) (r : list HASH_NODE * World) :
  load_chain hash_value w = Some r <->
  bucket_ok (fst w) hash_value /\ r = (chain (fst w) hash_value, w).
Proof.
  unfold load_chain, bucket_ok, bind, cache_gets, gets, undefined. split.
  - destruct (bool_decide (hash_value ∈ dangling w.1)) eqn:Hd; cbn; [discriminate|].
    apply bool_decide_eq_false in Hd.
    destruct (hash_value <? 0) eqn:Hlo; cbn; [discriminate|].
    destruct (HASHTABLE_SIZE <=? hash_value) eqn:Hhi; cbn; [discriminate|].
    intros [= <-]. repeat split; [done|lia..].
  - intros [[Hd Hr] ->].
    rewrite bool_decide_eq_false_2 by done.
    assert ((hash_value <? 0) = false) as -> by lia.
    assert ((HASHTABLE_SIZE <=? hash_value) = false) as -> by lia.
    done.
Qed.

Lemma load_hash_Some (p : option (Z * nat)) (w : World) (r : HASH_NODE * World) :
  load_hash p w = Some r <->
  exists a, p = Some a /\ bucket_ok (fst w) (fst a) /\
    chain (fst w) (fst a) !! snd a = Some (fst r) /\ snd r = w.
Proof.
  unfold load_hash. destruct r as [n w']. split.
  - intros Hrun.
    apply bind_Some in Hrun as (a & w1 & (a' & -> & [= -> ->])%deref_Some & Hrun).
    apply bind_Some in Hrun as (l & w2 & (Hok & [= -> ->])%load_chain_Some & Hrun).
    apply deref_Some in Hrun as (n' & Hn & [= -> ->]). eauto.
  - intros (a & -> & Hok & Hn & Hw). cbn in *. subst.
    unfold bind at 1. cbn.
    assert (load_chain a.1 w = Some (chain w.1 a.1, w)) as Hl by (by apply load_chain_Some).
    unfold bind. rewrite Hl, Hn. done.
Qed.

Lemma store_hash_Some (p : option (Z * nat)) (f : HASH_NODE -> HASH_NODE) (w : World)
    (r : unit * World) :
  store_hash p f w = Some r <->
  exists a n, p = Some a /\ bucket_ok (fst w) (fst a) /\
    chain (fst w) (fst a) !! snd a = Some n /\
    r = (tt, (with_hashtable
                (<[fst a := <[snd a := f n]> (chain (fst w) (fst a))]> (hashtable (fst w)))
                (fst w), snd w)).
Proof.
  unfold store_hash. split.
  - intros Hrun.
    apply bind_Some in Hrun as (a & w1 & (a' & -> & [= -> ->])%deref_Some & Hrun).
    apply bind_Some in Hrun as (n & w2 & (a & [= ->] & Hok & Hn & Hw)%load_hash_Some & Hrun).
    cbn in *. subst. apply cache_modify_Some in Hrun. eauto 10.
  - intros (a & n & -> & Hok & Hn & ->).
    assert (load_hash (Some a) w = Some (n, w)) as Hl by (apply load_hash_Some; eauto).
    unfold bind at 1. cbn. unfold bind. rewrite Hl. done.
Qed.

Lemma new_hash_node_Some (hash_value : Z) (n : HASH_NODE) (w : World)
    (r : option (Z * nat) * World) :
  new_hash_node hash_value n w = Some r <->
  bucket_ok (fst w) hash_value /\
  r = (Some (hash_value, length (chain (fst w) hash_value)),
       (with_hashtable (<[hash_value := chain (fst w) hash_value ++ [n]]> (hashtable (fst w)))
          (fst w), snd w)).
Proof.
  unfold new_hash_node. split.
  - intros Hrun.
    apply bind_Some in Hrun as (l & w2 & (Hok & [= -> ->])%load_chain_Some & Hrun).
    apply bind_Some in Hrun as (u & w3 & [= -> ->]%cache_modify_Some & Hrun).
    apply ret_Some in Hrun. done.
  - intros (Hok & ->).
    assert (load_chain hash_value w = Some (chain w.1 hash_value, w)) as Hl
      by (by apply load_chain_Some).
    unfold bind at 1. rewrite Hl. done.
Qed.

End CacheRuns.

(** [cinv] takes apart the runs of the cache. *)
Ltac cinv_step :=
  match goal with
  | H : raid_cache.cache_gets _ _ = Some _ |- _ => apply cache_gets_Some in H
  | H : raid_cache.cache_modify _ _ = Some _ |- _ => apply cache_modify_Some in H
  | H : raid_cache.get_capacity _ = Some _ |- _ => apply cache_gets_Some in H
  | H : raid_cache.get_back_ptr _ = Some _ |- _ => apply cache_gets_Some in H
  | H : raid_cache.get_front_ptr _ = Some _ |- _ => apply cache_gets_Some in H
  | H : raid_cache.set_capacity _ _ = Some _ |- _ => apply cache_modify_Some in H
  | H : raid_cache.set_back_ptr _ _ = Some _ |- _ => apply cache_modify_Some in H
  | H : raid_cache.set_front_ptr _ _ = Some _ |- _ => apply cache_modify_Some in H
  | H : raid_cache.bus_request _ _ _ = Some _ |- _ =>
      apply cache_bus_request_Some in H; destruct H as (? & ? & ? & H)
  | H : raid_cache.load _ _ = Some _ |- _ =>
      apply load_Some in H; destruct H as (? & ? & ? & H)
  | H : raid_cache.store _ _ _ = Some _ |- _ =>
      apply store_Some in H; destruct H as (? & ? & ? & ? & H)
  | H : raid_cache.new_queue_node _ _ = Some _ |- _ => apply new_queue_node_Some in H
  | H : raid_cache.free_queue_node _ _ = Some _ |- _ =>
      apply free_queue_node_Some in H; destruct H as (? & ? & ? & ? & H)
  | H : raid_cache.load_chain _ _ = Some _ |- _ =>
      apply load_chain_Some in H; destruct H as (? & H)
  | H : raid_cache.load_hash _ _ = Some _ |- _ =>
      apply load_hash_Some in H; destruct H as (? & ? & ? & ? & H)
  | H : raid_cache.store_hash _ _ _ = Some _ |- _ =>
      apply store_hash_Some in H; destruct H as (? & ? & ? & ? & ? & H)
  | H : raid_cache.new_hash_node _ _ _ = Some _ |- _ =>
      apply new_hash_node_Some in H; destruct H as (? & H)
  | _ => minv_step
  end.

Ltac cinv := repeat (cinv_step; simplify_eq; cbn in * ).

(** ** The size of the cache *)

Section CacheSize.
Context `{RaidBusHeader} {B : Type} `{RaidServer B}.
Import raid_cache.

Local Abbreviation World := (World (B := B)).

Lemma update_block_in_queue_footprint (node : option Z) (w w' : World) (r : Z) :
  update_block_in_queue node w = Some (r, w') ->
  r = 0 /\ dom (queue_nodes (fst w')) = dom (queue_nodes (fst w)) /\
  capacity (cache_queue (fst w')) = capacity (cache_queue (fst w)) /\
  next_address (fst w') = next_address (fst w) /\ snd w' = snd w.
Proof.
  unfold update_block_in_queue. intros Hrun. cinv.
  all: repeat match goal with
       | Hl : _ !! _ = Some _ |- _ => apply elem_of_dom_2 in Hl
       end.
  all: split_and!; try done.
  all: rewrite ?dom_insert_L in *; set_solver.
Qed.
(** The dereferences [dom] remembers. *)
Ltac in_dom :=
  repeat match goal with
         | Hl : _ !! _ = Some _ |- _ => apply elem_of_dom_2 in Hl
         end;
  rewrite ?dom_insert_L, ?dom_delete_L in *.

Ltac footprint :=
  lazymatch goal with
  | |- _ /\ _ => split; footprint
  | |- _ \/ _ => first [left; footprint | right; footprint]
  | |- exists _, _ =>
      match goal with
      | Hin : ?f ∈ _ |- _ => exists f; footprint
      | Hf : _ = Some ?f |- _ => exists f; footprint
      end
  | |- _ => solve [done | lia | in_dom; set_solver]
  end.

Lemma evict_lru_footprint (w w' : World) (r : Z) :
  evict_lru w = Some (r, w') ->
  next_address (fst w') = next_address (fst w) /\
  ((r = -1 /\ dom (queue_nodes (fst w')) = dom (queue_nodes (fst w)) /\
    capacity (cache_queue (fst w')) = capacity (cache_queue (fst w))) \/
   (r = 0 /\ exists f, front_ptr (cache_queue (fst w)) = Some f /\
      f ∈ dom (queue_nodes (fst w)) /\
      dom (queue_nodes (fst w')) = dom (queue_nodes (fst w)) ∖ {[f]} /\
      capacity (cache_queue (fst w')) = capacity (cache_queue (fst w)) - 1)).
Proof.
  unfold evict_lru. intros Hrun. cinv; zbool; (split; [done|]); footprint.
Qed.

Lemma insert_in_queue_footprint (node : option Z) (w w' : World) (r : Z) :
  insert_in_queue node w = Some (r, w') ->
  next_address (fst w') = next_address (fst w) /\
  ((r = -1 /\ dom (queue_nodes (fst w')) = dom (queue_nodes (fst w)) /\
    capacity (cache_queue (fst w')) = capacity (cache_queue (fst w)) + 1) \/
   (r = 0 /\ capacity (cache_queue (fst w)) + 1 <= TAGLINE_CACHE_SIZE /\
    dom (queue_nodes (fst w')) = dom (queue_nodes (fst w)) /\
    capacity (cache_queue (fst w')) = capacity (cache_queue (fst w)) + 1) \/
   (r = 0 /\ capacity (cache_queue (fst w)) + 1 > TAGLINE_CACHE_SIZE /\
    exists f, f ∈ dom (queue_nodes (fst w)) /\
      dom (queue_nodes (fst w')) = dom (queue_nodes (fst w)) ∖ {[f]} /\
      capacity (cache_queue (fst w')) = capacity (cache_queue (fst w)))).
Proof.
  unfold insert_in_queue. intros Hrun. cinv; zbool.
  all: try match goal with
       | He : evict_lru _ = Some _ |- _ =>
           apply evict_lru_footprint in He as (Hnext & [(? & Hdom & Hcap)|(? & f & Hf & Hin & Hdom & Hcap)]);
           cbn in Hnext, Hdom, Hcap; try (cbn in Hin); subst
       end.
  all: try lia.
  all: (split; [done|]); footprint.
Qed.

Lemma get_raid_cache_footprint (dsk blk : Z) (w w' : World) (r : option (list byte)) :
  get_raid_cache dsk blk w = Some (r, w') ->
  queue_nodes (fst w') = queue_nodes (fst w) /\
  cache_queue (fst w') = cache_queue (fst w) /\
  hashtable (fst w') = hashtable (fst w) /\
  next_address (fst w') = next_address (fst w) /\ snd w' = snd w.
Proof. unfold get_raid_cache. intros Hrun. cinv; done. Qed.

(** A put that returns [0] leaves the counter equal to the number of
    entries; it either keeps the entries (the pair was cached), or adds one
    within [TAGLINE_CACHE_SIZE], or adds one and frees another. *)
Lemma size_insert_fresh (a : Z) (X : gset Z) :
  a ∉ X -> Z.of_nat (size ({[a]} ∪ X)) = Z.of_nat (size X) + 1.
Proof. intros Ha. rewrite size_union by set_solver. rewrite size_singleton. lia. Qed.

Lemma size_remove (a : Z) (X : gset Z) :
  a ∈ X -> Z.of_nat (size (X ∖ {[a]})) = Z.of_nat (size X) - 1.
Proof.
  intros Ha. pose proof (size_union_alt {[a]} X) as Hsz.
  replace ({[a]} ∪ X) with X in Hsz by set_solver.
  rewrite size_singleton in Hsz. lia.
Qed.

Lemma put_raid_cache_counted (dsk blk : Z) (buf : list byte) (w w' : World) :
  put_raid_cache dsk blk buf w = Some (0, w') ->
  2 <= TAGLINE_CACHE_SIZE ->
  counted (fst w) ->
  capacity (cache_queue (fst w)) <= TAGLINE_CACHE_SIZE ->
  counted (fst w') /\ capacity (cache_queue (fst w')) <= TAGLINE_CACHE_SIZE.
Proof.
  unfold put_raid_cache, counted, live_entries. intros Hrun Hsize [Hcount Hfresh] Hcap.
  rewrite <- !size_dom in *.
  assert (next_address w.1 ∉ dom (queue_nodes w.1)) as Hnew.
  { intros Hin%Hfresh. lia. }
  pose proof (size_insert_fresh _ _ Hnew) as Hgrow.
  cinv; zbool; subst.
  all: try match goal with
       | He : insert_in_queue _ _ = Some _ |- _ =>
           apply insert_in_queue_footprint in He
             as (Hnext & [(? & _)|[(_ & Hle & Hdom & Hcap')|(_ & Hgt & f & Hin & Hdom & Hcap')]]);
           [lia|cbn in Hnext, Hle, Hdom, Hcap'|cbn in Hnext, Hgt, Hin, Hdom, Hcap']
       | He : update_block_in_queue _ _ = Some _ |- _ =>
           apply update_block_in_queue_footprint in He
             as (_ & Hdom & Hcap' & Hnext & _); cbn in Hnext, Hdom, Hcap'
       end.
  all: repeat match goal with
       | Hx : chain _ _ !! _ = Some _ |- _ => clear Hx
       | Hx : bucket_ok _ _ |- _ => clear Hx
       end.
  all: in_dom.
  all: try rewrite Hdom; try rewrite Hcap'; try rewrite Hnext.
  all: try (rewrite size_remove by set_solver).
  all: repeat match goal with
       | |- context [{[?a]} ∪ ({[?b]} ∪ ?X)] =>
           replace ({[a]} ∪ ({[b]} ∪ X)) with ({[next_address w.1]} ∪ dom (queue_nodes w.1))
             by set_solver
       end.
  all: try rewrite Hgrow.
  all: split_and!; try lia.
  all: try match goal with
       | Hin : ?a ∈ ?X |- context [{[?a]} ∪ ?X] =>
           replace ({[a]} ∪ X) with X by set_solver
       end; try lia; try done.
  all: intros a Ha;
    match goal with
    | Hf : forall a, a ∈ ?X -> a < ?n |- _ =>
        assert (a = n \/ a ∈ X) as [->|Ha'%Hf] by set_solver; lia
    end.
Qed.

Lemma init_raid_cache_counted (max_items : Z) (b : B) (r : Z) (w : World) :
  init_raid_cache max_items (startup, b) = Some (r, w) ->
  r = 0 /\ counted (fst w) /\ capacity (cache_queue (fst w)) = 0 /\ snd w = b.
Proof.
  unfold init_raid_cache. intros Hrun. cinv.
  unfold counted, live_entries. cbn. rewrite dom_empty_L. split_and!; try done.
Qed.

(** At every quiescent point of a run of gets and puts whose puts all
    returned [0], the cache holds at most [TAGLINE_CACHE_SIZE] entries. *)
Lemma run_cache_ops_counted (ops : list lifecycle.cache_op) (w w' : World) (rs : list Z) :
  lifecycle.run_cache_ops ops w = Some (rs, w') ->
  Forall (fun r => r = 0) rs ->
  2 <= TAGLINE_CACHE_SIZE ->
  counted (fst w) -> capacity (cache_queue (fst w)) <= TAGLINE_CACHE_SIZE ->
  counted (fst w') /\ capacity (cache_queue (fst w')) <= TAGLINE_CACHE_SIZE.
Proof.
  revert w rs. induction ops as [|o ops IH]; intros w rs Hrun Hrs Hsize Hcount Hcap; cbn in Hrun.
  - by apply ret_Some in Hrun as [= _ <-].
  - apply bind_Some in Hrun as (r & w1 & Ho & Hrun).
    apply bind_Some in Hrun as (rs' & w2 & Hops & Hrun).
    apply ret_Some in Hrun. simplify_eq.
    apply Forall_cons in Hrs as [-> Hrs].
    eapply IH; [exact Hops|done..| |].
    all: destruct o as [d b|d b buf]; cbn in Ho.
    1,3: apply bind_Some in Ho as (v & w3 & Hget & [= <-]%ret_Some);
         apply get_raid_cache_footprint in Hget as (Hn & Hq & _ & Hnext & _);
         unfold counted, live_entries in *; rewrite ?Hn, ?Hq, ?Hnext; tauto.
    all: by eapply put_raid_cache_counted.
Qed.

End CacheSize.

(** ** The pointers of the cache *)

(** [heap_cases] splits the lookups in updated heaps and chains. *)
Ltac heap_cases :=
  repeat match goal with
         | Hl : <[?a := _]> _ !! ?a = Some _ |- _ =>
             rewrite lookup_insert_eq in Hl; apply (inj Some) in Hl; try subst
         | Hl : @lookup _ _ (gmap _ _) _ ?b (<[?a := _]> _) = Some _ |- _ =>
             rewrite lookup_insert_ne in Hl by lia
         | Hl : @lookup _ _ (gmap _ _) _ ?b (<[?a := _]> _) = Some _ |- _ =>
             destruct (decide (a = b)) as [Heq|?];
             [rewrite Heq in *; rewrite lookup_insert_eq in Hl; apply (inj Some) in Hl; try subst
             |rewrite lookup_insert_ne in Hl by done]
         | Hl : delete _ _ !! _ = Some _ |- _ =>
             apply lookup_delete_Some in Hl as [? Hl]
         | Hl : default [] (<[?h := _]> _ !! ?h) !! _ = Some _ |- _ =>
             rewrite lookup_insert_eq in Hl; cbn in Hl
         | Hl : default [] (<[?h := _]> _ !! ?h') !! _ = Some _ |- _ =>
             destruct (decide (h = h')) as [Heq|?];
             [rewrite Heq in Hl; rewrite lookup_insert_eq in Hl
             |rewrite lookup_insert_ne in Hl by done];
             cbn in Hl
         | Hl : @lookup _ _ (list _) _ _ (<[_ := _]> _) = Some _ |- _ =>
             apply list_lookup_insert_Some in Hl as [(? & <- & ?)|[? Hl]]
         | Hl : (_ ++ [_]) !! _ = Some _ |- _ =>
             apply lookup_snoc_Some in Hl as [[? Hl]|[? <-]]
         end.

Section Preserves.
Context {S : Type} (I : S -> Prop).

Lemma preserves_ret {A} (a : A) (Q : A -> Prop) : Q a -> preserves I (ret a) Q.
Proof. intros Ha s a' s' Hs [= <- <-]. done. Qed.

Lemma preserves_bind {A A'} (m : M S A) (k : A -> M S A') (Q1 : A -> Prop) (Q : A' -> Prop) :
  preserves I m Q1 ->
  (forall a, Q1 a -> preserves I (k a) Q) ->
  preserves I (bind m k) Q.
Proof.
  intros Hm Hk s a' s' Hs (a & s1 & Hrun & Hrest)%bind_Some.
  destruct (Hm _ _ _ Hs Hrun) as [Hs1 Ha]. exact (Hk a Ha _ _ _ Hs1 Hrest).
Qed.

Lemma preserves_weaken {A} (m : M S A) (Q Q' : A -> Prop) :
  preserves I m Q -> (forall a, Q a -> Q' a) -> preserves I m Q'.
Proof. intros Hm HQ s a s' Hs Hrun. destruct (Hm _ _ _ Hs Hrun). auto. Qed.

Lemma preserves_gets {A} (f : S -> A) (Q : A -> Prop) :
  (forall s, I s -> Q (f s)) -> preserves I (gets f) Q.
Proof. intros Hf s a s' Hs [= <- <-]. auto. Qed.

Lemma preserves_modify (f : S -> S) (Q : unit -> Prop) :
  (forall s, I s -> I (f s)) -> Q tt -> preserves I (modify f) Q.
Proof. intros Hf HQ s a s' Hs [= <- <-]. auto. Qed.

Lemma preserves_deref {A} (o : option A) (Q : A -> Prop) :
  (forall a, o = Some a -> Q a) -> preserves I (deref o) Q.
Proof. intros Ho s a s' Hs. destruct o; [intros [= <- <-]; auto | discriminate]. Qed.

Lemma preserves_undefined {A} (Q : A -> Prop) : preserves I (@undefined S A) Q.
Proof. intros s a s' Hs. discriminate. Qed.

End Preserves.

Section CachePointers.
Context `{RaidBusHeader} {B : Type} `{RaidServer B}.
Import raid_cache.

Local Abbreviation World := (World (B := B)).

Section Limits.
Variables (N : Z) (L : Z -> nat).

Local Notation inv := (fun w : World => bounded_by N L (fst w)).

Lemma preserves_cache_gets {A} (f : Cache -> A) (Q : A -> Prop) :
  (forall c, bounded_by N L c -> Q (f c)) -> preserves inv (cache_gets f) Q.
Proof. intros Hf. apply preserves_gets. intros w. apply Hf. Qed.

Lemma preserves_cache_modify (f : Cache -> Cache) (Q : unit -> Prop) :
  (forall c, bounded_by N L c -> bounded_by N L (f c)) -> Q tt ->
  preserves inv (cache_modify f) Q.
Proof. intros Hf HQ. apply preserves_modify; [|done]. intros w. apply Hf. Qed.

Lemma preserves_count (i g h m : Z) : preserves inv (cache_modify (count i g h m)) (fun _ => True).
Proof. apply preserves_cache_modify; [intros c Hc; exact Hc|done]. Qed.

Lemma preserves_get_capacity : preserves inv get_capacity (fun _ => True).
Proof. by apply preserves_cache_gets. Qed.

Lemma preserves_get_front_ptr : preserves inv get_front_ptr (ptr_by N).
Proof. apply preserves_cache_gets. by intros c (_ & _ & ? & _). Qed.

Lemma preserves_get_back_ptr : preserves inv get_back_ptr (ptr_by N).
Proof. apply preserves_cache_gets. by intros c (_ & _ & _ & ? & _). Qed.

Lemma preserves_set_capacity (v : Z) : preserves inv (set_capacity v) (fun _ => True).
Proof. apply preserves_cache_modify; [intros c Hc; exact Hc|done]. Qed.

Lemma preserves_set_front_ptr (v : option Z) :
  ptr_by N v -> preserves inv (set_front_ptr v) (fun _ => True).
Proof.
  intros Hv. apply preserves_cache_modify; [|done].
  intros c (? & ? & ? & ? & ? & ?). split_and!; done.
Qed.

Lemma preserves_set_back_ptr (v : option Z) :
  ptr_by N v -> preserves inv (set_back_ptr v) (fun _ => True).
Proof.
  intros Hv. apply preserves_cache_modify; [|done].
  intros c (? & ? & ? & ? & ? & ?). split_and!; done.
Qed.

Lemma preserves_bus_request (op : Z) (buf : option (list byte)) :
  preserves inv (bus_request op buf) (fun _ => True).
Proof. intros w a w' Hw (? & ? & ? & [= -> ->])%cache_bus_request_Some. done. Qed.

Lemma preserves_load (p : option Z) : preserves inv (load p) (node_by N L).
Proof.
  intros w n w' Hw (a & -> & Hn & <-)%load_Some. split; [done|].
  destruct Hw as (_ & _ & _ & _ & Hnodes & _). by apply Hnodes in Hn as [_ ?].
Qed.

Lemma preserves_store (p : option Z) (f : QUEUE_NODE -> QUEUE_NODE) :
  (forall n, node_by N L n -> node_by N L (f n)) ->
  preserves inv (store p f) (fun _ => True).
Proof.
  intros Hf w u w' Hw (a & n & -> & Hn & [= -> ->])%store_Some. split; [|done].
  destruct Hw as (? & ? & ? & ? & Hnodes & ?). split_and!; try done.
  cbn. intros a' n' [[<- <-]|[_ Hl]]%lookup_insert_Some.
  - apply Hnodes in Hn as [? ?]. split; [done|]. by apply Hf.
  - by apply Hnodes in Hl.
Qed.

Lemma preserves_free_queue_node (p : option Z) :
  preserves inv (free_queue_node p) (fun _ => True).
Proof.
  intros w u w' Hw (a & n & -> & Hn & [= -> ->])%free_queue_node_Some. split; [|done].
  destruct Hw as (? & ? & ? & ? & Hnodes & ?). split_and!; try done.
  cbn. intros a' n' [_ Hl]%lookup_delete_Some. by apply Hnodes in Hl.
Qed.

Lemma preserves_load_hash (p : option (Z * nat)) :
  preserves inv (load_hash p) (fun n => ptr_by N (cache_block_ptr n)).
Proof.
  intros w n w' Hw (a & -> & _ & Hn & <-)%load_hash_Some. split; [done|].
  destruct Hw as (_ & _ & _ & _ & _ & Hhash). by apply Hhash in Hn.
Qed.

Lemma preserves_store_hash (p : option (Z * nat)) (v : option Z) :
  ptr_by N v ->
  preserves inv (store_hash p (set_cache_block_ptr v)) (fun _ => True).
Proof.
  intros Hv w u w' Hw (a & n & -> & _ & Hn & [= -> ->])%store_hash_Some. split; [|done].
  destruct Hw as (? & Hlen & ? & ? & ? & Hhash). split_and!; try done.
  - intros h. rewrite <- Hlen. unfold chain. cbn.
    destruct (decide (a.1 = h)) as [<-|Hne].
    + by rewrite lookup_insert_eq; cbn; rewrite length_insert.
    + by rewrite lookup_insert_ne.
  - intros h i n'. unfold chain. cbn.
    destruct (decide (a.1 = h)) as [<-|Hne].
    + rewrite lookup_insert_eq. cbn.
      intros [(<- & <- & _)|[_ Hl]]%list_lookup_insert_Some; [done|].
      by apply Hhash in Hl.
    + rewrite lookup_insert_ne by done. apply Hhash.
Qed.

End Limits.

(** [pres] walks through a computation whose steps keep the pointers
    within their limits. *)
Ltac pres_side :=
  repeat match goal with
         | Hn : raid_cache.node_by _ _ _ |- _ => destruct Hn as (? & ? & ?)
         end;
  try done;
  try (intros ? (? & ? & ?); split_and!; cbn);
  try done;
  try (by intros ? [=]).

Ltac pres_prim :=
  first
    [ apply preserves_get_front_ptr
    | apply preserves_get_back_ptr
    | apply preserves_get_capacity
    | apply preserves_set_capacity
    | apply preserves_count
    | apply preserves_bus_request
    | apply preserves_load
    | apply preserves_load_hash
    | apply preserves_free_queue_node
    | apply preserves_set_front_ptr; pres_side
    | apply preserves_set_back_ptr; pres_side
    | apply preserves_store; pres_side
    | apply preserves_store_hash; pres_side
    | match goal with
      | Hp : forall _, _ -> preserves _ (?f _) _ |- preserves _ (?f _) _ => apply Hp; pres_side
      | Hp : forall _ _ _, _ -> preserves _ (?f _) _ |- preserves _ (?f _) _ => apply Hp; pres_side
      end
    | eassumption ].

Ltac pres :=
  repeat first
    [ apply preserves_ret; done
    | eapply preserves_bind; [pres_prim | cbn beta; intros ? ?]
    | match goal with
      | |- preserves _ (if ?b then _ else _) _ => destruct b
      | |- preserves _ (match ?x with Some _ => _ | None => _ end) _ =>
          let Hx := fresh "Hx" in destruct x eqn:Hx
      | |- preserves _ (match ?x with Some _ => _ | None => _ end) _ => destruct x
      end ].

Section Composite.
Variables (N : Z) (L : Z -> nat).

Local Notation inv := (fun w : World => bounded_by N L (fst w)).

Lemma preserves_evict_lru : preserves inv evict_lru (fun _ => True).
Proof.
  unfold evict_lru. pres.
Qed.

Lemma preserves_insert_in_queue (node : option Z) :
  ptr_by N node -> preserves inv (insert_in_queue node) (fun _ => True).
Proof.
  intros Hnode. unfold insert_in_queue. pose proof preserves_evict_lru. pres.
Qed.

Lemma preserves_update_block_in_queue (node : option Z) :
  ptr_by N node -> preserves inv (update_block_in_queue node) (fun _ => True).
Proof.
  intros Hnode. unfold update_block_in_queue. pres.
Qed.

End Composite.

Lemma bounded_by_bounded (N : Z) (L : Z -> nat) (c : Cache) :
  bounded_by N L c -> bounded c.
Proof.
  intros (HN & HL & Hfront & Hback & Hnodes & Hhash). unfold bounded. subst N.
  split; [done|]. split; [done|]. split; [done|]. split; [done|]. split; [|done].
  intros a n Hn. apply Hnodes in Hn as (? & ? & ? & Hp). repeat split; try done.
  intros p Hpar. rewrite HL. by apply Hp.
Qed.

Ltac pres_rest Hrun Hb :=
  cbn beta in Hrun;
  match type of Hrun with
  | ?K ?w1 = Some _ =>
      let Hp := fresh "Hp" in
      assert (preserves
                (fun w : World => bounded_by (next_address w1.1) (fun h => length (chain w1.1 h)) w.1)
                K (fun _ => True)) as Hp;
      [ pose proof preserves_insert_in_queue; pose proof preserves_update_block_in_queue; pres
      | eapply bounded_by_bounded, (Hp _ _ _ Hb Hrun) ]
  end.

Lemma new_hash_node_bounded (h : Z) (n : HASH_NODE) (w w' : World) (p : option (Z * nat)) :
  new_hash_node h n w = Some (p, w') ->
  bounded (fst w) -> cache_block_ptr n = None ->
  bounded (fst w') /\ hash_ptr_by (fun h => length (chain (fst w') h)) p /\
  next_address (fst w') = next_address (fst w).
Proof.
  intros [_ [= -> ->]]%new_hash_node_Some (_ & _ & Hfront & Hback & Hnodes & Hhash) Hn.
  assert (forall h', (length (chain w.1 h') <=
    length (chain (with_hashtable (<[h:=chain w.1 h ++ [n]]> (hashtable w.1)) w.1) h'))%nat) as Hlen.
  { intros h'. unfold chain at 2. cbn. destruct (decide (h = h')) as [<-|Hne].
    - rewrite lookup_insert_eq. cbn. rewrite length_app. lia.
    - rewrite lookup_insert_ne by done. done. }
  split_and!; try done.
  - split_and!; try done.
    + intros a n' Hl. apply Hnodes in Hl as (? & ? & ? & Hp). repeat split; try done.
      intros q Hq. apply Hp in Hq. specialize (Hlen q.1). cbn in *. lia.
    + intros h' i n'. unfold chain. cbn. destruct (decide (h = h')) as [<-|Hne].
      * rewrite lookup_insert_eq. cbn. intros [[_ Hl]|[_ <-]]%lookup_snoc_Some.
        -- by apply Hhash in Hl.
        -- by rewrite Hn.
      * rewrite lookup_insert_ne by done. apply Hhash.
  - intros q [= <-]. unfold chain. cbn. rewrite lookup_insert_eq. cbn.
    rewrite length_app. cbn. unfold chain. lia.
Qed.

Lemma new_queue_node_bounded (n : QUEUE_NODE) (w w' : World) (p : option Z) :
  new_queue_node n w = Some (p, w') ->
  bounded (fst w) ->
  node_by (next_address (fst w)) (fun h => length (chain (fst w) h)) n ->
  bounded (fst w') /\ ptr_by (next_address (fst w')) p /\
  (forall h, chain (fst w') h = chain (fst w) h).
Proof.
  intros [= -> ->]%new_queue_node_Some (_ & _ & Hfront & Hback & Hnodes & Hhash) Hn.
  assert (forall q, ptr_by (next_address w.1) q -> ptr_by (next_address w.1 + 1) q) as Hmono.
  { intros q Hq a Ha. apply Hq in Ha. lia. }
  split_and!; try done.
  - split_and!; try done; cbn; try by apply Hmono.
    + intros a n' [[<- <-]|[_ Hl]]%lookup_insert_Some.
      * destruct Hn as (? & ? & ?). repeat split; try lia; try by apply Hmono. done.
      * apply Hnodes in Hl as (? & ? & ? & ?). repeat split; try lia; try by apply Hmono. done.
    + intros h i n' Hl. apply Hmono. by apply Hhash in Hl.
  - intros a [= <-]. cbn. lia.
Qed.

Lemma put_raid_cache_bounded (dsk blk : Z) (buf : list byte) (w w' : World) (r : Z) :
  put_raid_cache dsk blk buf w = Some (r, w') -> bounded (fst w) -> bounded (fst w').
Proof.
  unfold put_raid_cache. intros Hrun Hb.
  apply bind_Some in Hrun as (bucket & w0 & [Hok [= Hbucket Hw0]]%load_chain_Some & Hrun).
  subst w0. destruct bucket as [|first_node rest].
  - apply bind_Some in Hrun as (new_hash & w1 & Hnh & Hrun).
    apply bind_Some in Hrun as (new_queue & w2 & Hnq & Hrun).
    eapply new_hash_node_bounded in Hnh as (Hb1 & Hp1 & _); [|done..].
    eapply new_queue_node_bounded in Hnq as (Hb2 & Hp2 & _); [|done|by repeat split].
    pres_rest Hrun Hb2.
  - destruct (find_pair dsk blk (first_node :: rest)) as [i|] eqn:Hfind.
    + apply bind_Some in Hrun as (current & w1 & (a & [= <-] & _ & Hcur & Hw1)%load_hash_Some & Hrun).
      cbn in Hcur, Hw1, Hrun. subst w1.
      destruct (cache_block_ptr current) as [q|] eqn:Hq.
      * assert (ptr_by (next_address w.1) (Some q)) as Hptr.
        { destruct Hb as (_ & _ & _ & _ & _ & Hhash). apply Hhash in Hcur. by rewrite Hq in Hcur. }
        pres_rest Hrun Hb.
      * apply bind_Some in Hrun as (new_queue & w2 & Hnq & Hrun).
        eapply new_queue_node_bounded in Hnq as (Hb2 & Hp2 & _); [|done|].
        -- pres_rest Hrun Hb2.
        -- repeat split; try done. intros ? [= <-]. cbn. by apply lookup_lt_Some in Hcur.
    + apply bind_Some in Hrun as (new_hash & w1 & Hnh & Hrun).
      apply bind_Some in Hrun as (new_queue & w2 & Hnq & Hrun).
      eapply new_hash_node_bounded in Hnh as (Hb1 & Hp1 & _); [|done..].
      eapply new_queue_node_bounded in Hnq as (Hb2 & Hp2 & _); [|done|by repeat split].
      pres_rest Hrun Hb2.
Qed.

Lemma get_raid_cache_bounded (dsk blk : Z) (w w' : World) (r : option (list byte)) :
  get_raid_cache dsk blk w = Some (r, w') -> bounded (fst w) -> bounded (fst w').
Proof.
  intros Hrun Hb. apply get_raid_cache_footprint in Hrun as (Hn & Hq & Hh & Ha & _).
  unfold bounded, bounded_by, chain in *. by rewrite Hn, Hq, Hh, Ha.
Qed.

Lemma evict_lru_writes (w w' : World) :
  evict_lru w = Some (0, w') ->
  exists f op data answer,
    front_ptr (cache_queue (fst w)) = Some f /\
    eviction_write (fst w) = Some (op, data) /\
    raid_client.client_raid_bus_request op (Some data) (snd w) = Some (answer, snd w') /\
    status (decode_RAIDOpCode_c (fst answer)) = 0 /\
    queue_nodes (fst w') !! f = None.
Proof.
  unfold evict_lru, eviction_write. intros Hrun. cinv; zbool.
  all: match goal with
       | Hf : front_ptr _ = Some ?f |- _ => exists f
       end.
  all: repeat match goal with
       | Hl : ?x = Some _ |- context [match ?x with _ => _ end] => rewrite Hl
       end.
  all: do 3 eexists; split_and!; [done|done|eassumption|done|cbn; by rewrite lookup_delete_eq].
Qed.

Lemma put_raid_cache_evicts (dsk blk : Z) (buf : list byte) (w w' : World) :
  bounded (fst w) -> 2 <= TAGLINE_CACHE_SIZE ->
  capacity (cache_queue (fst w)) = TAGLINE_CACHE_SIZE ->
  cached_at (fst w) dsk blk = None ->
  put_raid_cache dsk blk buf w = Some (0, w') ->
  exists f op data answer,
    front_ptr (cache_queue (fst w)) = Some f /\
    eviction_write (fst w) = Some (op, data) /\
    raid_client.client_raid_bus_request op (Some data) (snd w) = Some (answer, snd w') /\
    status (decode_RAIDOpCode_c (fst answer)) = 0 /\
    queue_nodes (fst w') !! f = None.
Proof.
  unfold put_raid_cache, insert_in_queue, cached_at.
  intros Hb Hsize Hcap Hmiss Hrun. cinv; zbool; try lia.
  all: destruct Hb as (_ & _ & Hfront & Hback & Hnodes & Hhash).
  all: unfold chain, bucket_ok in *; cbn in *.
  all: try (rewrite Hmiss in *; discriminate).
  all: try match goal with
       | Hc : default [] _ = _ :: _, Hl : default [] _ !! _ = Some _ |- _ =>
           rewrite Hc in Hl; rewrite Hl in Hmiss; congruence
       end.
  all: subst.
  all: match goal with
       | He : evict_lru _ = Some _ |- _ =>
           apply evict_lru_writes in He as (f & op & data & answer & Hf & Hw & Hreq & Hst & Hfree)
       end.
  all: exists f, op, data, answer; cbn in *.
  all: pose proof (Hfront _ Hf) as Hlt.
  all: split_and!; try done.
  all: unfold eviction_write, chain in *; cbn in *; rewrite Hf in *.
  all: match type of Hw with
       | match ?x with _ => _ end = _ => destruct x as [e|] eqn:He; [|discriminate]
       end.
  all: heap_cases; try lia.
  all: cbn in Hw.
  all: match type of Hw with
       | match ?x with _ => _ end = _ => destruct x as [a|] eqn:Ha; [|discriminate]
       end.
  all: match type of Hw with
       | match ?x with _ => _ end = _ => destruct x as [p|] eqn:Hp; [|discriminate]
       end.
  all: cbn in Ha.
  all: match goal with
       | He : queue_nodes _ !! _ = Some ?e, Ha : parent_hash_node ?e = Some _ |- _ =>
           pose proof (Hnodes _ _ He) as (_ & _ & _ & Hpar); specialize (Hpar _ Ha); cbn in Hpar;
           rewrite He, Ha
       end.
  all: heap_cases; try lia.
  all: try match goal with
       | Hl : ?x = Some _ |- context [match ?x with _ => _ end] => rewrite Hl
       end.
  all: try done.
  all: match goal with
       | Heq : _ = ?h |- context [default [] (_ !! ?h) !! _] => rewrite <- Heq; subst
       end.
  all: match goal with
       | Hl : ?x = Some ?p |- context [match ?x with _ => _ end] => rewrite Hl
       end.
  all: done.
Qed.

Lemma init_raid_cache_bounded (max_items : Z) (b : B) (r : Z) (w : World) :
  init_raid_cache max_items (startup, b) = Some (r, w) -> bounded (fst w).
Proof.
  unfold init_raid_cache. intros Hrun. cinv.
  unfold bounded, bounded_by, ptr_by. cbn. split_and!; done.
Qed.

Lemma run_cache_ops_bounded (ops : list lifecycle.cache_op) (w w' : World) (rs : list Z) :
  lifecycle.run_cache_ops ops w = Some (rs, w') -> bounded (fst w) -> bounded (fst w').
Proof.
  revert w rs. induction ops as [|o ops IH]; intros w rs Hrun Hb; cbn in Hrun.
  - by apply ret_Some in Hrun as [= _ <-].
  - apply bind_Some in Hrun as (r & w1 & Ho & Hrun).
    apply bind_Some in Hrun as (rs' & w2 & Hops & Hrun).
    apply ret_Some in Hrun. simplify_eq.
    eapply IH; [exact Hops|].
    destruct o as [d b|d b buf]; cbn in Ho.
    + apply bind_Some in Ho as (v & w3 & Hget & Hret).
      apply ret_Some in Hret. simplify_eq.
      by eapply get_raid_cache_bounded.
    + by eapply put_raid_cache_bounded.
Qed.

(** X28: after one [init_raid_cache] of the program as it starts, with
    [TAGLINE_CACHE_SIZE] at least 2 (the first two insertions never
    evict), after every sequence of gets and puts whose puts all returned
    [0] (every write of an evicted block was answered with status 0), the
    cache holds at most [TAGLINE_CACHE_SIZE] entries; and a put that
    returns [0] for a pair that is not cached, when the cache is full,
    has sent the [RAID_WRITE] request for the disk and block of the node
    at the front of the queue with the buffer of that node, received
    status 0, and freed the node. *)
Theorem cache_capacity_bound (b : B) (ops : list lifecycle.cache_op) (rs : list Z)
    (w0 w : World) :
  2 <= TAGLINE_CACHE_SIZE ->
  init_raid_cache TAGLINE_CACHE_SIZE (startup, b) = Some (0, w0) ->
  lifecycle.run_cache_ops ops w0 = Some (rs, w) ->
  Forall (fun r => r = 0) rs ->
  Z.of_nat (live_entries (fst w)) <= TAGLINE_CACHE_SIZE /\
  forall (dsk blk : Z) (buf : list byte) (w' : World),
    Z.of_nat (live_entries (fst w)) = TAGLINE_CACHE_SIZE ->
    cached_at (fst w) dsk blk = None ->
    put_raid_cache dsk blk buf w = Some (0, w') ->
    exists f op data answer,
      front_ptr (cache_queue (fst w)) = Some f /\
      eviction_write (fst w) = Some (op, data) /\
      raid_client.client_raid_bus_request op (Some data) (snd w) = Some (answer, snd w') /\
      status (decode_RAIDOpCode_c (fst answer)) = 0 /\
      queue_nodes (fst w') !! f = None.
Proof.
  intros Hsize Hinit Hrun Hrs.
  pose proof (init_raid_cache_bounded _ _ _ _ Hinit) as Hb0.
  apply init_raid_cache_counted in Hinit as (_ & Hc0 & Hcap0 & _).
  pose proof (run_cache_ops_bounded _ _ _ _ Hrun Hb0) as Hb.
  destruct (run_cache_ops_counted _ _ _ _ Hrun Hrs Hsize Hc0) as [Hc Hcap]; [lia|].
  split; [destruct Hc as [-> _]; done|].
  intros dsk blk buf w' Hfull Hmiss Hput.
  assert (capacity (cache_queue w.1) = TAGLINE_CACHE_SIZE) as Hcapw.
  { destruct Hc as [<- _]. done. }
  destruct (put_raid_cache_evicts _ _ _ _ _ Hb Hsize Hcapw Hmiss Hput)
    as (f & op & data & answer & Hf & Hw & Hreq & Hst & Hfree).
  exists f, op, data, answer. split_and!; done.
Qed.

End CachePointers.

Section CacheScenario.
Import raid_cache lifecycle scenario.

(** Two puts fill the cache of two blocks; the put of a third block then
    writes block 0 of disk 0, the first one put, to the array. *)
Lemma cache_capacity_bound_witness :
  2 <= @TAGLINE_CACHE_SIZE small_header /\
  init_raid_cache (@TAGLINE_CACHE_SIZE small_header) cache_boot = Some (0, cache_initialised) /\
  run_cache_ops (H := small_header) two_puts cache_initialised
  = Some ([0; 0], cache_after two_puts) /\
  Forall (fun r => r = 0) [0; 0] /\
  Z.of_nat (live_entries (fst (cache_after two_puts))) <= @TAGLINE_CACHE_SIZE small_header /\
  forall (dsk blk : Z) (buf : list byte) (w' : CacheState),
    Z.of_nat (live_entries (fst (cache_after two_puts))) = @TAGLINE_CACHE_SIZE small_header ->
    cached_at (fst (cache_after two_puts)) dsk blk = None ->
    put_raid_cache (H := small_header) dsk blk buf (cache_after two_puts) = Some (0, w') ->
    exists f op data answer,
      front_ptr (cache_queue (fst (cache_after two_puts))) = Some f /\
      eviction_write (H := small_header) (fst (cache_after two_puts)) = Some (op, data) /\
      raid_client.client_raid_bus_request (H := small_header) op (Some data)
        (snd (cache_after two_puts)) = Some (answer, snd w') /\
      status (decode_RAIDOpCode_c (fst answer)) = 0 /\
      queue_nodes (fst w') !! f = None.
Proof.
  assert (2 <= @TAGLINE_CACHE_SIZE small_header) as Hsize by (cbn; lia).
  assert (init_raid_cache (@TAGLINE_CACHE_SIZE small_header) cache_boot
          = Some (0, cache_initialised)) as Hinit by (vm_compute; reflexivity).
  assert (run_cache_ops (H := small_header) two_puts cache_initialised
          = Some ([0; 0], cache_after two_puts)) as Hrun by (vm_compute; reflexivity).
  assert (Forall (fun r => r = 0) [0; 0]) as Hrs by (repeat constructor).
  split; [exact Hsize|]. split; [exact Hinit|]. split; [exact Hrun|]. split; [exact Hrs|].
  exact (cache_capacity_bound (H := small_header) blank_array two_puts [0; 0]
           cache_initialised (cache_after two_puts) Hsize Hinit Hrun Hrs).
Defined.

(** C9: the cache does not evict the least recently used entry, and the
    number of its entries is not bounded over every sequence of inits,
    gets and puts.  In the cache of two blocks, after a put of (0,0), a
    put of (1,0) and a get of (0,0) that hits, the put of (2,0) returns
    [0], writes (0,0) to the array and drops it, and keeps (1,0), the
    entry used least recently: a get does not move an entry in the queue.
    With puts only, after the puts of (0,0), (0,0), (1,0) and (0,0), the
    put of (2,0) drops (0,0), the entry put last before it, and keeps
    (1,0).  A second [init_raid_cache] resets the queue without freeing
    its nodes: after two more puts the cache of two blocks holds four
    entries. *)
Theorem eviction_is_not_least_recently_used :
  (fst <$> get_raid_cache 0 0 (small_cache_after two_puts)) = Some (Some bytes_A) /\
  run_cache_ops (H := small_header) (H0 := array_server (H := small_header))
    read_before_put cache_initialised
  = Some ([0; 0; 0; 0], small_cache_after read_before_put) /\
  cached_at (fst (small_cache_after read_before_put)) 0 0 = None /\
  stored (snd (small_cache_after read_before_put)) !! (0, 0) = Some bytes_A /\
  cached_at (fst (small_cache_after read_before_put)) 1 0 = Some 1 /\
  cached_at (fst (small_cache_after read_before_put)) 2 0 = Some 2 /\
  run_cache_ops (H := small_header) (H0 := array_server (H := small_header))
    put_again_before_put cache_initialised
  = Some ([0; 0; 0; 0; 0], small_cache_after put_again_before_put) /\
  cached_at (fst (small_cache_after put_again_before_put)) 0 0 = None /\
  cached_at (fst (small_cache_after put_again_before_put)) 1 0 = Some 1 /\
  cached_at (fst (small_cache_after put_again_before_put)) 2 0 = Some 2 /\
  init_raid_cache (@TAGLINE_CACHE_SIZE small_header) (small_cache_after two_puts)
  = Some (0, initialised_again) /\
  run_cache_ops (H := small_header) (H0 := array_server (H := small_header))
    two_more_puts initialised_again
  = Some ([0; 0], after_second_init) /\
  live_entries (fst after_second_init) = 4%nat.
Proof. split_and!; vm_compute; reflexivity. Qed.

(** The third put of the scenario: the request it sends. *)
Lemma third_put_evicts_first :
  eviction_write (H := small_header) (fst (cache_after two_puts))
  = Some (generate_RAIDOpCode_c (mkRequest 3 1 0 0 0 0), bytes_A) /\
  (fst <$> put_raid_cache (H := small_header) 2 0 bytes_C (cache_after two_puts)) = Some 0 /\
  cached_at (fst (cache_after two_puts)) 2 0 = None.
Proof. repeat split; vm_compute; reflexivity. Qed.

End CacheScenario.

(** ** Further properties of the codec and of the hash function *)

Section Codec.
Import raid_cache.

Lemma generate_RAIDOpCode_c_eq (r : RAID_REQUEST) :
  generate_RAIDOpCode_c r = generate_RAIDOpCode r.
Proof. unfold generate_RAIDOpCode_c, generate_RAIDOpCode. reflexivity. Qed.

Lemma decode_RAIDOpCode_c_eq (op : Z) : decode_RAIDOpCode_c op = decode_RAIDOpCode op.
Proof. unfold decode_RAIDOpCode_c, decode_RAIDOpCode. reflexivity. Qed.

(** X1: a request whose fields fit the layout and whose reserved field
    fits six bits survives the round trip through the encoder and the
    decoder, of the driver and of the cache alike. *)
Theorem codec_roundtrip_six_reserved_bits (r : RAID_REQUEST) :
  fits_layout r -> reserved r < 2 ^ 6 ->
  decode_RAIDOpCode (generate_RAIDOpCode r) = r /\
  decode_RAIDOpCode_c (generate_RAIDOpCode_c r) = r.
Proof.
  intros Hfit Hr.
  assert (decode_RAIDOpCode (generate_RAIDOpCode r) = r) as Hround.
  { rewrite decode_generate by done.
    destruct Hfit as (_ & _ & _ & Hr' & _).
    rewrite Z.mod_small by lia. by destruct r. }
  split; [exact Hround|].
  rewrite generate_RAIDOpCode_c_eq, decode_RAIDOpCode_c_eq. exact Hround.
Qed.

Lemma codec_roundtrip_six_reserved_bits_witness :
  fits_layout (mkRequest 3 1 8 63 0 4095) /\ 63 < 2 ^ 6 /\
  decode_RAIDOpCode (generate_RAIDOpCode (mkRequest 3 1 8 63 0 4095)) = mkRequest 3 1 8 63 0 4095 /\
  decode_RAIDOpCode_c (generate_RAIDOpCode_c (mkRequest 3 1 8 63 0 4095)) = mkRequest 3 1 8 63 0 4095.
Proof.
  assert (fits_layout (mkRequest 3 1 8 63 0 4095)) as Hfit by (unfold fits_layout; cbn; lia).
  assert (63 < 2 ^ 6) as Hr by lia.
  split; [exact Hfit|]. split; [exact Hr|].
  exact (codec_roundtrip_six_reserved_bits (mkRequest 3 1 8 63 0 4095) Hfit Hr).
Defined.

(** X2: [check_response] accepts the decoded form of an encoded response
    exactly when the response carries the request type, the number of
    blocks, the disk number and the block id of the request and a clear
    status bit; the reserved field is not compared. *)
Theorem check_response_of_encoded_response (request response : RAID_REQUEST) :
  fits_layout response ->
  check_response request (decode_RAIDOpCode (generate_RAIDOpCode response)) = 0 <->
  request_type request = request_type response /\
  number_of_blocks request = number_of_blocks response /\
  disk_number request = disk_number response /\
  status response = 0 /\
  blockid request = blockid response.
Proof.
  intros Hfit. rewrite decode_generate by done.
  unfold check_response. cbn.
  repeat match goal with
         | |- context [?a =? ?b] => destruct (Z.eqb_spec a b); cbn
         end; split; try lia; try tauto; intros (? & ? & ? & ? & ?); try lia; congruence.
Qed.

Lemma check_response_of_encoded_response_witness :
  fits_layout (mkRequest 2 1 4 64 0 17) /\
  (check_response (mkRequest 2 1 4 0 0 17)
     (decode_RAIDOpCode (generate_RAIDOpCode (mkRequest 2 1 4 64 0 17))) = 0 <->
   2 = 2 /\ 1 = 1 /\ 4 = 4 /\ 0 = 0 /\ 17 = 17).
Proof.
  assert (fits_layout (mkRequest 2 1 4 64 0 17)) as Hfit by (unfold fits_layout; cbn; lia).
  split; [exact Hfit|].
  exact (check_response_of_encoded_response (mkRequest 2 1 4 0 0 17) (mkRequest 2 1 4 64 0 17) Hfit).
Defined.

(** X3: for a disk number and a block number whose weighted sum stays
    below [2^31], [hashfunction] gives an index into the hash table, the
    sum modulo the size of the table. *)
Theorem hashfunction_in_table (dsk blk : Z) :
  0 <= dsk -> 0 <= blk -> dsk * 10000 + blk < 2 ^ 31 ->
  hashfunction dsk blk = (dsk * 10000 + blk) mod HASHTABLE_SIZE /\
  0 <= hashfunction dsk blk < HASHTABLE_SIZE.
Proof.
  intros Hd Hb Hsum. unfold hashfunction, to_int, u32, HASHTABLE_SIZE. cbv zeta.
  rewrite (Z.mod_small (dsk * 10000 + blk)) by lia.
  assert ((dsk * 10000 + blk <? 2 ^ 31) = true) as -> by lia.
  rewrite Z.rem_mod_nonneg by lia.
  split; [done|]. apply Z.mod_pos_bound. lia.
Qed.

Lemma hashfunction_in_table_witness :
  0 <= 8 /\ 0 <= 4095 /\ 8 * 10000 + 4095 < 2 ^ 31 /\
  hashfunction 8 4095 = (8 * 10000 + 4095) mod HASHTABLE_SIZE /\
  0 <= hashfunction 8 4095 < HASHTABLE_SIZE.
Proof.
  split; [lia|]. split; [lia|]. split; [lia|].
  apply (hashfunction_in_table 8 4095); lia.
Defined.

End Codec.

Section CacheEdges.
Context `{RaidBusHeader} {B : Type} `{RaidServer B}.
Import raid_cache.

Local Abbreviation World := (World (B := B)).

(** X4: when [hashfunction] gives a negative index (the sum of the
    weighted disk number and the block number reaches [2^31] and wraps as
    an [int]), [get_raid_cache] and [put_raid_cache] index the hash table
    out of its bounds. *)
Theorem negative_bucket_is_out_of_bounds (dsk blk : Z) (buf : list byte) (w : World) :
  hashfunction dsk blk < 0 ->
  get_raid_cache dsk blk w = None /\ put_raid_cache dsk blk buf w = None.
Proof.
  intros Hneg.
  assert (forall w' : World, load_chain (hashfunction dsk blk) w' = None) as Hload.
  { intros w'. unfold load_chain, bind, cache_gets, gets, undefined.
    assert ((hashfunction dsk blk <? 0) = true) as -> by lia.
    by rewrite orb_true_r. }
  split.
  - unfold get_raid_cache, bind, cache_modify, modify. by rewrite Hload.
  - unfold put_raid_cache, bind. by rewrite Hload.
Qed.

End CacheEdges.

Lemma negative_bucket_is_out_of_bounds_witness :
  raid_cache.hashfunction 0 (2 ^ 31 + 1) < 0 /\
  raid_cache.get_raid_cache 0 (2 ^ 31 + 1) scenario.cache_initialised = None /\
  @raid_cache.put_raid_cache scenario.small_header RaidArray (@array_server scenario.small_header)
    0 (2 ^ 31 + 1) scenario.bytes_A scenario.cache_initialised = None.
Proof.
  assert (raid_cache.hashfunction 0 (2 ^ 31 + 1) < 0) as Hneg by (vm_compute; reflexivity).
  split; [exact Hneg|].
  exact (@negative_bucket_is_out_of_bounds scenario.small_header RaidArray
           (@array_server scenario.small_header) 0 (2 ^ 31 + 1)
           scenario.bytes_A scenario.cache_initialised Hneg).
Defined.

Section CacheOperations.
Context `{RaidBusHeader} {B : Type} `{RaidServer B}.
Import raid_cache.

Local Abbreviation World := (World (B := B)).

(** X5: [get_raid_cache] returns the buffer of the queue node the hash
    table holds for the pair, and [NULL] when it holds none; it counts the
    get as a hit or a miss and touches nothing else: the queue keeps its
    order (a get does not make an entry more recent) and no request goes
    to the bus. *)
Theorem get_raid_cache_only_reads (dsk blk : Z) (w w' : World) (v : option (list byte)) :
  get_raid_cache dsk blk w = Some (v, w') ->
  v = match cached_at (fst w) dsk blk with
      | Some a => value_buf <$> queue_nodes (fst w) !! a
      | None => None
      end /\
  cache_queue (fst w') = cache_queue (fst w) /\
  queue_nodes (fst w') = queue_nodes (fst w) /\
  hashtable (fst w') = hashtable (fst w) /\
  snd w' = snd w /\
  total_cache_gets (fst w') = total_cache_gets (fst w) + 1 /\
  total_cache_inserts (fst w') = total_cache_inserts (fst w) /\
  total_cache_hits (fst w') + total_cache_misses (fst w')
  = total_cache_hits (fst w) + total_cache_misses (fst w) + 1.
Proof.
  unfold get_raid_cache, cached_at. intros Hrun. cinv.
  all: unfold chain in *; cbn in *.
  all: repeat match goal with
       | Hc : default [] _ = _ :: _, Hl : default [] _ !! _ = Some _ |- _ => rewrite Hc in Hl
       end.
  all: repeat match goal with
       | Hl : ?x = _ |- context [?x] => rewrite Hl; cbn
       end.
  all: split_and!; try done; try lia.
Qed.

Lemma insert_in_queue_without_eviction (node : option Z) (w w' : World) (r : Z) :
  insert_in_queue node w = Some (r, w') ->
  capacity (cache_queue (fst w)) < TAGLINE_CACHE_SIZE ->
  r = 0 /\ snd w' = snd w.
Proof.
  unfold insert_in_queue. intros Hrun Hcap. cinv; zbool; subst; try lia; done.
Qed.

(** X6: a put into a cache that holds fewer than [TAGLINE_CACHE_SIZE]
    blocks, or that holds the pair already, returns [0] and sends nothing
    to the bus. *)
Theorem put_raid_cache_without_eviction (dsk blk : Z) (buf : list byte) (w w' : World) (r : Z) :
  put_raid_cache dsk blk buf w = Some (r, w') ->
  capacity (cache_queue (fst w)) < TAGLINE_CACHE_SIZE \/
  is_Some (cached_at (fst w) dsk blk) ->
  r = 0 /\ snd w' = snd w.
Proof.
  unfold put_raid_cache, cached_at. intros Hrun Hcase.
  cinv; zbool; subst.
  all: try match goal with
       | He : update_block_in_queue _ _ = Some _ |- _ =>
           apply update_block_in_queue_footprint in He as (? & _ & _ & _ & ?); cbn in *
       end.
  all: try done.
  all: unfold chain in *; cbn in *.
  all: repeat match goal with
       | Hc : default [] _ = _ :: _, Hl : default [] _ !! _ = Some _ |- _ => rewrite Hc in Hl
       end.
  all: destruct Hcase as [?|[a Ha]].
  all: try match goal with
       | He : insert_in_queue _ _ = Some _ |- _ =>
           apply insert_in_queue_without_eviction in He as [? ?]; cbn in *; [|lia]
       end.
  all: try done.
  all: match goal with
       | Hl : ?x = Some _, Ha : match ?x with _ => _ end = Some _ |- _ =>
           rewrite Hl in Ha; congruence
       end.
Qed.

Lemma insert_in_queue_failure (node : option Z) (w w' : World) (r : Z) :
  insert_in_queue node w = Some (r, w') -> r <> 0 ->
  r = -1 /\ TAGLINE_CACHE_SIZE <= capacity (cache_queue (fst w)) /\
  dom (queue_nodes (fst w')) = dom (queue_nodes (fst w)) /\
  capacity (cache_queue (fst w')) = capacity (cache_queue (fst w)) + 1.
Proof.
  unfold insert_in_queue. intros Hrun Hr. cinv; zbool; try done.
  match goal with
  | He : evict_lru _ = Some _ |- _ =>
      apply evict_lru_footprint in He as (_ & [(_ & Hdom & Hcap)|(? & _)]); [|done]
  end.
  cbn in Hdom, Hcap. split_and!; [done|lia| |lia].
  rewrite Hdom.
  repeat match goal with
         | Hl : _ !! _ = Some _ |- _ => apply elem_of_dom_2 in Hl
         end.
  rewrite ?dom_insert_L in *. set_solver.
Qed.

(** X7: a put that does not return [0] returns [-1]; it happens only when
    the cache is full and the write of the block to evict is refused, and
    it leaves the new block in the cache with nothing evicted, so that the
    cache holds one block more than before. *)
Theorem put_raid_cache_failure_keeps_the_block (dsk blk : Z) (buf : list byte)
    (w w' : World) (r : Z) :
  counted (fst w) ->
  put_raid_cache dsk blk buf w = Some (r, w') -> r <> 0 ->
  r = -1 /\ TAGLINE_CACHE_SIZE <= capacity (cache_queue (fst w)) /\
  cached_at (fst w) dsk blk = None /\
  live_entries (fst w') = S (live_entries (fst w)) /\
  capacity (cache_queue (fst w')) = capacity (cache_queue (fst w)) + 1.
Proof.
  unfold put_raid_cache, counted, live_entries, cached_at. intros [Hcount Hfresh] Hrun Hr.
  rewrite <- !size_dom in *.
  assert (next_address w.1 ∉ dom (queue_nodes w.1)) as Hnew.
  { intros Hin%Hfresh. lia. }
  cinv; zbool; subst; try done.
  all: try match goal with
       | He : update_block_in_queue _ _ = Some _ |- _ =>
           apply update_block_in_queue_footprint in He as (? & _); done
       end.
  all: match goal with
       | He : insert_in_queue _ _ = Some _ |- _ =>
           apply insert_in_queue_failure in He as (_ & Hfull & Hdom & Hcap); [|done];
           cbn in Hfull, Hdom, Hcap
       end.
  all: unfold chain in *; cbn in *.
  all: repeat match goal with
       | Hc : default [] _ = _ :: _, Hl : default [] _ !! _ = Some _ |- _ => rewrite Hc in Hl
       end.
  all: repeat match goal with
       | Hl : ?x = _ |- context [?x] => rewrite Hl; cbn
       end.
  all: split_and!; try done.
  all: try lia.
  all: rewrite ?Hdom, ?dom_insert_L.
  all: try (rewrite size_union by set_solver; rewrite size_singleton; lia).
  all: congruence.
Qed.

End CacheOperations.

Section SingleNode.
Context `{RaidBusHeader} {B : Type} `{RaidServer B}.
Import raid_cache.

Local Abbreviation World := (World (B := B)).

(** X8: a put of the pair whose block is the only one in the queue (its
    node has neither a next nor a previous node and is the back of the
    queue) overwrites the block and, moving the node to the back, makes
    the node its own next node. *)
Theorem put_of_the_only_block_links_it_to_itself (dsk blk : Z) (buf : list byte)
    (w w' : World) (r : Z) (a : Z) (n : QUEUE_NODE) :
  cached_at (fst w) dsk blk = Some a ->
  queue_nodes (fst w) !! a = Some n ->
  prev_node n = None -> next_node n = None ->
  back_ptr (cache_queue (fst w)) = Some a ->
  put_raid_cache dsk blk buf w = Some (r, w') ->
  r = 0 /\
  queue_nodes (fst w') !! a
  = Some (mkQueueNode (memcpy (value_buf n) buf RAID_BLOCK_SIZE) (age_bit n)
            (Some a) None (parent_hash_node n)) /\
  back_ptr (cache_queue (fst w')) = Some a /\
  front_ptr (cache_queue (fst w')) = front_ptr (cache_queue (fst w)).
Proof.
  unfold put_raid_cache, update_block_in_queue, cached_at.
  intros Hcached Hn Hprev Hnext Hback Hrun.
  cinv; zbool; subst.
  all: unfold chain in *; cbn in *.
  all: repeat match goal with
       | Hc : default [] _ = _ :: _, Hl : default [] _ !! _ = Some _ |- _ => rewrite Hc in Hl
       end.
  all: repeat match goal with
       | Hl : ?x = Some _, Ha : match ?x with _ => _ end = Some _ |- _ => rewrite Hl in Ha
       end.
  all: try congruence.
  all: simplify_eq.
  all: heap_cases; cbn in *; try congruence.
  all: split_and!; try done.
  all: rewrite ?lookup_insert_eq; try done.
  all: by rewrite Hback.
Qed.

End SingleNode.

Section CloseCache.
Context `{RaidBusHeader} {B : Type} `{RaidServer B}.
Import raid_cache.

Local Abbreviation World := (World (B := B)).

Lemma free_hash_nodes_footprint (l : list HASH_NODE) (w w' : World) (u : unit) :
  free_hash_nodes l w = Some (u, w') ->
  snd w' = snd w /\ hashtable (fst w') = hashtable (fst w) /\
  dangling (fst w') = dangling (fst w) /\ cache_queue (fst w') = cache_queue (fst w).
Proof.
  revert w w' u. induction l as [|n l IH]; intros w w' u Hrun; cbn in Hrun.
  - by apply ret_Some in Hrun as [= _ <-].
  - apply bind_Some in Hrun as (u1 & w1 & Hl & Hrun).
    apply IH in Hl as (Hb & Hh & Hd & Hq).
    destruct (cache_block_ptr n); cinv; cbn; by rewrite <- ?Hb, <- ?Hh, <- ?Hd, <- ?Hq.
Qed.

Lemma free_buckets_footprint (entries : list Z) (w w' : World) (u : unit) :
  free_buckets entries w = Some (u, w') ->
  snd w' = snd w /\ hashtable (fst w') = hashtable (fst w) /\
  dangling (fst w') = list_to_set entries ∪ dangling (fst w) /\
  cache_queue (fst w') = cache_queue (fst w).
Proof.
  revert w w' u. induction entries as [|entry rest IH]; intros w w' u Hrun; cbn in Hrun.
  - apply ret_Some in Hrun as [= _ <-]. split_and!; try done. set_solver.
  - apply bind_Some in Hrun as (l & w1 & Hl & Hrun).
    apply load_chain_Some in Hl as (_ & [= -> ->]).
    apply bind_Some in Hrun as (u1 & w2 & Hfree & Hrun).
    apply free_hash_nodes_footprint in Hfree as (Hb & Hh & Hd & Hq).
    apply bind_Some in Hrun as (u2 & w3 & Hmod & Hrun).
    apply cache_modify_Some in Hmod as [= -> ->].
    apply IH in Hrun as (Hb' & Hh' & Hd' & Hq'). cbn in *.
    rewrite Hb', Hh', Hd', Hq', Hb, Hh, Hd, Hq. split_and!; try done. set_solver.
Qed.

(** X9: [close_raid_cache] returns [0] and sends nothing to the bus: the
    cached blocks are freed without being written to their disks.  The
    hash table keeps its pointers to the freed chains, so that a later get
    or put of a pair whose bucket was in use reads freed memory. *)
Theorem close_raid_cache_drops_the_blocks (w w' : World) (r : Z) :
  close_raid_cache w = Some (r, w') ->
  r = 0 /\ snd w' = snd w /\ hashtable (fst w') = hashtable (fst w) /\
  forall (dsk blk : Z) (buf : list byte),
    0 <= hashfunction dsk blk < HASHTABLE_SIZE ->
    bucket_in_use (fst w) (hashfunction dsk blk) = true ->
    get_raid_cache dsk blk w' = None /\ put_raid_cache dsk blk buf w' = None.
Proof.
  unfold close_raid_cache. intros Hrun.
  apply bind_Some in Hrun as (c & w0 & Hc & Hrun).
  apply cache_gets_Some in Hc. simplify_eq.
  apply bind_Some in Hrun as (u & w1 & Hfree & Hret).
  apply ret_Some in Hret. simplify_eq.
  apply free_buckets_footprint in Hfree as (Hb & Hh & Hd & _).
  split_and!; try done.
  intros dsk blk buf Hrange Huse.
  assert (hashfunction dsk blk ∈ dangling w1.1) as Hdangling.
  { rewrite Hd. apply elem_of_union_l, elem_of_list_to_set, list_elem_of_In, filter_In.
    split; [|done]. apply list_elem_of_In, elem_of_seqZ. lia. }
  assert (forall v : World, dangling v.1 = dangling w1.1 ->
                            load_chain (hashfunction dsk blk) v = None) as Hload.
  { intros v Hv. unfold load_chain, bind, cache_gets, gets, undefined.
    rewrite Hv. by rewrite bool_decide_eq_true_2. }
  split.
  - unfold get_raid_cache, bind, cache_modify, modify. by rewrite Hload.
  - unfold put_raid_cache, bind. by rewrite Hload.
Qed.

End CloseCache.

Section CacheOperationScenarios.
Import raid_cache lifecycle scenario.

Local Notation small_put :=
  (@put_raid_cache small_header RaidArray (@array_server small_header)).

Lemma get_raid_cache_only_reads_witness :
  get_raid_cache 0 0 (cache_after two_puts)
  = Some (Some bytes_A, cache_state_after (get_raid_cache 0 0) (cache_after two_puts)) /\
  Some bytes_A
  = match cached_at (fst (cache_after two_puts)) 0 0 with
    | Some a => value_buf <$> queue_nodes (fst (cache_after two_puts)) !! a
    | None => None
    end.
Proof.
  assert (get_raid_cache 0 0 (cache_after two_puts)
          = Some (Some bytes_A, cache_state_after (get_raid_cache 0 0) (cache_after two_puts)))
    as Hrun by (vm_compute; reflexivity).
  split; [exact Hrun|].
  exact (proj1 (@get_raid_cache_only_reads RaidArray 0 0 (cache_after two_puts)
                  (cache_state_after (get_raid_cache 0 0) (cache_after two_puts))
                  (Some bytes_A) Hrun)).
Defined.

Lemma put_raid_cache_without_eviction_witness :
  small_put 0 0 bytes_A cache_initialised
  = Some (0, cache_state_after (small_put 0 0 bytes_A) cache_initialised) /\
  (capacity (cache_queue (fst cache_initialised)) < @TAGLINE_CACHE_SIZE small_header \/
   is_Some (cached_at (fst cache_initialised) 0 0)) /\
  0 = 0 /\
  snd (cache_state_after (small_put 0 0 bytes_A) cache_initialised) = snd cache_initialised.
Proof.
  assert (small_put 0 0 bytes_A cache_initialised
          = Some (0, cache_state_after (small_put 0 0 bytes_A) cache_initialised))
    as Hrun by (vm_compute; reflexivity).
  assert (capacity (cache_queue (fst cache_initialised)) < @TAGLINE_CACHE_SIZE small_header \/
          is_Some (cached_at (fst cache_initialised) 0 0)) as Hcase by (left; vm_compute; reflexivity).
  split; [exact Hrun|]. split; [exact Hcase|].
  exact (@put_raid_cache_without_eviction small_header RaidArray (@array_server small_header)
           0 0 bytes_A cache_initialised
           (cache_state_after (small_put 0 0 bytes_A) cache_initialised) 0 Hrun Hcase).
Defined.

Lemma cache_after_off_array_puts_counted : counted (fst (cache_after off_array_puts)).
Proof.
  assert (@init_raid_cache RaidArray 2 cache_boot = Some (0, cache_initialised)) as Hinit
    by (vm_compute; reflexivity).
  assert (@run_cache_ops small_header RaidArray (@array_server small_header) off_array_puts
            cache_initialised
          = Some ([0; 0], cache_after off_array_puts)) as Hrun by (vm_compute; reflexivity).
  apply init_raid_cache_counted in Hinit as (_ & Hc0 & Hcap0 & _).
  assert (Forall (fun r => r = 0) [0; 0]) as Hrs by (repeat constructor).
  assert (2 <= @TAGLINE_CACHE_SIZE small_header) as Hsize by (cbn; lia).
  assert (capacity (cache_queue (fst cache_initialised)) <= @TAGLINE_CACHE_SIZE small_header)
    as Hcap by (rewrite Hcap0; cbn; lia).
  exact (proj1 (@run_cache_ops_counted small_header RaidArray (@array_server small_header)
                  off_array_puts cache_initialised (cache_after off_array_puts) [0; 0]
                  Hrun Hrs Hsize Hc0 Hcap)).
Qed.

(** The block put first is kept for disk 9, which the array does not
    have: the write that would evict it is refused. *)
Lemma put_raid_cache_failure_keeps_the_block_witness :
  counted (fst (cache_after off_array_puts)) /\
  small_put 2 0 bytes_C (cache_after off_array_puts)
  = Some (-1, cache_state_after (small_put 2 0 bytes_C) (cache_after off_array_puts)) /\
  -1 <> 0 /\
  -1 = -1 /\
  @TAGLINE_CACHE_SIZE small_header <= capacity (cache_queue (fst (cache_after off_array_puts))) /\
  cached_at (fst (cache_after off_array_puts)) 2 0 = None /\
  live_entries (fst (cache_state_after (small_put 2 0 bytes_C) (cache_after off_array_puts)))
  = S (live_entries (fst (cache_after off_array_puts))) /\
  capacity (cache_queue (fst (cache_state_after (small_put 2 0 bytes_C)
                                (cache_after off_array_puts))))
  = capacity (cache_queue (fst (cache_after off_array_puts))) + 1.
Proof.
  assert (small_put 2 0 bytes_C (cache_after off_array_puts)
          = Some (-1, cache_state_after (small_put 2 0 bytes_C) (cache_after off_array_puts)))
    as Hrun by (vm_compute; reflexivity).
  assert (-1 <> 0) as Hr by lia.
  split; [exact cache_after_off_array_puts_counted|]. split; [exact Hrun|]. split; [exact Hr|].
  exact (@put_raid_cache_failure_keeps_the_block small_header RaidArray
           (@array_server small_header) 2 0 bytes_C (cache_after off_array_puts)
           (cache_state_after (small_put 2 0 bytes_C) (cache_after off_array_puts)) (-1)
           cache_after_off_array_puts_counted Hrun Hr).
Defined.

Lemma put_of_the_only_block_links_it_to_itself_witness :
  cached_at (fst (cache_after [CachePut 0 0 bytes_A])) 0 0 = Some 0 /\
  queue_nodes (fst (cache_after [CachePut 0 0 bytes_A])) !! 0
  = Some (mkQueueNode bytes_A 0 None None (Some (0, 0%nat))) /\
  back_ptr (cache_queue (fst (cache_after [CachePut 0 0 bytes_A]))) = Some 0 /\
  small_put 0 0 bytes_B (cache_after [CachePut 0 0 bytes_A])
  = Some (0, cache_state_after (small_put 0 0 bytes_B) (cache_after [CachePut 0 0 bytes_A])) /\
  0 = 0 /\
  queue_nodes (fst (cache_state_after (small_put 0 0 bytes_B)
                      (cache_after [CachePut 0 0 bytes_A]))) !! 0
  = Some (mkQueueNode (memcpy bytes_A bytes_B (@RAID_BLOCK_SIZE small_header)) 0
            (Some 0) None (Some (0, 0%nat))) /\
  back_ptr (cache_queue (fst (cache_state_after (small_put 0 0 bytes_B)
                                (cache_after [CachePut 0 0 bytes_A])))) = Some 0 /\
  front_ptr (cache_queue (fst (cache_state_after (small_put 0 0 bytes_B)
                                 (cache_after [CachePut 0 0 bytes_A]))))
  = front_ptr (cache_queue (fst (cache_after [CachePut 0 0 bytes_A]))).
Proof.
  assert (cached_at (fst (cache_after [CachePut 0 0 bytes_A])) 0 0 = Some 0) as Hcached
    by (vm_compute; reflexivity).
  assert (queue_nodes (fst (cache_after [CachePut 0 0 bytes_A])) !! 0
          = Some (mkQueueNode bytes_A 0 None None (Some (0, 0%nat)))) as Hn
    by (vm_compute; reflexivity).
  assert (back_ptr (cache_queue (fst (cache_after [CachePut 0 0 bytes_A]))) = Some 0) as Hback
    by (vm_compute; reflexivity).
  assert (small_put 0 0 bytes_B (cache_after [CachePut 0 0 bytes_A])
          = Some (0, cache_state_after (small_put 0 0 bytes_B)
                       (cache_after [CachePut 0 0 bytes_A]))) as Hrun
    by (vm_compute; reflexivity).
  split; [exact Hcached|]. split; [exact Hn|]. split; [exact Hback|]. split; [exact Hrun|].
  exact (@put_of_the_only_block_links_it_to_itself small_header RaidArray
           (@array_server small_header) 0 0 bytes_B (cache_after [CachePut 0 0 bytes_A])
           (cache_state_after (small_put 0 0 bytes_B) (cache_after [CachePut 0 0 bytes_A]))
           0 0 (mkQueueNode bytes_A 0 None None (Some (0, 0%nat)))
           Hcached Hn eq_refl eq_refl Hback Hrun).
Defined.

Lemma close_raid_cache_drops_the_blocks_witness :
  close_raid_cache (cache_after two_puts)
  = Some (0, cache_state_after close_raid_cache (cache_after two_puts)) /\
  0 = 0 /\
  snd (cache_state_after close_raid_cache (cache_after two_puts)) = snd (cache_after two_puts) /\
  hashtable (fst (cache_state_after close_raid_cache (cache_after two_puts)))
  = hashtable (fst (cache_after two_puts)) /\
  forall (dsk blk : Z) (buf : list byte),
    0 <= hashfunction dsk blk < HASHTABLE_SIZE ->
    bucket_in_use (fst (cache_after two_puts)) (hashfunction dsk blk) = true ->
    get_raid_cache dsk blk (cache_state_after close_raid_cache (cache_after two_puts)) = None /\
    small_put dsk blk buf (cache_state_after close_raid_cache (cache_after two_puts)) = None.
Proof.
  assert (close_raid_cache (cache_after two_puts)
          = Some (0, cache_state_after close_raid_cache (cache_after two_puts))) as Hrun
    by (vm_compute; reflexivity).
  split; [exact Hrun|].
  exact (@close_raid_cache_drops_the_blocks small_header RaidArray (@array_server small_header)
           (cache_after two_puts) (cache_state_after close_raid_cache (cache_after two_puts))
           0 Hrun).
Defined.

End CacheOperationScenarios.

(** ** Further properties of the driver *)

Section DriverEdges.
Context `{RaidBusHeader} {B : Type} `{RaidServer B}.
Import tagline_driver directory lifecycle.

Local Abbreviation Machine := (Machine (B := B)).

(** The search loop on a list of taglines numbered in order from [k]. *)
Lemma find_tag_numbered (k : nat) (tags : list TAGLINE) (tag : Z) :
  (forall i t, tags !! i = Some t -> tagline t = u16 (Z.of_nat (k + i))) ->
  Z.of_nat k <= tag ->
  (tag < Z.of_nat (k + length tags) -> tag < 2 ^ 16 ->
   find_tag tag tags = Some (Z.to_nat tag - k)%nat) /\
  (Z.of_nat (k + length tags) <= tag -> find_tag tag tags = None).
Proof.
  revert k. induction tags as [|t tags IH]; intros k Hnum Hk.
  - split; [simpl; lia|done].
  - pose proof (Hnum 0%nat t eq_refl) as Ht. rewrite Nat.add_0_r in Ht.
    assert (0 <= u16 (Z.of_nat k) <= Z.of_nat k) as Hu.
    { unfold u16. split; [apply Z.mod_pos_bound; lia|apply Z.mod_le; lia]. }
    destruct (decide (tag = Z.of_nat k)) as [->|Hne].
    + split; [|simpl; lia]. intros _ Hlt. simpl.
      assert ((tagline t =? Z.of_nat k) = true) as ->.
      { rewrite Ht. unfold u16. rewrite Z.mod_small by lia. lia. }
      f_equal. lia.
    + assert ((tagline t =? tag) = false) as Hneq by lia.
      destruct (IH (S k)) as [Hin Hout].
      { intros i t' Hi. rewrite (Hnum (S i) t' Hi). do 2 f_equal. lia. }
      { lia. }
      simpl. rewrite Hneq. split.
      * intros Hlt H16. rewrite Hin by (simpl in *; lia). simpl. f_equal. lia.
      * intros Hge. rewrite Hout by (simpl in *; lia). done.
Qed.

Lemma find_tag_in_use (d : Driver) (tag : Z) :
  driver_ok d -> 0 <= tag < 2 ^ 16 -> tag < taglines_in_use d ->
  find_tag tag (head_tag d) = Some (Z.to_nat tag).
Proof.
  intros (_ & _ & _ & _ & Hinuse & _ & Htags) Htag Hlt.
  destruct (find_tag_numbered 0 (head_tag d) tag) as [Hin _].
  - intros i t Hi. by destruct (Htags i t Hi).
  - lia.
  - rewrite Hin by (simpl; lia). f_equal. lia.
Qed.

Lemma find_tag_not_in_use (d : Driver) (tag : Z) :
  driver_ok d -> taglines_in_use d <= tag -> find_tag tag (head_tag d) = None.
Proof.
  intros (_ & _ & _ & _ & Hinuse & _ & Htags) Hge.
  destruct (find_tag_numbered 0 (head_tag d) tag) as [_ Hout].
  - intros i t Hi. by destruct (Htags i t Hi).
  - lia.
  - apply Hout. simpl. lia.
Qed.

Lemma tagline_read_block_rejects (tag bnum : Z) (buf : list byte) (s : Machine) :
  driver_ok (fst s) -> 0 <= tag < 2 ^ 16 -> 0 <= bnum < 2 ^ 32 ->
  (forall t, head_tag (fst s) !! Z.to_nat tag = Some t ->
             Z.of_nat (length (block_0 t)) <= bnum) ->
  tagline_read_block tag bnum buf s = Some ((-1, buf), s).
Proof.
  intros Hok Htag Hbnum Hend. unfold tagline_read_block.
  unfold driver_gets at 1. unfold bind at 1. unfold gets.
  destruct (tag >=? taglines_in_use s.1) eqn:Hin; [done|].
  pose proof Hok as (Hfreed & _ & _ & _ & Hinuse & _ & Htags).
  assert (tag < taglines_in_use s.1) as Hlt by lia.
  destruct (lookup_lt_is_Some_2 (head_tag s.1) (Z.to_nat tag)) as [t Ht]; [lia|].
  rewrite (bind_run _ _ _ _ _
             (get_max_start_allowed_run s tag _ t Hfreed (find_tag_in_use _ _ Hok Htag Hlt) Ht)).
  destruct (Htags _ _ Ht) as (_ & Hmax & _).
  specialize (Hend t Ht).
  assert ((bnum >=? max_start_allowed t) = true) as ->; [|done].
  rewrite Hmax. unfold u32. rewrite Z.mod_small by lia. lia.
Qed.

(** X10: in every state the driver goes through, a read of a tagline that
    does not exist, or that starts at or after the end of its tagline,
    returns [-1] and changes neither the buffer nor the state, whatever
    the number of blocks asked for. *)
Theorem tagline_read_rejects_unwritten_blocks (tag bnum blks : Z) (buf : list byte)
    (s : Machine) :
  reachable s -> 0 <= tag < 2 ^ 16 -> 0 <= bnum < 2 ^ 32 ->
  (forall t, head_tag (fst s) !! Z.to_nat tag = Some t ->
             Z.of_nat (length (block_0 t)) <= bnum) ->
  tagline_read tag bnum blks buf s = Some ((-1, buf), s).
Proof.
  intros Hreach%reachable_ok Htag Hbnum Hend.
  unfold tagline_read. destruct (blks >? 1) eqn:Hblks.
  - destruct (Z.to_nat blks) as [|n] eqn:Hn; [lia|]. simpl.
    rewrite Nat.mul_0_r, drop_0, Z.add_0_r.
    assert (u32 bnum = bnum) as -> by (unfold u32; rewrite Z.mod_small; lia).
    rewrite (bind_run _ _ _ _ _ (tagline_read_block_rejects tag bnum buf s Hreach Htag Hbnum Hend)).
    done.
  - by apply tagline_read_block_rejects.
Qed.

(** X11: in every state the driver goes through, a write to a tagline
    number at or above [taglines_in_use] is not refused: the error is
    logged and [get_max_start_allowed] then runs off the end of the list
    of taglines. *)
Theorem tagline_write_to_a_missing_tagline (tag bnum blks : Z) (buf : list byte)
    (s : Machine) :
  reachable s -> taglines_in_use (fst s) <= tag ->
  tagline_write tag bnum blks buf s = None.
Proof.
  intros Hreach%reachable_ok Hge.
  pose proof (find_tag_not_in_use _ _ Hreach Hge) as Hfind.
  assert (forall bnum buf, tagline_write_block tag bnum buf s = None) as Hblock.
  { intros bnum' buf'. unfold tagline_write_block, get_max_start_allowed.
    unfold bind at 1. unfold bind at 1.
    destruct (load_tags s) as [[tags s1]|] eqn:Hload; [|done].
    apply load_tags_Some in Hload as (_ & [= -> ->]).
    unfold bind at 1. by rewrite Hfind. }
  unfold tagline_write. destruct (blks >? 1) eqn:Hblks; [|apply Hblock].
  destruct (Z.to_nat blks) as [|n] eqn:Hn; [lia|]. simpl.
  unfold bind at 1. by rewrite Hblock.
Qed.

Lemma free_tags_Some (l : list TAGLINE) (s : Machine) (r : unit * Machine) :
  free_tags l s = Some r -> Forall (fun t => block_0 t <> []) l /\ r = (tt, s).
Proof.
  revert r. induction l as [|t l IH]; intros r; simpl.
  - by intros ->%ret_Some.
  - intros Hrun. apply bind_Some in Hrun as (u & s1 & Hl & Hrun).
    apply IH in Hl as [Hall [= -> ->]].
    unfold free_block_linked_list in Hrun. destruct (block_0 t) eqn:Hb; [done|].
    apply ret_Some in Hrun as ->. split; [|done]. constructor; [congruence|done].
Qed.

Lemma close_raid_cache_Some (w w' : raid_cache.World (B := B)) (r : Z) :
  raid_cache.close_raid_cache w = Some (r, w') -> r = 0 /\ snd w' = snd w.
Proof.
  unfold raid_cache.close_raid_cache. intros Hrun.
  apply bind_Some in Hrun as (c & w0 & Hc & Hrun).
  apply cache_gets_Some in Hc. simplify_eq.
  apply bind_Some in Hrun as (u & w1 & Hfree & Hret).
  apply ret_Some in Hret. simplify_eq.
  by apply free_buckets_footprint in Hfree as (Hb & _).
Qed.

(** A request without a buffer reaches the server as it is, with no
    block. *)
Lemma bus_request_without_buffer (op : Z) (w w' : raid_cache.World (B := B))
    (a : Z * option (list byte)) :
  raid_cache.bus_request op None w = Some (a, w') ->
  fst w' = fst w /\ snd w' = snd (server_exchange op [] (snd w)).
Proof.
  unfold raid_cache.bus_request, raid_client.client_raid_bus_request. intros Hrun.
  apply zoom_Some in Hrun as (a' & b & Hrun & [= -> ->]). cbn.
  split; [done|]. cbn in Hrun. rewrite take_nil in Hrun.
  assert (forall c : bool, (if c then @nil byte else []) = []) as Hsent by (by intros []).
  rewrite Hsent in Hrun. unfold bind in Hrun.
  destruct (server_exchange op [] w.2) as [[[rop [data|]]|] b']; cbn in *;
    by apply ret_Some in Hrun as [= _ ->].
Qed.

Lemma tagline_close_Some (s s' : Machine) (r : Z) :
  tagline_close s = Some (r, s') ->
  snd (snd s')
  = snd (server_exchange (generate_RAIDOpCode (mkRequest (u8 RAID_CLOSE) 0 0 0 0 0)) []
           (snd (snd s))) /\
  containers_allocated (fst s) = true /\
  ((r = -1 /\ fst s' = fst s) \/
   (r = 0 /\ head_tag (fst s) <> [] /\
    Forall (fun t => block_0 t <> []) (head_tag (fst s)) /\
    fst s'
    = with_buf_read None
        (with_containers_allocated false (with_directory_freed true (fst s))))).
Proof.
  unfold tagline_close, free_tag_linked_list. intros Hrun.
  apply bind_Some in Hrun as (r0 & s0 & Hclose & Hrun).
  apply in_cache_Some in Hclose as (r0' & w0 & Hclose & [= -> ->]).
  apply close_raid_cache_Some in Hclose as [-> Hw0]. cbn in Hrun.
  apply bind_Some in Hrun as (u0 & s0 & [Halloc [= -> ->]]%use_containers_Some & Hrun).
  cbn in Halloc.
  apply bind_Some in Hrun as (answer & s1 & Hbus & Hrun).
  apply bus_request_Some in Hbus as (a & w1 & Hbus & [= -> ->]).
  apply bus_request_without_buffer in Hbus as [_ Hw1]. cbn in Hw1. rewrite Hw0 in Hw1.
  destruct (negb (check_response _ _ =? 0)).
  { apply ret_Some in Hrun as [= -> ->]. split; [done|]. split; [done|]. by left. }
  apply bind_Some in Hrun as (tags & s2 & (Hfreed & [= -> ->])%load_tags_Some & Hrun).
  cbn in *. destruct (head_tag s.1) as [|t tags] eqn:Htags; [done|].
  apply bind_Some in Hrun as (u & s3 & Hfree & Hrun).
  apply bind_Some in Hfree as (u' & s4 & [Hall [= -> ->]]%free_tags_Some & Hfree).
  apply driver_modify_Some in Hfree as [= -> ->].
  apply bind_Some in Hrun as (u1 & s5 & [= -> ->]%driver_modify_Some & Hrun).
  apply bind_Some in Hrun as (u2 & s6 & [= -> ->]%driver_modify_Some & Hrun).
  apply ret_Some in Hrun as [= -> ->].
  split; [done|]. split; [done|]. right. split_and!; done.
Qed.

(** X12: [tagline_close] uses the [close] container, so it has a result
    only while the containers are allocated, and it returns [0] or [-1].
    A close that returns [-1] leaves the variables of the driver as they
    are.  It can return [0] only when there is at least one tagline and
    every tagline holds at least one block: [free_tag_linked_list] and
    [free_block_linked_list] read the node they are given without testing
    it for [NULL].  After a close that returned [0] the list of taglines
    is freed, the ten request and response containers and [buf_read] are
    freed and [NULL], and [head_tag], [taglines_in_use],
    [last_block_added], the allocation cursor and the two scheduled-block
    containers hold what they held. *)
Theorem tagline_close_needs_written_taglines (s s' : Machine) (r : Z) :
  tagline_close s = Some (r, s') ->
  containers_allocated (fst s) = true /\
  ((r = -1 /\ fst s' = fst s) \/
   (r = 0 /\ head_tag (fst s) <> [] /\
    Forall (fun t => block_0 t <> []) (head_tag (fst s)) /\
    fst s'
    = with_buf_read None
        (with_containers_allocated false (with_directory_freed true (fst s))))).
Proof.
  intros Hrun. by apply tagline_close_Some in Hrun as (_ & Halloc & Hcases).
Qed.

(** X13: [tagline_close] leaves [head_tag] pointing to the list it has
    freed.  After a close that returned [0] every [tagline_write] reads
    the freed list, and a second [tagline_driver_init] that is asked for
    at least one tagline cannot return [0]: [add_new_tag] walks the
    freed list to append to it. *)
Theorem tagline_close_leaves_a_dangling_directory (s s' : Machine) :
  tagline_close s = Some (0, s') ->
  (forall tag bnum blks buf, tagline_write tag bnum blks buf s' = None) /\
  (forall maxlines r s'', 0 < u32 maxlines ->
     tagline_driver_init maxlines s' = Some (r, s'') -> r = -1).
Proof.
  intros Hclose.
  apply tagline_close_Some in Hclose as (_ & _ & [[? _]|(_ & _ & _ & Hs')]); [lia|].
  assert (directory_freed (fst s') = true) as Hfreed by (by rewrite Hs').
  assert (forall s1 : Machine, directory_freed (fst s1) = true -> load_tags s1 = None) as Hload.
  { intros s1 Hs1. unfold load_tags, driver_gets, bind, gets. by rewrite Hs1. }
  split.
  - intros tag bnum blks buf.
    assert (forall bnum buf, tagline_write_block tag bnum buf s' = None) as Hblock.
    { intros bnum' buf'. unfold tagline_write_block, get_max_start_allowed.
      unfold bind at 1. unfold bind at 1. by rewrite Hload. }
    unfold tagline_write. destruct (blks >? 1) eqn:Hblks; [|apply Hblock].
    destruct (Z.to_nat blks) as [|n] eqn:Hn; [lia|]. simpl.
    unfold bind at 1. by rewrite Hblock.
  - intros maxlines r s'' Hmax Hrun. unfold tagline_driver_init in Hrun.
    destruct (Z.to_nat (u32 maxlines)) as [|n] eqn:Hn; [lia|].
    assert (forall (k : nat) (i : Z) (body : Z -> M Machine Z) (s1 s2 : Machine) (r1 : Z),
      (forall i s1 r1 s2, body i s1 = Some (r1, s2) -> fst s2 = fst s1) ->
      for_loop k i body s1 = Some (r1, s2) -> fst s2 = fst s1) as Hloop.
    { intros k i body s1 s2 r1 Hbody.
      apply (for_loop_invariant (fun s2 : Machine => fst s2 = fst s1)); [|done].
      intros i' s3 r3 s4 Heq Hb. rewrite <- Heq. by eapply Hbody. }
    dinv; try done.
    match goal with
    | Hf : for_loop _ _ _ (_, _) = Some (_, ?s1), Hg : add_new_tag ?s1 = Some _ |- _ =>
        apply Hloop in Hf; [|intros; dinv; done];
        unfold add_new_tag in Hg; unfold bind at 1 in Hg; unfold bind at 1 in Hg;
        rewrite Hload in Hg; [done|by rewrite Hf]
    end.
Qed.

(** X14: [tagline_close] sends one request to the bus, [RAID_CLOSE], and
    no block with it: the blocks the cache holds are not written to the
    disks when the driver closes. *)
Theorem tagline_close_writes_no_block (s s' : Machine) (r : Z) :
  tagline_close s = Some (r, s') ->
  snd (snd s')
  = snd (server_exchange (generate_RAIDOpCode (mkRequest (u8 RAID_CLOSE) 0 0 0 0 0)) []
           (snd (snd s))).
Proof. intros Hrun. by apply tagline_close_Some in Hrun as (Hbus & _). Qed.


End DriverEdges.

Section DriverWrites.
Context `{RaidBusHeader} {B : Type} `{RaidServer B}.
Import tagline_driver directory lifecycle.

Local Abbreviation Machine := (Machine (B := B)).

(** The search loop on a list of blocks numbered in order from [k]. *)
Lemma find_block_numbered (k : nat) (l : list BLOCK) (bnum : Z) :
  (forall j b, l !! j = Some b -> block b = u32 (Z.of_nat (k + j))) ->
  Z.of_nat k <= bnum -> bnum < Z.of_nat (k + length l) -> bnum < 2 ^ 32 ->
  find_block bnum l = Some (Z.to_nat bnum - k)%nat.
Proof.
  revert k. induction l as [|b l IH]; intros k Hnum Hk Hlt H32; [simpl in Hlt; lia|].
  pose proof (Hnum 0%nat b eq_refl) as Hb. rewrite Nat.add_0_r in Hb.
  assert (0 <= u32 (Z.of_nat k) <= Z.of_nat k) as Hu.
  { unfold u32. split; [apply Z.mod_pos_bound; lia|apply Z.mod_le; lia]. }
  simpl. destruct (decide (bnum = Z.of_nat k)) as [->|Hne].
  - assert ((block b =? Z.of_nat k) = true) as ->.
    { rewrite Hb. unfold u32. rewrite Z.mod_small by lia. lia. }
    f_equal. lia.
  - assert ((block b =? bnum) = false) as -> by lia.
    rewrite (IH (S k)); [simpl; f_equal; lia| |lia|simpl in *; lia|done].
    intros j b' Hj. rewrite (Hnum (S j) b' Hj). do 2 f_equal. lia.
Qed.

(** Where the search loops of a write stop in a directory numbered in
    order. *)
Lemma tagline_position (d : Driver) (tag : Z) (t : TAGLINE) :
  driver_ok d -> 0 <= tag < 2 ^ 16 -> head_tag d !! Z.to_nat tag = Some t ->
  find_tag tag (head_tag d) = Some (Z.to_nat tag).
Proof.
  intros Hok Htag Ht. apply find_tag_in_use; [done..|].
  destruct Hok as (_ & _ & _ & _ & -> & _).
  apply lookup_lt_Some in Ht. lia.
Qed.

(** X16: in every state the driver goes through, a one-block write of
    the block right after the end of a tagline that returns [0] has put
    the buffer into the cache twice, for the address under the allocation
    cursor and for the next one, has appended the block with these two
    addresses to its tagline, leaving the other taglines alone, and has
    moved the cursor by two allocations. *)
Theorem new_block_write_appends (tag bnum : Z) (buf : list byte) (s s' : Machine)
    (t : TAGLINE) :
  reachable s -> 0 <= tag < 2 ^ 16 ->
  head_tag (fst s) !! Z.to_nat tag = Some t ->
  bnum = max_start_allowed t ->
  tagline_write tag bnum 1 buf s = Some (0, s') ->
  let cd := current_disk (fst s) in
  let cb := current_block (fst s) in
  let cd1 := next_disk cd in
  let cb1 := next_block cd cb in
  head_tag (fst s')
  = <[Z.to_nat tag := appended t (mkBlock bnum cd cb (Some cd1) (Some cb1))]> (head_tag (fst s)) /\
  current_disk (fst s') = next_disk cd1 /\
  current_block (fst s') = next_block cd1 cb1 /\
  taglines_in_use (fst s') = taglines_in_use (fst s) /\
  exists w1,
    raid_cache.put_raid_cache cd cb buf (snd s) = Some (0, w1) /\
    raid_cache.put_raid_cache cd1 cb1 buf w1 = Some (0, snd s').
Proof.
  intros Hok%reachable_ok Htag Ht Hbnum Hrun. cbv zeta.
  pose proof (tagline_position _ _ _ Hok Htag Ht) as Hpos.
  destruct (tagline_write_block_cases _ _ _ _ _ _ Hok Hrun)
    as (i & t' & Hfind & Hi & Hcases).
  rewrite Hpos in Hfind. simplify_eq.
  destruct Hcases as [(? & _)|[(? & _)|(_ & Hnew)]]; [lia..|].
  cbv zeta in Hnew.
  destruct Hnew as (r1 & w1 & Hput1 & [(_ & [=] & _)|(-> & r2 & Hput2 & [(_ & [=] & _)|(-> & _ & Hmoved)])]).
  destruct Hmoved as (-> & -> & -> & _ & -> & _). split_and!; try done.
  by exists w1.
Qed.

(** X17: in every state the driver goes through, a one-block write of a
    new block that does not return [0] returns [-1] and is not undone.  When the put of the primary copy
    fails the address it was given stays consumed; when the put of the
    backup copy fails both addresses stay consumed and the block stays
    appended to its tagline, with no backup address recorded. *)
Theorem failed_new_block_write_is_not_undone (tag bnum : Z) (buf : list byte)
    (s s' : Machine) (t : TAGLINE) (r : Z) :
  reachable s -> 0 <= tag < 2 ^ 16 ->
  head_tag (fst s) !! Z.to_nat tag = Some t ->
  bnum = max_start_allowed t ->
  tagline_write tag bnum 1 buf s = Some (r, s') -> r <> 0 ->
  let cd := current_disk (fst s) in
  let cb := current_block (fst s) in
  let cd1 := next_disk cd in
  let cb1 := next_block cd cb in
  r = -1 /\
  ((head_tag (fst s') = head_tag (fst s) /\
    current_disk (fst s') = cd1 /\ current_block (fst s') = cb1 /\
    exists r1, r1 <> 0 /\
      raid_cache.put_raid_cache cd cb buf (snd s) = Some (r1, snd s')) \/
   (head_tag (fst s')
    = <[Z.to_nat tag := appended t (mkBlock bnum cd cb None None)]> (head_tag (fst s)) /\
    current_disk (fst s') = next_disk cd1 /\ current_block (fst s') = next_block cd1 cb1 /\
    exists w1 r2, r2 <> 0 /\
      raid_cache.put_raid_cache cd cb buf (snd s) = Some (0, w1) /\
      raid_cache.put_raid_cache cd1 cb1 buf w1 = Some (r2, snd s'))).
Proof.
  intros Hok%reachable_ok Htag Ht Hbnum Hrun Hr. cbv zeta.
  pose proof (tagline_position _ _ _ Hok Htag Ht) as Hpos.
  destruct (tagline_write_block_cases _ _ _ _ _ _ Hok Hrun)
    as (i & t' & Hfind & Hi & Hcases).
  rewrite Hpos in Hfind. simplify_eq.
  destruct Hcases as [(? & _)|[(? & _)|(_ & Hnew)]]; [lia..|].
  cbv zeta in Hnew.
  destruct Hnew as (r1 & w1 & Hput1 & [(Hr1 & -> & <- & Hmoved)|(-> & r2 & Hput2 & [(Hr2 & -> & Hmoved)|(_ & -> & _)])]);
    [| |done].
  - destruct Hmoved as (-> & -> & -> & _). split; [done|]. left. split_and!; try done.
    by exists r1.
  - destruct Hmoved as (-> & -> & -> & _). split; [done|]. right. split_and!; try done.
    by exists w1, r2.
Qed.

(** X18: in every state the driver goes through, a one-block write to a
    block its tagline holds already leaves the directory,
    [taglines_in_use], [last_block_added], the allocation cursor, the two
    scheduled-block containers and [buf_read] as they are (nothing is
    allocated, the block keeps its two addresses): it
    puts the buffer into the cache for the primary address of the block
    and, when this put returns [0], for its backup address, and returns
    [-1] as soon as a put does not return [0]. *)
Theorem overwrite_keeps_the_directory (tag bnum : Z) (buf : list byte) (s s' : Machine)
    (t : TAGLINE) (r : Z) :
  reachable s -> 0 <= tag < 2 ^ 16 ->
  head_tag (fst s) !! Z.to_nat tag = Some t ->
  0 <= bnum < max_start_allowed t ->
  tagline_write tag bnum 1 buf s = Some (r, s') ->
  fst s' = fst s /\
  exists b r1 w1,
    block_0 t !! Z.to_nat bnum = Some b /\
    raid_cache.put_raid_cache (RAID_disk b) (RAID_block b) buf (snd s) = Some (r1, w1) /\
    ((r1 <> 0 /\ r = -1 /\ snd s' = w1) \/
     (r1 = 0 /\
      exists bd bb r2,
        backup_disk b = Some bd /\ backup_block b = Some bb /\
        raid_cache.put_raid_cache bd bb buf w1 = Some (r2, snd s') /\
        r = (if r2 =? 0 then 0 else -1))).
Proof.
  intros Hok%reachable_ok Htag Ht Hbnum Hrun.
  pose proof (tagline_position _ _ _ Hok Htag Ht) as Hpos.
  destruct (tagline_write_block_cases _ _ _ _ _ _ Hok Hrun)
    as (i & t' & Hfind & Hi & Hcases).
  rewrite Hpos in Hfind. simplify_eq.
  destruct Hcases as [(? & _)|[(_ & Hold)|(? & _)]]; [lia| |lia].
  destruct Hold as (j & b & r1 & w1 & Hj & Hb & Hfst & Hput & Hrest).
  split; [done|]. exists b, r1, w1. split_and!; try done.
  destruct Hok as (_ & _ & _ & _ & _ & _ & Htags).
  destruct (Htags _ _ Ht) as (_ & Hmax & Hblocks).
  assert (max_start_allowed t <= Z.of_nat (length (block_0 t))) as Hle.
  { rewrite Hmax. unfold u32. apply Z.mod_le; lia. }
  assert (max_start_allowed t < 2 ^ 32) as H32.
  { rewrite Hmax. unfold u32. apply Z.mod_pos_bound. lia. }
  rewrite (find_block_numbered 0 (block_0 t) bnum) in Hj; [|intros; by apply Hblocks|simpl; lia..].
  rewrite Nat.sub_0_r in Hj. by simplify_eq.
Qed.

End DriverWrites.

(** ** The allocator, the initialisation and the traffic on the bus *)

Section Allocation.
Context `{RaidBusHeader} {B : Type} `{RaidServer B}.
Import tagline_driver directory lifecycle.

Local Abbreviation Machine := (Machine (B := B)).

Lemma allocation_address_succ (k : Z) :
  0 <= k ->
  allocation_address (k + 1)
  = (next_disk (fst (allocation_address k)),
     next_block (fst (allocation_address k)) (snd (allocation_address k))).
Proof.
  intros Hk. unfold allocation_address, next_disk, next_block, RAID_DISKS, RAID_DISKBLOCKS.
  cbn [fst snd].
  pose proof (Z.div_mod k 9 ltac:(lia)) as Hk9.
  pose proof (Z.mod_pos_bound k 9 ltac:(lia)) as Hr9.
  pose proof (Z.div_mod (k + 1) 9 ltac:(lia)) as Hk9'.
  pose proof (Z.mod_pos_bound (k + 1) 9 ltac:(lia)) as Hr9'.
  pose proof (Z.div_mod (k / 9) 4097 ltac:(lia)) as Hq.
  pose proof (Z.mod_pos_bound (k / 9) 4097 ltac:(lia)) as Hqr.
  pose proof (Z.div_mod ((k + 1) / 9) 4097 ltac:(lia)) as Hq'.
  pose proof (Z.mod_pos_bound ((k + 1) / 9) 4097 ltac:(lia)) as Hqr'.
  change (4096 + 1) with 4097.
  repeat case_match; f_equal; lia.
Qed.

(** X19: [RAID_scheduler] hands out the addresses of the array round
    robin.  With the cursor at allocation number [n], disk [n mod 9] and
    block [(n / 9) mod 4097], it returns [0], writes this address to the
    container it is given and moves the cursor to allocation number
    [n + 1], whatever [primary_disk] is: it never reports a full array,
    and it hands out the block numbers [0 .. 4096]. *)
Theorem RAID_scheduler_round_robin (slot : SCHEDULED_BLOCK -> Driver -> Driver)
    (primary_disk : Z) (n : nat) (d : Driver) (w : raid_cache.World (B := B)) :
  RAID_scheduler slot primary_disk (at_allocation (Z.of_nat n) d, w)
  = Some (0, (at_allocation (Z.of_nat n + 1)
                (slot (mkScheduled (fst (allocation_address (Z.of_nat n)))
                                   (snd (allocation_address (Z.of_nat n))))
                   (at_allocation (Z.of_nat n) d)), w)).
Proof.
  assert (0 <= fst (allocation_address (Z.of_nat n)) < RAID_DISKS /\
          0 <= snd (allocation_address (Z.of_nat n)) <= RAID_DISKBLOCKS) as [Hd Hb].
  { unfold allocation_address, RAID_DISKS, RAID_DISKBLOCKS. cbn [fst snd].
    pose proof (Z.mod_pos_bound (Z.of_nat n) 9 ltac:(lia)).
    pose proof (Z.mod_pos_bound (Z.of_nat n / 9) (4096 + 1) ltac:(lia)). lia. }
  rewrite RAID_scheduler_run by (cbn; done).
  unfold at_allocation. rewrite allocation_address_succ by lia. done.
Qed.

(** The loop of [tagline_driver_init] over [add_new_tag]. *)
Lemma add_new_tags_run (n : nat) (i : Z) (s s' : Machine) (r : Z) :
  for_loop n i (fun _ => add_new_tag) s = Some (r, s') ->
  0 <= taglines_in_use (fst s) -> taglines_in_use (fst s) + Z.of_nat n < 2 ^ 32 ->
  r = 0 /\ snd s' = snd s /\
  fst s' =
    with_taglines_in_use (taglines_in_use (fst s) + Z.of_nat n)
      (with_head_tag
         (head_tag (fst s)
          ++ ((fun j : nat => mkTagline (u16 (Z.of_nat j)) 0 0 [])
                <$> seq (length (head_tag (fst s))) n))
         (fst s)).
Proof.
  revert i s. induction n as [|n IH]; intros i s Hrun Hpos Hlt; cbn in Hrun.
  - apply ret_Some in Hrun as [= -> ->]. split_and!; [done..|].
    destruct s as [[]]. cbn. by rewrite app_nil_r, Z.add_0_r.
  - apply bind_Some in Hrun as (r1 & s1 & Hadd & Hrun).
    apply add_new_tag_Some in Hadd as (-> & Hfreed & Hsnd & Hs1).
    cbn in Hrun. apply IH in Hrun as (-> & Hsnd' & Hs').
    + split_and!; [done|congruence|].
      rewrite Hs', Hs1. cbn. rewrite length_app. cbn.
      rewrite <- app_assoc. cbn.
      replace (length (head_tag s.1) + 1)%nat with (S (length (head_tag s.1))) by lia.
      unfold u32. rewrite Z.mod_small by lia.
      unfold with_taglines_in_use, with_head_tag. cbn. f_equal. lia.
    + rewrite Hs1. cbn. unfold u32. rewrite Z.mod_small by lia. lia.
    + rewrite Hs1. cbn. unfold u32. rewrite Z.mod_small by lia. lia.
Qed.

(** X20: a [tagline_driver_init] of the program as it starts that
    returns [0] has created [maxlines] taglines, numbered from [0] in
    the order of the list (as [uint16_t] values) and all empty, and has
    left the allocation cursor at disk 0, block 0. *)
Theorem tagline_driver_init_creates_empty_taglines (maxlines : Z)
    (w : raid_cache.World (B := B)) (s : Machine) :
  tagline_driver_init maxlines (startup, w) = Some (0, s) ->
  head_tag (fst s)
  = (fun j : nat => mkTagline (u16 (Z.of_nat j)) 0 0 []) <$> seq 0 (Z.to_nat (u32 maxlines)) /\
  taglines_in_use (fst s) = u32 maxlines /\
  current_disk (fst s) = 0 /\ current_block (fst s) = 0 /\
  directory_freed (fst s) = false.
Proof.
  unfold tagline_driver_init. intros Hrun.
  assert (forall (k : nat) (i : Z) (body : Z -> M Machine Z) (s1 s2 : Machine) (r1 : Z),
    (forall i s1 r1 s2, body i s1 = Some (r1, s2) -> fst s2 = fst s1) ->
    for_loop k i body s1 = Some (r1, s2) -> fst s2 = fst s1) as Hloop.
  { intros k i body s1 s2 r1 Hbody.
    apply (for_loop_invariant (fun s2 : Machine => fst s2 = fst s1)); [|done].
    intros i' s3 r3 s4 Heq Hb. rewrite <- Heq. by eapply Hbody. }
  pose proof (Z.mod_pos_bound maxlines (2 ^ 32) ltac:(lia)) as Hmax.
  dinv.
  match goal with
  | Hf : for_loop _ _ _ (_, _) = Some (_, ?s1), Hg : for_loop _ _ _ ?s1 = Some _ |- _ =>
      apply Hloop in Hf; [|intros; dinv; done];
      apply add_new_tags_run in Hg as (_ & _ & ->); rewrite Hf; cbn; [|lia|unfold u32; lia]
  end.
  unfold u32. split_and!; try done. lia.
Qed.

End Allocation.

Section BusTraffic.
Context `{RaidBusHeader} {B : Type} `{RaidServer B}.
Import tagline_driver directory lifecycle.

Local Abbreviation Machine := (Machine (B := B)).

(** A put into a cache with room returns [0], sends nothing to the bus
    and takes the room of one block at most. *)
Lemma put_raid_cache_with_room (dsk blk : Z) (buf : list byte)
    (w w' : raid_cache.World (B := B)) (r : Z) :
  raid_cache.put_raid_cache dsk blk buf w = Some (r, w') ->
  raid_cache.capacity (raid_cache.cache_queue (fst w)) < TAGLINE_CACHE_SIZE ->
  r = 0 /\ snd w' = snd w /\
  raid_cache.capacity (raid_cache.cache_queue (fst w'))
  <= raid_cache.capacity (raid_cache.cache_queue (fst w)) + 1.
Proof.
  unfold raid_cache.put_raid_cache. intros Hrun Hroom.
  cinv; zbool; subst.
  all: try match goal with
       | He : raid_cache.update_block_in_queue _ _ = Some _ |- _ =>
           apply update_block_in_queue_footprint in He as (? & _ & Hcap & _ & ?); cbn in *
       end.
  all: try match goal with
       | He : raid_cache.insert_in_queue _ _ = Some _ |- _ =>
           destruct (insert_in_queue_without_eviction _ _ _ _ He) as [? ?]; [cbn; lia|];
           apply insert_in_queue_footprint in He
             as (_ & [(? & _ & Hcap)|[(? & _ & _ & Hcap)|(? & Hgt & _)]]); cbn in *
       end.
  all: try lia.
  all: split_and!; try done; try lia.
Qed.

(** X21: in every state the driver goes through, a one-block write into
    a cache with room for two more blocks returns [0] and sends nothing
    to the bus: what it writes stays in the cache. *)
Theorem write_with_room_stays_in_the_cache (tag bnum : Z) (buf : list byte)
    (s s' : Machine) (r : Z) :
  reachable s ->
  raid_cache.capacity (raid_cache.cache_queue (fst (snd s))) + 2 <= TAGLINE_CACHE_SIZE ->
  tagline_write tag bnum 1 buf s = Some (r, s') ->
  r = 0 /\ snd (snd s') = snd (snd s).
Proof.
  intros Hok%reachable_ok Hroom Hrun.
  destruct (tagline_write_block_cases _ _ _ _ _ _ Hok Hrun)
    as (i & t & _ & _ & [(_ & -> & ->)|[(_ & Hold)|(_ & Hnew)]]); [done| |].
  - destruct Hold as (j & b & r1 & w1 & _ & _ & _ & Hput & Hrest).
    apply put_raid_cache_with_room in Hput as (-> & Hbus & Hcap); [|lia].
    destruct Hrest as [(? & _)|(_ & bd & bb & r2 & _ & _ & Hput2 & ->)]; [done|].
    apply put_raid_cache_with_room in Hput2 as (-> & Hbus2 & _); [|lia].
    split; [done|congruence].
  - cbv zeta in Hnew. destruct Hnew as (r1 & w1 & Hput & Hrest).
    apply put_raid_cache_with_room in Hput as (-> & Hbus & Hcap); [|lia].
    destruct Hrest as [(? & _)|(_ & r2 & Hput2 & Hrest)]; [done|].
    apply put_raid_cache_with_room in Hput2 as (-> & Hbus2 & _); [|lia].
    destruct Hrest as [(? & _)|(_ & -> & _)]; [done|].
    split; [done|congruence].
Qed.

(** X22: [tagline_read] leaves the directory, [taglines_in_use],
    [last_block_added], the allocation cursor, the two scheduled-block
    containers and [buf_read] as they are, whatever it returns and however
    many blocks it reads: beside its request and response containers, a
    read changes the cache and the caller's buffer only. *)
Theorem tagline_read_changes_no_driver_variable (tag bnum blks : Z) (buf : list byte)
    (s s' : Machine) (r : Z * list byte) :
  tagline_read tag bnum blks buf s = Some (r, s') -> fst s' = fst s.
Proof.
  unfold tagline_read. destruct (blks >? 1).
  - apply tagline_read_blocks_directory.
  - apply tagline_read_block_directory.
Qed.

Lemma with_buf_read_trans (d1 d2 d3 : Driver) :
  d2 = d1 \/ (exists buf, d2 = with_buf_read (Some buf) d1) ->
  d3 = d2 \/ (exists buf, d3 = with_buf_read (Some buf) d2) ->
  d3 = d1 \/ (exists buf, d3 = with_buf_read (Some buf) d1).
Proof.
  intros [->|[b1 ->]] [->|[b2 ->]]; [by left|right..].
  - by exists b2.
  - by exists b1.
  - by exists b2.
Qed.

Lemma recover_block_buf_read (dsk : Z) (b : BLOCK) (s s' : Machine) (r : Z) :
  recover_block dsk b s = Some (r, s') ->
  fst s' = fst s \/ exists buf, fst s' = with_buf_read (Some buf) (fst s).
Proof.
  unfold recover_block. intros Hrun. destruct s as [d w].
  dinv; first [by left | right; by eexists].
Qed.

Lemma recover_blocks_buf_read (dsk : Z) (l : list BLOCK) (s s' : Machine) (r : Z) :
  recover_blocks dsk l s = Some (r, s') ->
  fst s' = fst s \/ exists buf, fst s' = with_buf_read (Some buf) (fst s).
Proof.
  revert s. induction l as [|b l IH]; intros s Hrun; simpl in Hrun.
  - apply ret_Some in Hrun as [= _ ->]. by left.
  - apply bind_Some in Hrun as (r1 & s1 & Hb & Hrun).
    apply recover_block_buf_read in Hb.
    destruct (negb (r1 =? 0)).
    + by apply ret_Some in Hrun as [= _ ->].
    + eapply with_buf_read_trans; [exact Hb|]. by apply IH.
Qed.

Lemma recover_tags_buf_read (dsk : Z) (l : list TAGLINE) (s s' : Machine) (r : Z) :
  recover_tags dsk l s = Some (r, s') ->
  fst s' = fst s \/ exists buf, fst s' = with_buf_read (Some buf) (fst s).
Proof.
  revert s. induction l as [|t l IH]; intros s Hrun; simpl in Hrun.
  - apply ret_Some in Hrun as [= _ ->]. by left.
  - apply bind_Some in Hrun as (r1 & s1 & Hb & Hrun).
    apply recover_blocks_buf_read in Hb.
    destruct (negb (r1 =? 0)).
    + by apply ret_Some in Hrun as [= _ ->].
    + eapply with_buf_read_trans; [exact Hb|]. by apply IH.
Qed.

Lemma signal_disk_buf_read (dsk : Z) (s s' : Machine) (r : Z) :
  signal_disk dsk s = Some (r, s') ->
  fst s' = fst s \/ exists buf, fst s' = with_buf_read (Some buf) (fst s).
Proof.
  unfold signal_disk. intros Hrun. dinv.
  all: repeat match goal with
       | Hr : recover_tags _ _ _ = Some _ |- _ =>
           apply recover_tags_buf_read in Hr; cbn in Hr
       | Hr : recover_blocks _ _ _ = Some _ |- _ =>
           apply recover_blocks_buf_read in Hr; cbn in Hr
       end; first [by left | eauto using with_buf_read_trans].
Qed.

(** X23: whatever it returns, [raid_disk_signal] leaves the directory,
    [taglines_in_use], [last_block_added], the allocation cursor, the two
    scheduled-block containers and the pointers to the request and
    response containers as they are, and changes [buf_read] only, which
    points to a buffer afterwards: the recovery of a disk copies blocks
    to the addresses the directory holds for them and moves neither a
    block nor the allocation cursor. *)
Theorem raid_disk_signal_changes_buf_read_only (s s' : Machine) (r : Z) :
  raid_disk_signal s = Some (r, s') ->
  exists buf, fst s' = with_buf_read (Some buf) (fst s).
Proof.
  unfold raid_disk_signal. intros Hrun.
  apply bind_Some in Hrun as (u & s1 & [= -> ->]%driver_modify_Some & Hrun).
  apply bind_Some in Hrun as (u' & s2 & [_ [= -> ->]]%use_containers_Some & Hrun).
  revert Hrun.
  apply (for_loop_invariant
           (fun s1 : Machine => exists buf, fst s1 = with_buf_read (Some buf) (fst s))).
  - intros i s1 r1 s1' [b Hsame] Hrun.
    apply signal_disk_buf_read in Hrun as [->|[b' ->]]; rewrite Hsame.
    + by exists b.
    + by exists b'.
  - by eexists.
Qed.

End BusTraffic.

(** ** The driver on the scenarios *)

Section DriverScenarios.
Import tagline_driver directory lifecycle scenario.

Lemma initialised_reachable : reachable initialised.
Proof. eapply reach_init. exact initialised_run. Qed.

Lemma initialised_directory : head_tag (fst initialised) = [mkTagline 0 0 0 []].
Proof. vm_compute. reflexivity. Qed.

Lemma initialised_capacity :
  raid_cache.capacity (raid_cache.cache_queue (fst (snd initialised))) = 0.
Proof. vm_compute. reflexivity. Qed.

Lemma first_write_directory :
  head_tag (fst first_write) = [mkTagline 0 1 1 [mkBlock 0 0 0 (Some 1) (Some 0)]].
Proof. vm_compute. reflexivity. Qed.

Lemma first_write_taglines_in_use : taglines_in_use (fst first_write) = 1.
Proof. vm_compute. reflexivity. Qed.

Lemma overwritten_run : tagline_write 0 0 1 block_B first_write = Some (0, overwritten).
Proof. vm_compute. reflexivity. Qed.

Lemma read_back_run :
  tagline_read 0 0 1 block_B first_write = Some ((0, block_A), read_back).
Proof. vm_compute. reflexivity. Qed.

Lemma signalled_run : raid_disk_signal first_write = Some (0, signalled).
Proof. vm_compute. reflexivity. Qed.

Lemma closed_run : tagline_close first_write = Some (0, closed).
Proof. vm_compute. reflexivity. Qed.

Lemma tagline_read_rejects_unwritten_blocks_witness :
  reachable first_write /\
  (forall t, head_tag (fst first_write) !! Z.to_nat 0 = Some t ->
             Z.of_nat (length (block_0 t)) <= 1) /\
  tagline_read 0 1 1 block_A first_write = Some ((-1, block_A), first_write).
Proof.
  assert (forall t, head_tag (fst first_write) !! Z.to_nat 0 = Some t ->
                    Z.of_nat (length (block_0 t)) <= 1) as Hend.
  { intros t. rewrite first_write_directory. intros [= <-]. cbn. lia. }
  split; [exact first_write_reachable|]. split; [exact Hend|].
  exact (tagline_read_rejects_unwritten_blocks 0 1 1 block_A first_write
           first_write_reachable ltac:(lia) ltac:(lia) Hend).
Defined.

Lemma tagline_write_to_a_missing_tagline_witness :
  reachable first_write /\ taglines_in_use (fst first_write) <= 1 /\
  tagline_write 1 0 1 block_A first_write = None.
Proof.
  assert (taglines_in_use (fst first_write) <= 1) as Hge.
  { rewrite first_write_taglines_in_use. lia. }
  split; [exact first_write_reachable|]. split; [exact Hge|].
  exact (tagline_write_to_a_missing_tagline 1 0 1 block_A first_write
           first_write_reachable Hge).
Defined.

Lemma tagline_close_needs_written_taglines_witness :
  tagline_close first_write = Some (0, closed) /\
  containers_allocated (fst first_write) = true /\
  ((0 = -1 /\ fst closed = fst first_write) \/
   (0 = 0 /\ head_tag (fst first_write) <> [] /\
    Forall (fun t => block_0 t <> []) (head_tag (fst first_write)) /\
    fst closed
    = with_buf_read None
        (with_containers_allocated false (with_directory_freed true (fst first_write))))).
Proof.
  split; [exact closed_run|].
  exact (tagline_close_needs_written_taglines first_write closed 0 closed_run).
Defined.

Lemma tagline_close_leaves_a_dangling_directory_witness :
  tagline_close first_write = Some (0, closed) /\
  (forall tag bnum blks buf, tagline_write tag bnum blks buf closed = None) /\
  (forall maxlines r s'', 0 < u32 maxlines ->
     tagline_driver_init maxlines closed = Some (r, s'') -> r = -1).
Proof.
  split; [exact closed_run|].
  exact (tagline_close_leaves_a_dangling_directory first_write closed closed_run).
Defined.

Lemma tagline_close_writes_no_block_witness :
  tagline_close first_write = Some (0, closed) /\
  snd (snd closed)
  = snd (server_exchange (generate_RAIDOpCode (mkRequest (u8 RAID_CLOSE) 0 0 0 0 0)) []
           (snd (snd first_write))).
Proof.
  split; [exact closed_run|].
  exact (tagline_close_writes_no_block first_write closed 0 closed_run).
Defined.


Lemma new_block_write_appends_witness :
  reachable initialised /\
  head_tag (fst initialised) !! Z.to_nat 0 = Some (mkTagline 0 0 0 []) /\
  0 = max_start_allowed (mkTagline 0 0 0 []) /\
  tagline_write 0 0 1 block_A initialised = Some (0, first_write) /\
  (let cd := current_disk (fst initialised) in
   let cb := current_block (fst initialised) in
   let cd1 := next_disk cd in
   let cb1 := next_block cd cb in
   head_tag (fst first_write)
   = <[Z.to_nat 0 := appended (mkTagline 0 0 0 []) (mkBlock 0 cd cb (Some cd1) (Some cb1))]>
       (head_tag (fst initialised)) /\
   current_disk (fst first_write) = next_disk cd1 /\
   current_block (fst first_write) = next_block cd1 cb1 /\
   taglines_in_use (fst first_write) = taglines_in_use (fst initialised) /\
   exists w1,
     raid_cache.put_raid_cache cd cb block_A (snd initialised) = Some (0, w1) /\
     raid_cache.put_raid_cache cd1 cb1 block_A w1 = Some (0, snd first_write)).
Proof.
  assert (head_tag (fst initialised) !! Z.to_nat 0 = Some (mkTagline 0 0 0 [])) as Ht.
  { rewrite initialised_directory. reflexivity. }
  assert (0 = max_start_allowed (mkTagline 0 0 0 [])) as Hmax by reflexivity.
  split; [exact initialised_reachable|]. split; [exact Ht|]. split; [exact Hmax|].
  split; [exact first_write_run|].
  exact (new_block_write_appends 0 0 block_A initialised first_write (mkTagline 0 0 0 [])
           initialised_reachable ltac:(lia) Ht Hmax first_write_run).
Defined.

Lemma overwrite_keeps_the_directory_witness :
  reachable first_write /\
  head_tag (fst first_write) !! Z.to_nat 0
  = Some (mkTagline 0 1 1 [mkBlock 0 0 0 (Some 1) (Some 0)]) /\
  0 <= 0 < max_start_allowed (mkTagline 0 1 1 [mkBlock 0 0 0 (Some 1) (Some 0)]) /\
  tagline_write 0 0 1 block_B first_write = Some (0, overwritten) /\
  fst overwritten = fst first_write /\
  exists b r1 w1,
    block_0 (mkTagline 0 1 1 [mkBlock 0 0 0 (Some 1) (Some 0)]) !! Z.to_nat 0 = Some b /\
    raid_cache.put_raid_cache (RAID_disk b) (RAID_block b) block_B (snd first_write)
    = Some (r1, w1) /\
    ((r1 <> 0 /\ 0 = -1 /\ snd overwritten = w1) \/
     (r1 = 0 /\
      exists bd bb r2,
        backup_disk b = Some bd /\ backup_block b = Some bb /\
        raid_cache.put_raid_cache bd bb block_B w1 = Some (r2, snd overwritten) /\
        0 = (if r2 =? 0 then 0 else -1))).
Proof.
  assert (head_tag (fst first_write) !! Z.to_nat 0
          = Some (mkTagline 0 1 1 [mkBlock 0 0 0 (Some 1) (Some 0)])) as Ht.
  { rewrite first_write_directory. reflexivity. }
  assert (0 <= 0 < max_start_allowed (mkTagline 0 1 1 [mkBlock 0 0 0 (Some 1) (Some 0)]))
    as Hbnum by (cbn; lia).
  split; [exact first_write_reachable|]. split; [exact Ht|]. split; [exact Hbnum|].
  split; [exact overwritten_run|].
  exact (overwrite_keeps_the_directory 0 0 block_B first_write overwritten _ 0
           first_write_reachable ltac:(lia) Ht Hbnum overwritten_run).
Defined.

Lemma tagline_driver_init_creates_empty_taglines_witness :
  tagline_driver_init 1 (startup, (raid_cache.startup, blank_array)) = Some (0, initialised) /\
  head_tag (fst initialised)
  = (fun j : nat => mkTagline (u16 (Z.of_nat j)) 0 0 []) <$> seq 0 (Z.to_nat (u32 1)) /\
  taglines_in_use (fst initialised) = u32 1 /\
  current_disk (fst initialised) = 0 /\ current_block (fst initialised) = 0 /\
  directory_freed (fst initialised) = false.
Proof.
  split; [exact initialised_run|].
  exact (tagline_driver_init_creates_empty_taglines 1 (raid_cache.startup, blank_array)
           initialised initialised_run).
Defined.

Lemma write_with_room_stays_in_the_cache_witness :
  reachable initialised /\
  raid_cache.capacity (raid_cache.cache_queue (fst (snd initialised))) + 2
  <= TAGLINE_CACHE_SIZE /\
  tagline_write 0 0 1 block_A initialised = Some (0, first_write) /\
  0 = 0 /\ snd (snd first_write) = snd (snd initialised).
Proof.
  assert (raid_cache.capacity (raid_cache.cache_queue (fst (snd initialised))) + 2
          <= TAGLINE_CACHE_SIZE) as Hroom.
  { rewrite initialised_capacity. change TAGLINE_CACHE_SIZE with 8192. lia. }
  split; [exact initialised_reachable|]. split; [exact Hroom|].
  split; [exact first_write_run|].
  exact (write_with_room_stays_in_the_cache 0 0 block_A initialised first_write 0
           initialised_reachable Hroom first_write_run).
Defined.

Lemma tagline_read_changes_no_driver_variable_witness :
  tagline_read 0 0 1 block_B first_write = Some ((0, block_A), read_back) /\
  fst read_back = fst first_write.
Proof.
  split; [exact read_back_run|].
  exact (tagline_read_changes_no_driver_variable 0 0 1 block_B first_write read_back
           (0, block_A) read_back_run).
Defined.

Lemma raid_disk_signal_changes_buf_read_only_witness :
  raid_disk_signal first_write = Some (0, signalled) /\
  exists buf, fst signalled = with_buf_read (Some buf) (fst first_write).
Proof.
  split; [exact signalled_run|].
  exact (raid_disk_signal_changes_buf_read_only first_write signalled 0 signalled_run).
Defined.

End DriverScenarios.

Section SmallCacheScenarios.
Import tagline_driver directory lifecycle scenario.

Local Notation small_write :=
  (@tagline_write small_header RaidArray (@array_server small_header)).

Lemma small_initialised_run :
  @tagline_driver_init small_header RaidArray (@array_server small_header) 1 boot
  = Some (0, small_initialised).
Proof. vm_compute. reflexivity. Qed.

Lemma small_first_write_run :
  small_write 0 0 1 bytes_A small_initialised = Some (0, small_first_write).
Proof. vm_compute. reflexivity. Qed.

Lemma small_failed_backup_run :
  small_write 0 1 1 bytes_B (disk_fails 1 small_first_write) = Some (-1, small_failed_backup).
Proof. vm_compute. reflexivity. Qed.

Lemma small_disk_failure_reachable :
  @reachable small_header RaidArray (@array_server small_header)
    (disk_fails 1 small_first_write).
Proof.
  unfold disk_fails. apply reach_environment.
  eapply reach_write; [eapply reach_init; exact small_initialised_run|].
  exact small_first_write_run.
Qed.

Lemma small_disk_failure_directory :
  head_tag (fst (disk_fails 1 small_first_write))
  = [mkTagline 0 1 1 [mkBlock 0 0 0 (Some 1) (Some 0)]].
Proof. vm_compute. reflexivity. Qed.

Lemma failed_new_block_write_is_not_undone_witness :
  @reachable small_header RaidArray (@array_server small_header)
    (disk_fails 1 small_first_write) /\
  head_tag (fst (disk_fails 1 small_first_write)) !! Z.to_nat 0
  = Some (mkTagline 0 1 1 [mkBlock 0 0 0 (Some 1) (Some 0)]) /\
  1 = max_start_allowed (mkTagline 0 1 1 [mkBlock 0 0 0 (Some 1) (Some 0)]) /\
  small_write 0 1 1 bytes_B (disk_fails 1 small_first_write) = Some (-1, small_failed_backup) /\
  -1 <> 0 /\
  (let cd := current_disk (fst (disk_fails 1 small_first_write)) in
   let cb := current_block (fst (disk_fails 1 small_first_write)) in
   let cd1 := next_disk cd in
   let cb1 := next_block cd cb in
   -1 = -1 /\
   ((head_tag (fst small_failed_backup) = head_tag (fst (disk_fails 1 small_first_write)) /\
     current_disk (fst small_failed_backup) = cd1 /\
     current_block (fst small_failed_backup) = cb1 /\
     exists r1, r1 <> 0 /\
       @raid_cache.put_raid_cache small_header RaidArray (@array_server small_header)
         cd cb bytes_B (snd (disk_fails 1 small_first_write))
       = Some (r1, snd small_failed_backup)) \/
    (head_tag (fst small_failed_backup)
     = <[Z.to_nat 0 := appended (mkTagline 0 1 1 [mkBlock 0 0 0 (Some 1) (Some 0)])
                         (mkBlock 1 cd cb None None)]>
         (head_tag (fst (disk_fails 1 small_first_write))) /\
     current_disk (fst small_failed_backup) = next_disk cd1 /\
     current_block (fst small_failed_backup) = next_block cd1 cb1 /\
     exists w1 r2, r2 <> 0 /\
       @raid_cache.put_raid_cache small_header RaidArray (@array_server small_header)
         cd cb bytes_B (snd (disk_fails 1 small_first_write)) = Some (0, w1) /\
       @raid_cache.put_raid_cache small_header RaidArray (@array_server small_header)
         cd1 cb1 bytes_B w1 = Some (r2, snd small_failed_backup)))).
Proof.
  assert (head_tag (fst (disk_fails 1 small_first_write)) !! Z.to_nat 0
          = Some (mkTagline 0 1 1 [mkBlock 0 0 0 (Some 1) (Some 0)])) as Ht.
  { rewrite small_disk_failure_directory. reflexivity. }
  assert (1 = max_start_allowed (mkTagline 0 1 1 [mkBlock 0 0 0 (Some 1) (Some 0)]))
    as Hmax by reflexivity.
  assert (-1 <> 0) as Hr by lia.
  split; [exact small_disk_failure_reachable|]. split; [exact Ht|]. split; [exact Hmax|].
  split; [exact small_failed_backup_run|]. split; [exact Hr|].
  exact (@failed_new_block_write_is_not_undone small_header RaidArray
           (@array_server small_header) 0 1 bytes_B (disk_fails 1 small_first_write)
           small_failed_backup (mkTagline 0 1 1 [mkBlock 0 0 0 (Some 1) (Some 0)]) (-1)
           small_disk_failure_reachable ltac:(lia) Ht Hmax small_failed_backup_run Hr).
Defined.

End SmallCacheScenarios.

(** ** What a put leaves in the cache *)

(** [frame_cases] splits the lookups of the goal in updated heaps. *)
Ltac frame_cases :=
  repeat match goal with
         | |- context [<[?a := _]> _ !! ?a] => rewrite lookup_insert_eq
         | |- context [@lookup _ _ (gmap _ _) _ ?b (<[?a := _]> _)] =>
             destruct (decide (a = b)) as [Heq|?];
             [rewrite Heq in *; rewrite lookup_insert_eq
             |rewrite lookup_insert_ne by done]
         end.

Section PutThenGet.
Context `{RaidBusHeader} {B : Type} `{RaidServer B}.
Import raid_cache.

Local Abbreviation World := (World (B := B)).

(** Moving a node to the back of the queue changes pointers of the queue
    only: the hash table and the buffers of the nodes stay. *)
Lemma update_block_in_queue_keeps_blocks (node : option Z) (w w' : World) (r : Z) :
  update_block_in_queue node w = Some (r, w') ->
  hashtable (fst w') = hashtable (fst w) /\ dangling (fst w') = dangling (fst w) /\
  forall a, value_buf <$> queue_nodes (fst w') !! a = value_buf <$> queue_nodes (fst w) !! a.
Proof.
  unfold update_block_in_queue. intros Hrun. cinv.
  all: split_and!; try done.
  all: intros a0; heap_cases; frame_cases; cbn.
  all: repeat match goal with
       | Hl : ?m !! ?a = Some _ |- context [?m !! ?a] => rewrite Hl; cbn
       end.
  all: try done.
Qed.

Lemma insert_in_queue_keeps_blocks (node : option Z) (w w' : World) (r : Z) :
  insert_in_queue node w = Some (r, w') ->
  capacity (cache_queue (fst w)) < TAGLINE_CACHE_SIZE ->
  hashtable (fst w') = hashtable (fst w) /\ dangling (fst w') = dangling (fst w) /\
  forall a, value_buf <$> queue_nodes (fst w') !! a = value_buf <$> queue_nodes (fst w) !! a.
Proof.
  unfold insert_in_queue. intros Hrun Hroom. cinv; zbool; try lia.
  all: split_and!; try done.
  all: intros a0; heap_cases; frame_cases; cbn.
  all: repeat match goal with
       | Hl : ?m !! ?a = Some _ |- context [?m !! ?a] => rewrite Hl; cbn
       end.
  all: try done.
Qed.

Lemma find_pair_snoc (dsk blk : Z) (l : list HASH_NODE) (p : option Z) :
  find_pair dsk blk l = None ->
  find_pair dsk blk (l ++ [mkHashNode dsk blk p]) = Some (length l).
Proof.
  induction l as [|n l IH]; simpl.
  - by rewrite !Z.eqb_refl.
  - destruct ((disk n =? dsk) && (block n =? blk)); [done|].
    destruct (find_pair dsk blk l); [done|]. intros _. by rewrite IH.
Qed.

Lemma find_pair_insert (dsk blk : Z) (l : list HASH_NODE) (i : nat) (n : HASH_NODE)
    (p : option Z) :
  l !! i = Some n ->
  find_pair dsk blk (<[i := set_cache_block_ptr p n]> l) = find_pair dsk blk l.
Proof.
  revert i. induction l as [|n0 l IH]; intros i; [done|].
  destruct i as [|i]; simpl.
  - by intros [= ->].
  - intros Hi. by rewrite (IH i).
Qed.

(** What [get_raid_cache] returns for a pair whose hash node points to a
    queue node. *)
Lemma get_raid_cache_hit (dsk blk : Z) (w : World) (i : nat) (current : HASH_NODE)
    (a : Z) (n : QUEUE_NODE) :
  bucket_ok (fst w) (hashfunction dsk blk) ->
  find_pair dsk blk (chain (fst w) (hashfunction dsk blk)) = Some i ->
  chain (fst w) (hashfunction dsk blk) !! i = Some current ->
  cache_block_ptr current = Some a ->
  queue_nodes (fst w) !! a = Some n ->
  get_raid_cache dsk blk w
  = Some (Some (value_buf n), (count 0 0 1 0 (count 0 1 0 0 (fst w)), snd w)).
Proof.
  intros [Hfree Hrange] Hfind Hi Hptr Hn.
  unfold get_raid_cache, load_hash, load, load_chain, bind, cache_modify, cache_gets,
    modify, gets, deref, ret, undefined. cbn.
  rewrite bool_decide_eq_false_2 by done.
  assert ((hashfunction dsk blk <? 0) = false) as -> by lia.
  assert ((HASHTABLE_SIZE <=? hashfunction dsk blk) = false) as -> by lia.
  cbn. unfold chain in *. cbn.
  destruct (default [] (hashtable w.1 !! hashfunction dsk blk)) as [|first rest] eqn:Hchain;
    [done|].
  rewrite Hfind. cbn. rewrite bool_decide_eq_false_2 by done. cbn.
  rewrite Hchain, Hi. cbn. rewrite Hptr. cbn. rewrite Hn. done.
Qed.

Lemma get_of_kept_block (dsk blk : Z) (w0 w' : World) (i : nat) (current : HASH_NODE)
    (a : Z) (v : list byte) :
  bucket_ok (fst w0) (hashfunction dsk blk) ->
  find_pair dsk blk (chain (fst w0) (hashfunction dsk blk)) = Some i ->
  chain (fst w0) (hashfunction dsk blk) !! i = Some current ->
  cache_block_ptr current = Some a ->
  value_buf <$> queue_nodes (fst w0) !! a = Some v ->
  hashtable (fst w') = hashtable (fst w0) /\ dangling (fst w') = dangling (fst w0) /\
  (forall a, value_buf <$> queue_nodes (fst w') !! a = value_buf <$> queue_nodes (fst w0) !! a) ->
  exists w'', get_raid_cache dsk blk w' = Some (Some v, w'').
Proof.
  intros Hok Hfind Hi Hptr Hv (Hh & Hd & Hkeep).
  rewrite <- Hkeep in Hv.
  destruct (queue_nodes w'.1 !! a) as [n|] eqn:Hn; [|done].
  cbn in Hv. injection Hv as <-.
  eexists. apply (get_raid_cache_hit dsk blk w' i current a n); try done.
  - unfold bucket_ok in *. by rewrite Hd.
  - unfold chain in *. by rewrite Hh.
  - unfold chain in *. by rewrite Hh.
Qed.

(** X24: a put into a cache with room, or of a pair the cache holds
    already, is followed by a hit: a get of the same pair right after it
    returns the block that was put, in the first [RAID_BLOCK_SIZE] bytes
    of the buffer of its node. *)
Theorem get_after_put (dsk blk : Z) (buf : list byte) (w w' : World) (r : Z) :
  put_raid_cache dsk blk buf w = Some (r, w') ->
  capacity (cache_queue (fst w)) < TAGLINE_CACHE_SIZE \/
  is_Some (cached_at (fst w) dsk blk) ->
  exists old w'',
    get_raid_cache dsk blk w' = Some (Some (memcpy old buf RAID_BLOCK_SIZE), w'').
Proof.
  unfold put_raid_cache, cached_at. intros Hrun Hcase.
  cinv; zbool; subst.
  all: unfold chain in *; cbn in *.
  all: repeat match goal with
       | Hc : default [] _ = _ :: _, Hl : default [] _ !! _ = Some _ |- _ => rewrite Hc in Hl
       end.
  all: destruct Hcase as [?|[a Ha]].
  all: try match goal with
       | Hl : ?x = Some _, Ha : match ?x with _ => _ end = Some _ |- _ =>
           rewrite Hl in Ha; congruence
       end.
  all: try congruence.
  all: try match goal with
       | He : update_block_in_queue _ _ = Some _ |- _ =>
           apply update_block_in_queue_keeps_blocks in He
       | He : insert_in_queue _ _ = Some _ |- _ =>
           apply insert_in_queue_keeps_blocks in He; [|cbn; lia]
       end.
  all: eexists.
  all: try match goal with
       | He : _ /\ _ /\ (forall a, _ <$> _ = _) |- _ =>
           eapply get_of_kept_block; cycle 5; [exact He|..]
       end.
  all: try (eapply get_of_kept_block; cycle 5; [split_and!; reflexivity|..]).
  all: try (unfold bucket_ok in *; cbn in *; tauto).
  all: unfold chain; cbn; rewrite ?lookup_insert_eq; cbn.
  all: try reflexivity.
  all: repeat match goal with
       | Hc : default [] ?x = _ |- context [default [] ?x] => rewrite Hc
       end.
  all: repeat match goal with
       | Hc : default [] ?x = _, Hl : context [default [] ?x] |- _ =>
           lazymatch type of Hl with
           | default [] x = _ => fail
           | _ => rewrite Hc in Hl
           end
       end.
  all: repeat match goal with
       | Hl : context [<[?h := _]> _ !! ?h] |- _ =>
           rewrite lookup_insert_eq in Hl; cbn [from_option id] in Hl
       end.
  all: try match goal with
       | |- find_pair _ _ (<[_ := _]> (_ ++ [_])) = Some _ =>
           erewrite find_pair_insert by eassumption; apply find_pair_snoc;
           first [reflexivity | assumption]
       | |- find_pair _ _ (<[_ := _]> _) = Some _ =>
           erewrite find_pair_insert by eassumption;
           match goal with Hf : _ = Some _ |- _ => exact Hf end
       | |- find_pair _ _ _ = Some _ =>
           match goal with Hf : _ = Some _ |- _ => exact Hf end
       end.
  all: try match goal with
       | |- <[_ := _]> _ !! _ = Some _ =>
           apply list_lookup_insert_eq; rewrite ?length_app; cbn; try lia
       end.
  all: try reflexivity.
  all: try eassumption.
  all: try (eapply lookup_lt_Some; eassumption).
  all: heap_cases; cbn; try reflexivity.
  all: match goal with
       | Hl : (_ :: _) !! ?n = Some _ |- (?n < _)%nat =>
           apply lookup_lt_Some in Hl; cbn in Hl; lia
       end.
Qed.

End PutThenGet.

Section DriverReads.
Context `{RaidBusHeader} {B : Type} `{RaidServer B}.
Import tagline_driver directory lifecycle.

Local Abbreviation Machine := (Machine (B := B)).

(** X25: in every state the driver goes through, a one-block read of a
    block its tagline holds asks the cache for the primary address of the
    block.  On a hit it copies the cached block to the buffer and returns
    [0].  On a miss it sends one [RAID_READ] for the primary address with
    the buffer, and looks at the status bit of the response only: with
    the bit set it returns [-1] (the backup copy is not read), otherwise
    it returns [0] after a put of the buffer into the cache whose result
    it does not use. *)
Theorem tagline_read_of_a_written_block (tag bnum : Z) (buf buf' : list byte)
    (s s' : Machine) (t : TAGLINE) (r : Z) :
  reachable s -> 0 <= tag < 2 ^ 16 ->
  head_tag (fst s) !! Z.to_nat tag = Some t ->
  0 <= bnum < max_start_allowed t ->
  tagline_read tag bnum 1 buf s = Some ((r, buf'), s') ->
  exists b v w1,
    block_0 t !! Z.to_nat bnum = Some b /\
    raid_cache.get_raid_cache (RAID_disk b) (RAID_block b) (snd s) = Some (v, w1) /\
    match v with
    | Some cached => r = 0 /\ buf' = memcpy buf cached RAID_BLOCK_SIZE /\ snd s' = w1
    | None =>
        exists answer w2,
          raid_cache.bus_request
            (generate_RAIDOpCode
               (mkRequest (u8 RAID_READ) 1 (RAID_disk b) 0 0 (RAID_block b)))
            (Some buf) w1 = Some (answer, w2) /\
          buf' = default buf (snd answer) /\
          ((status (decode_RAIDOpCode (fst answer)) <> 0 /\ r = -1 /\ snd s' = w2) \/
           (status (decode_RAIDOpCode (fst answer)) = 0 /\ r = 0 /\
            exists r3,
              raid_cache.put_raid_cache (RAID_disk b) (RAID_block b) buf' w2
              = Some (r3, snd s')))
    end.
Proof.
  intros Hok%reachable_ok Htag Ht Hbnum Hrun.
  pose proof (tagline_position _ _ _ Hok Htag Ht) as Hpos.
  pose proof Hok as (_ & _ & _ & _ & Hinuse & _ & Htags).
  pose proof (lookup_lt_Some _ _ _ Ht) as Hlt.
  destruct (Htags _ _ Ht) as (_ & Hmax & Hblocks).
  assert (max_start_allowed t <= Z.of_nat (length (block_0 t))) as Hle.
  { rewrite Hmax. unfold u32. apply Z.mod_le; lia. }
  assert (max_start_allowed t < 2 ^ 32) as H32.
  { rewrite Hmax. unfold u32. apply Z.mod_pos_bound. lia. }
  pose proof (find_block_numbered 0 (block_0 t) bnum) as Hblock.
  rewrite Nat.sub_0_r in Hblock.
  specialize (Hblock ltac:(intros; by apply Hblocks) ltac:(lia) ltac:(simpl; lia) ltac:(lia)).
  change (tagline_read tag bnum 1 buf s) with (tagline_read_block tag bnum buf s) in Hrun.
  unfold tagline_read_block in Hrun.
  dinv; zbool; simplify_eq.
  all: try lia.
  all: repeat match goal with
       | Hl : ?x = Some _, Hl' : ?x = Some _ |- _ => rewrite Hl in Hl'; simplify_eq
       end.
  all: eexists _, _, _; (split; [done|]); (split; [done|]); cbn.
  all: try done.
  all: eexists _, _; (split; [done|]); (split; [done|]).
  - left. split_and!; try done; lia.
  - right. split_and!; try done; try lia. by eexists.
Qed.

End DriverReads.

Section InitProtocol.
Context `{RaidBusHeader} {B : Type} `{RaidServer B}.
Import tagline_driver directory lifecycle.

(** The driver in front of a server that records the opcodes it
    receives. *)
Local Abbreviation Recorded := (Machine (B := list Z * B)).

Lemma recorded_bus_request (op : Z) (buf : option (list byte))
    (w w' : raid_cache.World (B := list Z * B)) (a : Z * option (list byte)) :
  raid_cache.bus_request op buf w = Some (a, w') ->
  fst w' = fst w /\ fst (snd w') = op :: fst (snd w).
Proof.
  unfold raid_cache.bus_request, raid_client.client_raid_bus_request. intros Hrun.
  apply zoom_Some in Hrun as (a' & b & Hrun & [= -> ->]). cbn.
  split; [done|]. unfold bind in Hrun.
  unfold server_exchange, recording_server in Hrun. cbn in Hrun.
  unfold ret in Hrun. repeat case_match; by simplify_eq.
Qed.

Lemma format_loop_requests (n : nat) (i : Z) (s s' : Recorded) :
  for_loop n i
    (fun dsk =>
       bind (bus_request (generate_RAIDOpCode (mkRequest (u8 RAID_FORMAT) 0 dsk 0 0 0)) None)
         (fun answer =>
            if negb (check_response (mkRequest (u8 RAID_FORMAT) 0 dsk 0 0 0)
                       (decode_RAIDOpCode (fst answer)) =? 0)
            then ret (-1) else ret 0)) s = Some (0, s') ->
  fst s' = fst s /\ fst (snd s') = fst (snd s) /\
  fst (snd (snd s'))
  = rev ((fun k : nat =>
            generate_RAIDOpCode (mkRequest (u8 RAID_FORMAT) 0 (i + Z.of_nat k) 0 0 0))
           <$> seq 0 n)
    ++ fst (snd (snd s)).
Proof.
  revert i s. induction n as [|n IH]; intros i s Hrun; cbn in Hrun.
  - by apply ret_Some in Hrun as [= ->].
  - apply bind_Some in Hrun as (r1 & s1 & Hbody & Hrun).
    apply bind_Some in Hbody as (answer & s2 & Hbus & Hbody).
    apply bus_request_Some in Hbus as (a & w1 & Hbus & [= -> ->]).
    apply recorded_bus_request in Hbus as [Hcache Hlog].
    destruct (negb (check_response _ _ =? 0)); apply ret_Some in Hbody as [= -> ->];
      cbn in Hrun; [by apply ret_Some in Hrun|].
    apply IH in Hrun as (Hd & Hc & Hl). cbn in Hd, Hc, Hl.
    split_and!; [done|congruence|].
    rewrite Hl, Hlog. cbn [seq fmap list_fmap rev]. rewrite <- fmap_S_seq, <- list_fmap_compose.
    rewrite Z.add_0_r, <- app_assoc. cbn. f_equal. f_equal.
    apply list_fmap_ext. intros _ k _. cbn. do 2 f_equal. lia.
Qed.

Lemma add_new_tags_snd (n : nat) (i : Z) (s s' : Recorded) (r : Z) :
  for_loop n i (fun _ => add_new_tag) s = Some (r, s') -> snd s' = snd s.
Proof.
  apply (for_loop_invariant (fun s1 : Recorded => snd s1 = snd s)); [|done].
  intros i' s1 r1 s2 Heq (_ & _ & Hsnd & _)%add_new_tag_Some. congruence.
Qed.

(** X26: a [tagline_driver_init] that returns [0] has sent ten requests
    to the bus: [RAID_INIT] for 36 tracks and 9 disks, then [RAID_FORMAT]
    for the disks 0 to 8 in this order; neither the cache nor the list of
    taglines is set up over the bus. *)
Theorem tagline_driver_init_requests (maxlines : Z) (d : Driver) (c : raid_cache.Cache)
    (log : list Z) (b : B) (s : Recorded) :
  tagline_driver_init maxlines (d, (c, (log, b))) = Some (0, s) ->
  rev (fst (snd (snd s)))
  = rev log
    ++ generate_RAIDOpCode
         (mkRequest (u8 RAID_INIT) (u8 (RAID_DISKS * RAID_DISKBLOCKS / RAID_TRACK_BLOCKS))
            (u8 RAID_DISKS) 0 0 0)
       :: ((fun dsk => generate_RAIDOpCode (mkRequest (u8 RAID_FORMAT) 0 dsk 0 0 0))
             <$> seqZ 0 RAID_DISKS).
Proof.
  unfold tagline_driver_init. intros Hrun.
  dinv; zbool; subst.
  match goal with
  | Hf : for_loop _ _ _ (_, _) = Some (0, ?s1), Hg : for_loop _ _ _ ?s1 = Some _ |- _ =>
      apply format_loop_requests in Hf as (_ & _ & Hlog);
      apply add_new_tags_snd in Hg as Hsnd
  end.
  match goal with
  | Hb : raid_cache.bus_request _ _ _ = Some _ |- _ =>
      apply recorded_bus_request in Hb as [_ Hinit]
  end.
  match goal with
  | Hc : raid_cache.init_raid_cache _ _ = Some _ |- _ =>
      unfold raid_cache.init_raid_cache in Hc; cinv
  end.
  rewrite Hsnd, Hlog. cbn [fst snd] in *. rewrite Hinit.
  rewrite rev_app_distr, rev_involutive. cbn [rev]. rewrite <- app_assoc. cbn [app].
  reflexivity.
Qed.

End InitProtocol.

(** ** The cache and the bus on the scenarios *)

Section PutThenGetScenarios.
Import raid_cache lifecycle scenario.

Local Notation small_put :=
  (@put_raid_cache small_header RaidArray (@array_server small_header)).

(** The full cache of two blocks, and a put of the block cached first. *)
Lemma get_after_put_witness :
  small_put 0 0 bytes_C (cache_after two_puts)
  = Some (0, cache_state_after (small_put 0 0 bytes_C) (cache_after two_puts)) /\
  (capacity (cache_queue (fst (cache_after two_puts))) < @TAGLINE_CACHE_SIZE small_header \/
   is_Some (cached_at (fst (cache_after two_puts)) 0 0)) /\
  exists old w'',
    get_raid_cache 0 0 (cache_state_after (small_put 0 0 bytes_C) (cache_after two_puts))
    = Some (Some (memcpy old bytes_C (@RAID_BLOCK_SIZE small_header)), w'').
Proof.
  assert (small_put 0 0 bytes_C (cache_after two_puts)
          = Some (0, cache_state_after (small_put 0 0 bytes_C) (cache_after two_puts)))
    as Hrun by (vm_compute; reflexivity).
  assert (capacity (cache_queue (fst (cache_after two_puts))) < @TAGLINE_CACHE_SIZE small_header \/
          is_Some (cached_at (fst (cache_after two_puts)) 0 0)) as Hcase.
  { right. exists 0. vm_compute. reflexivity. }
  split; [exact Hrun|]. split; [exact Hcase|].
  exact (@get_after_put small_header RaidArray (@array_server small_header)
           0 0 bytes_C (cache_after two_puts)
           (cache_state_after (small_put 0 0 bytes_C) (cache_after two_puts)) 0 Hrun Hcase).
Defined.

End PutThenGetScenarios.

Section ReadScenarios.
Import tagline_driver directory lifecycle scenario.

Lemma tagline_read_of_a_written_block_witness :
  reachable first_write /\
  head_tag (fst first_write) !! Z.to_nat 0
  = Some (mkTagline 0 1 1 [mkBlock 0 0 0 (Some 1) (Some 0)]) /\
  0 <= 0 < max_start_allowed (mkTagline 0 1 1 [mkBlock 0 0 0 (Some 1) (Some 0)]) /\
  tagline_read 0 0 1 block_B first_write = Some ((0, block_A), read_back) /\
  exists b v w1,
    block_0 (mkTagline 0 1 1 [mkBlock 0 0 0 (Some 1) (Some 0)]) !! Z.to_nat 0 = Some b /\
    raid_cache.get_raid_cache (RAID_disk b) (RAID_block b) (snd first_write) = Some (v, w1) /\
    match v with
    | Some cached =>
        0 = 0 /\ block_A = memcpy block_B cached RAID_BLOCK_SIZE /\ snd read_back = w1
    | None =>
        exists answer w2,
          raid_cache.bus_request
            (generate_RAIDOpCode
               (mkRequest (u8 RAID_READ) 1 (RAID_disk b) 0 0 (RAID_block b)))
            (Some block_B) w1 = Some (answer, w2) /\
          block_A = default block_B (snd answer) /\
          ((status (decode_RAIDOpCode (fst answer)) <> 0 /\ 0 = -1 /\ snd read_back = w2) \/
           (status (decode_RAIDOpCode (fst answer)) = 0 /\ 0 = 0 /\
            exists r3,
              raid_cache.put_raid_cache (RAID_disk b) (RAID_block b) block_A w2
              = Some (r3, snd read_back)))
    end.
Proof.
  assert (head_tag (fst first_write) !! Z.to_nat 0
          = Some (mkTagline 0 1 1 [mkBlock 0 0 0 (Some 1) (Some 0)])) as Ht.
  { rewrite first_write_directory. reflexivity. }
  assert (0 <= 0 < max_start_allowed (mkTagline 0 1 1 [mkBlock 0 0 0 (Some 1) (Some 0)]))
    as Hbnum by (cbn; lia).
  split; [exact first_write_reachable|]. split; [exact Ht|]. split; [exact Hbnum|].
  split; [exact read_back_run|].
  exact (tagline_read_of_a_written_block 0 0 block_B block_A first_write read_back _ 0
           first_write_reachable ltac:(lia) Ht Hbnum read_back_run).
Defined.

Lemma recorded_initialised_run :
  tagline_driver_init 1 recorded_boot = Some (0, recorded_initialised).
Proof. vm_compute. reflexivity. Qed.

Lemma tagline_driver_init_requests_witness :
  tagline_driver_init 1 (startup, (raid_cache.startup, ([], blank_array)))
  = Some (0, recorded_initialised) /\
  rev (fst (snd (snd recorded_initialised)))
  = rev []
    ++ generate_RAIDOpCode
         (mkRequest (u8 RAID_INIT) (u8 (RAID_DISKS * RAID_DISKBLOCKS / RAID_TRACK_BLOCKS))
            (u8 RAID_DISKS) 0 0 0)
       :: ((fun dsk => generate_RAIDOpCode (mkRequest (u8 RAID_FORMAT) 0 dsk 0 0 0))
             <$> seqZ 0 RAID_DISKS).
Proof.
  split; [exact recorded_initialised_run|].
  exact (tagline_driver_init_requests 1 startup raid_cache.startup [] blank_array
           recorded_initialised recorded_initialised_run).
Defined.

End ReadScenarios.

(** ** The links between the hash table and the queue *)

Section Links.
Context `{RaidBusHeader} {B : Type} `{RaidServer B}.
Import raid_cache.

Local Abbreviation World := (World (B := B)).

(** What an eviction does to the table and to the nodes. *)
Lemma evict_lru_effect (w w' : World) (r : Z) :
  evict_lru w = Some (r, w') ->
  dangling (fst w') = dangling (fst w) /\
  ((r = -1 /\ hashtable (fst w') = hashtable (fst w) /\
    (forall a, parent_hash_node <$> queue_nodes (fst w') !! a
               = parent_hash_node <$> queue_nodes (fst w) !! a) /\
    (forall a, front_ptr (cache_queue (fst w)) <> Some a ->
               value_buf <$> queue_nodes (fst w') !! a = value_buf <$> queue_nodes (fst w) !! a)) \/
   (r = 0 /\
    exists f e p hn,
      front_ptr (cache_queue (fst w)) = Some f /\
      queue_nodes (fst w) !! f = Some e /\
      parent_hash_node e = Some p /\
      chain (fst w) (fst p) !! snd p = Some hn /\
      hashtable (fst w')
      = <[fst p := <[snd p := set_cache_block_ptr None hn]> (chain (fst w) (fst p))]>
          (hashtable (fst w)) /\
      queue_nodes (fst w') !! f = None /\
      forall a, a <> f ->
        parent_hash_node <$> queue_nodes (fst w') !! a
        = parent_hash_node <$> queue_nodes (fst w) !! a /\
        value_buf <$> queue_nodes (fst w') !! a = value_buf <$> queue_nodes (fst w) !! a)).
Proof.
  unfold evict_lru. intros Hrun. cinv; zbool.
  - split; [done|]. left. split_and!; try done.
    + intros a. frame_cases; cbn; [|done]. by rewrite H3.
    + intros a Ha. rewrite lookup_insert_ne by congruence. done.
  - unfold chain in *; cbn in *. heap_cases; simplify_eq; cbn in *.
    all: repeat match goal with
         | Hl : ?x = Some _, Hl' : ?x = Some _ |- _ => rewrite Hl in Hl'; simplify_eq
         end.
    all: split; [done|]; right; split; [done|].
    all: eexists _, _, _, _; split_and!; try done.
    all: try (cbn; by rewrite lookup_delete_eq).
    all: intros a Ha; cbn; rewrite !lookup_delete_ne by done.
    all: frame_cases; cbn; try done.
    all: repeat match goal with
         | Hl : ?m !! ?a = Some _ |- context [?m !! ?a] => rewrite Hl; cbn
         end.
    all: try done.
  - split; [done|]. left. split_and!; done.
Qed.

Lemma lookup_chain_store (c c' : Cache) (p : Z * nat) (hn hn' : HASH_NODE) (h : Z) (i : nat) :
  chain c (fst p) !! snd p = Some hn ->
  hashtable c' = <[fst p := <[snd p := hn']> (chain c (fst p))]> (hashtable c) ->
  chain c' h !! i = if decide (p = (h, i)) then Some hn' else chain c h !! i.
Proof.
  intros Hp Hh. unfold chain at 1. rewrite Hh. destruct p as [ph pi]. cbn in *.
  destruct (decide (ph = h)) as [->|Hne].
  - rewrite lookup_insert_eq. cbn. destruct (decide (pi = i)) as [->|Hne].
    + rewrite list_lookup_insert_eq by (by eapply lookup_lt_Some).
      by rewrite decide_True.
    + rewrite list_lookup_insert_ne by done. rewrite decide_False by congruence. done.
  - rewrite lookup_insert_ne by done. rewrite decide_False by congruence. done.
Qed.

Lemma find_pair_chain_store (c c' : Cache) (p : Z * nat) (hn : HASH_NODE) (v : option Z)
    (d b h : Z) :
  chain c (fst p) !! snd p = Some hn ->
  hashtable c' = <[fst p := <[snd p := set_cache_block_ptr v hn]> (chain c (fst p))]> (hashtable c) ->
  find_pair d b (chain c' h) = find_pair d b (chain c h).
Proof.
  intros Hp Hh. unfold chain at 1. rewrite Hh.
  destruct (decide (fst p = h)) as [<-|Hne].
  - rewrite lookup_insert_eq. cbn. by apply find_pair_insert.
  - by rewrite lookup_insert_ne.
Qed.

(** What an eviction leaves: the chains keep their pairs; a hash node
    keeps its place unless it names the front of the queue; a queue node
    keeps its block unless it is the front of the queue. *)
Lemma evict_lru_links (w w' : World) (r : Z) :
  evict_lru w = Some (r, w') -> linked (fst w) ->
  linked (fst w') /\ dangling (fst w') = dangling (fst w) /\
  (forall d b h, find_pair d b (chain (fst w') h) = find_pair d b (chain (fst w) h)) /\
  (forall h i hn, chain (fst w) h !! i = Some hn ->
     cache_block_ptr hn <> front_ptr (cache_queue (fst w)) ->
     chain (fst w') h !! i = Some hn) /\
  (forall a, front_ptr (cache_queue (fst w)) <> Some a ->
     value_buf <$> queue_nodes (fst w') !! a = value_buf <$> queue_nodes (fst w) !! a).
Proof.
  intros Hrun Hlinked.
  apply evict_lru_effect in Hrun
    as (Hd & [(-> & Hh & Hpar & Hval)|(-> & f & e & p & hn & Hf & He & Hp & Hhn & Hh & Hgone & Hrest)]).
  - split_and!; try done.
    + intros a n Hl. specialize (Hpar a). rewrite Hl in Hpar. cbn in Hpar.
      symmetry in Hpar. apply fmap_Some in Hpar as (n0 & Hn0 & Hpn).
      destruct (Hlinked a n0 Hn0) as (p0 & hn0 & Hp0 & Hc0 & Hptr).
      exists p0, hn0. unfold chain in *. rewrite Hh. split_and!; congruence.
    + intros d b h. unfold chain. by rewrite Hh.
    + intros h i hn Hl _. unfold chain in *. by rewrite Hh.
  - destruct (Hlinked f e He) as (pf & hnf & Hpf & Hcf & Hptrf). simplify_eq.
    split_and!; try done.
    + intros a n Hl. destruct (decide (a = f)) as [->|Hne]; [congruence|].
      destruct (Hrest a Hne) as [Hpar _]. rewrite Hl in Hpar. cbn in Hpar.
      symmetry in Hpar. apply fmap_Some in Hpar as (n0 & Hn0 & Hpn).
      destruct (Hlinked a n0 Hn0) as (p0 & hn0 & Hp0 & Hc0 & Hptr).
      exists p0, hn0. split_and!; [congruence| |done].
      rewrite (lookup_chain_store _ _ _ _ _ _ _ Hhn Hh).
      destruct (decide (p = (p0.1, p0.2))) as [->|?]; [|done].
      cbn in *. congruence.
    + intros d b h. by eapply find_pair_chain_store.
    + intros h i hn' Hl Hptr. rewrite (lookup_chain_store _ _ _ _ _ _ _ Hhn Hh).
      destruct (decide (p = (h, i))) as [->|?]; [|done].
      cbn in *. rewrite Hf in Hptr. congruence.
    + intros a Ha. apply Hrest. congruence.
Qed.

Lemma linked_frame (c c' : Cache) :
  hashtable c' = hashtable c ->
  (forall a, parent_hash_node <$> queue_nodes c' !! a = parent_hash_node <$> queue_nodes c !! a) ->
  linked c -> linked c'.
Proof.
  intros Hh Hpar Hlinked a n Hl. specialize (Hpar a). rewrite Hl in Hpar. cbn in Hpar.
  symmetry in Hpar. apply fmap_Some in Hpar as (n0 & Hn0 & Hpn).
  destruct (Hlinked a n0 Hn0) as (p0 & hn0 & Hp0 & Hc0 & Hptr).
  exists p0, hn0. unfold chain in *. rewrite Hh. split_and!; congruence.
Qed.

(** The same for an insertion at the back of the queue, with or without
    an eviction. *)
Lemma insert_in_queue_links (node : option Z) (w w' : World) (r : Z) :
  insert_in_queue node w = Some (r, w') -> linked (fst w) ->
  linked (fst w') /\ dangling (fst w') = dangling (fst w) /\
  (forall d b h, find_pair d b (chain (fst w') h) = find_pair d b (chain (fst w) h)) /\
  (forall h i hn, chain (fst w) h !! i = Some hn ->
     cache_block_ptr hn <> front_ptr (cache_queue (fst w)) ->
     chain (fst w') h !! i = Some hn) /\
  (forall a, front_ptr (cache_queue (fst w)) <> Some a ->
     value_buf <$> queue_nodes (fst w') !! a = value_buf <$> queue_nodes (fst w) !! a).
Proof.
  unfold insert_in_queue. intros Hrun Hlinked. cinv; zbool.
  all: try match goal with
       | He : evict_lru ?w1 = Some _ |- _ =>
           assert (linked (fst w1)) as Hl1;
           [ eapply linked_frame; [| |exact Hlinked]; [done|];
             intros a0; cbn; heap_cases; frame_cases; cbn;
             repeat match goal with
                    | Hl : ?m !! ?a = Some _ |- context [?m !! ?a] => rewrite Hl; cbn
                    end; done
           | apply evict_lru_links in He as (Hl' & Hd' & Hf' & Hc' & Hv'); [|exact Hl1];
             cbn in Hd', Hf', Hc', Hv' ]
       end.
  all: unfold chain in *; cbn in *.
  all: split_and!; try done.
  all: try (eapply linked_frame; [| |exact Hlinked]; [done|]).
  all: try (intros a0 Ha0; rewrite Hv' by done).
  all: try intros a0.
  all: cbn; heap_cases; frame_cases; cbn.
  all: repeat match goal with
       | Hl : ?m !! ?a = Some _ |- context [?m !! ?a] => rewrite Hl; cbn
       end.
  all: try done.
Qed.

Lemma update_block_in_queue_parents (node : option Z) (w w' : World) (r : Z) :
  update_block_in_queue node w = Some (r, w') ->
  forall a, parent_hash_node <$> queue_nodes (fst w') !! a
            = parent_hash_node <$> queue_nodes (fst w) !! a.
Proof.
  unfold update_block_in_queue. intros Hrun. cinv.
  all: intros a0; heap_cases; frame_cases; cbn.
  all: repeat match goal with
       | Hl : ?m !! ?a = Some _ |- context [?m !! ?a] => rewrite Hl; cbn
       end.
  all: try done.
Qed.

(** A new queue node, named by the hash node it names as its parent. *)
Lemma linked_new_node (c c' : Cache) (new : Z) (p : Z * nat) (hn' : HASH_NODE) :
  linked c ->
  queue_nodes c !! new = None ->
  (forall a, a <> new ->
     parent_hash_node <$> queue_nodes c' !! a = parent_hash_node <$> queue_nodes c !! a) ->
  parent_hash_node <$> queue_nodes c' !! new = Some (Some p) ->
  chain c' (fst p) !! snd p = Some hn' -> cache_block_ptr hn' = Some new ->
  (forall q hn0, chain c (fst q) !! snd q = Some hn0 -> is_Some (cache_block_ptr hn0) ->
     chain c' (fst q) !! snd q = Some hn0) ->
  linked c'.
Proof.
  intros Hlinked Hfresh Hrest Hnew Hp Hptr Hframe a m Hl.
  destruct (decide (a = new)) as [->|Hne].
  - rewrite Hl in Hnew. cbn in Hnew. exists p, hn'. split_and!; congruence.
  - specialize (Hrest a Hne). rewrite Hl in Hrest. cbn in Hrest.
    symmetry in Hrest. apply fmap_Some in Hrest as (n0 & Hn0 & Hpn).
    destruct (Hlinked a n0 Hn0) as (p0 & hn0 & Hp0 & Hc0 & Hptr0).
    exists p0, hn0. split_and!; [congruence| |done].
    apply Hframe; [done|]. by rewrite Hptr0.
Qed.

(** A hit after an insertion: the pair whose hash node names a queue node
    other than the front of the queue is still cached. *)
Lemma get_after_insert (dsk blk : Z) (w0 w' : World) (i : nat) (current : HASH_NODE)
    (a : Z) (v : list byte) :
  bucket_ok (fst w0) (hashfunction dsk blk) ->
  find_pair dsk blk (chain (fst w0) (hashfunction dsk blk)) = Some i ->
  chain (fst w0) (hashfunction dsk blk) !! i = Some current ->
  cache_block_ptr current = Some a ->
  front_ptr (cache_queue (fst w0)) <> Some a ->
  value_buf <$> queue_nodes (fst w0) !! a = Some v ->
  linked (fst w') /\ dangling (fst w') = dangling (fst w0) /\
  (forall d b h, find_pair d b (chain (fst w') h) = find_pair d b (chain (fst w0) h)) /\
  (forall h i hn, chain (fst w0) h !! i = Some hn ->
     cache_block_ptr hn <> front_ptr (cache_queue (fst w0)) ->
     chain (fst w') h !! i = Some hn) /\
  (forall a, front_ptr (cache_queue (fst w0)) <> Some a ->
     value_buf <$> queue_nodes (fst w') !! a = value_buf <$> queue_nodes (fst w0) !! a) ->
  exists w'', get_raid_cache dsk blk w' = Some (Some v, w'').
Proof.
  intros Hok Hfind Hi Hptr Hfront Hv (_ & Hd & Hf & Hc & Hkeep).
  rewrite <- Hkeep in Hv by done.
  destruct (queue_nodes w'.1 !! a) as [n|] eqn:Hn; [|done].
  cbn in Hv. injection Hv as <-.
  eexists. apply (get_raid_cache_hit dsk blk w' i current a n); try done.
  - unfold bucket_ok in *. by rewrite Hd.
  - by rewrite Hf.
  - apply Hc; [done|]. rewrite Hptr. congruence.
Qed.

Lemma frame_appended (ht : gmap Z (list HASH_NODE)) (h : Z) (y X : HASH_NODE)
    (q : Z * nat) (hn0 : HASH_NODE) :
  default [] (ht !! fst q) !! snd q = Some hn0 ->
  default []
    (<[h := <[length (default [] (ht !! h)) := X]> (default [] (ht !! h) ++ [y])]>
       (<[h := default [] (ht !! h) ++ [y]]> ht) !! fst q) !! snd q = Some hn0.
Proof.
  intros Hq. destruct (decide (h = fst q)) as [->|Hne].
  - rewrite lookup_insert_eq. cbn. pose proof (lookup_lt_Some _ _ _ Hq).
    rewrite list_lookup_insert_ne by lia. by rewrite lookup_app_l.
  - by rewrite !lookup_insert_ne.
Qed.

Lemma frame_reused (ht : gmap Z (list HASH_NODE)) (h : Z) (i : nat) (x X : HASH_NODE)
    (q : Z * nat) (hn0 : HASH_NODE) :
  default [] (ht !! h) !! i = Some x -> cache_block_ptr x = None ->
  default [] (ht !! fst q) !! snd q = Some hn0 -> is_Some (cache_block_ptr hn0) ->
  default [] (<[h := <[i := X]> (default [] (ht !! h))]> ht !! fst q) !! snd q = Some hn0.
Proof.
  intros Hx Hnone Hq [a Ha]. destruct (decide (h = fst q)) as [->|Hne].
  - rewrite lookup_insert_eq. cbn. destruct (decide (i = snd q)) as [->|Hne].
    + congruence.
    + by rewrite list_lookup_insert_ne.
  - by rewrite lookup_insert_ne.
Qed.

Lemma put_raid_cache_links (dsk blk : Z) (buf : list byte) (w w' : World) (r : Z) :
  put_raid_cache dsk blk buf w = Some (r, w') ->
  bounded (fst w) -> linked (fst w) ->
  linked (fst w') /\
  exists old w'',
    get_raid_cache dsk blk w' = Some (Some (memcpy old buf RAID_BLOCK_SIZE), w'').
Proof.
  unfold put_raid_cache. intros Hrun Hb Hlinked.
  pose proof Hb as (_ & _ & Hfront & Hback & Hnodes & Hhash).
  assert (queue_nodes w.1 !! next_address w.1 = None) as Hfresh.
  { destruct (queue_nodes w.1 !! next_address w.1) eqn:E; [|done].
    apply Hnodes in E as [? _]. lia. }
  assert (front_ptr (cache_queue w.1) <> Some (next_address w.1)) as Hfn.
  { intros E. apply Hfront in E. lia. }
  clear Hb Hfront Hback Hnodes Hhash.
  cinv; zbool; subst.
  all: unfold chain in *; cbn in *.
  all: repeat match goal with
       | Hl : context [<[?h := _]> _ !! ?h] |- _ => rewrite lookup_insert_eq in Hl; cbn in Hl
       end.
  all: repeat match goal with
       | Ha : ?e = Some ?x, Hb : ?e = Some ?y |- _ =>
           assert (y = x) by congruence; subst y; clear Hb
       end.
  all: try match goal with
       | He : insert_in_queue _ ?w0 = Some _ |- _ =>
           assert (linked (fst w0)) as Hl0;
           [|apply insert_in_queue_links in He; [|exact Hl0]]
       end.
  all: try match goal with
       | He : update_block_in_queue _ ?w0 = Some _ |- _ =>
           pose proof (update_block_in_queue_parents _ _ _ _ He) as Hpar;
           apply update_block_in_queue_keeps_blocks in He
       end.
  all: try match goal with
       | |- _ /\ _ => split
       end.
  all: try match goal with
       | He : linked ?c /\ _ |- linked ?c => exact (proj1 He)
       end.
  (* the links of the state the new queue node is in *)
  all: cbn [fst snd]; rewrite ?lookup_insert_eq; cbn [from_option id].
  all: try match goal with
       | Hfr : queue_nodes ?c !! ?nw = None |- linked (count _ _ _ _ _) =>
           eapply (linked_new_node c _ nw); [exact Hlinked|exact Hfr|..]
       end.
  all: try match goal with
       | |- forall a, a <> _ -> parent_hash_node <$> _ = _ =>
           intros a0 Ha0; cbn; heap_cases; frame_cases; cbn;
           repeat match goal with
                  | Hl : ?m !! ?a = Some _ |- context [?m !! ?a] => rewrite Hl; cbn
                  end; done
       | |- parent_hash_node <$> _ = Some _ =>
           cbn; heap_cases; frame_cases; cbn; reflexivity
       | |- chain _ _ !! _ = Some _ =>
           unfold chain; cbn; rewrite lookup_insert_eq; cbn;
           apply list_lookup_insert_eq; rewrite ?length_app; cbn; try lia;
           eapply lookup_lt_Some; eassumption
       end.
  all: try match goal with
       | |- cache_block_ptr _ = Some _ => reflexivity
       | |- forall q hn0, _ -> is_Some _ -> _ =>
           intros q hn0 Hq Hsome; unfold chain in *; cbn;
           first [apply frame_appended; exact Hq | eapply frame_reused; eassumption]
       end.
  all: try match goal with
       | Hp : forall a, _ <$> queue_nodes ?c' !! a = _, He : hashtable ?c' = _ /\ _,
         Hlk : linked ?c0 |- linked ?c' =>
           eapply linked_frame; [exact (proj1 He)|exact Hp|];
           eapply (linked_frame c0); [reflexivity| |exact Hlk];
           intros a0; cbn; heap_cases; frame_cases; cbn;
           repeat match goal with
                  | Hl : ?m !! ?a = Some _ |- context [?m !! ?a] => rewrite Hl; cbn
                  end; reflexivity
       end.
  (* the hit *)
  all: eexists.
  all: try match goal with
       | He : linked _ /\ _ |- _ => eapply get_after_insert; cycle 6; [exact He|..]
       | He : hashtable _ = _ /\ _ |- _ => eapply get_of_kept_block; cycle 5; [exact He|..]
       end.
  all: try (eapply get_of_kept_block; cycle 5; [split_and!; reflexivity|..]).
  all: try (unfold bucket_ok in *; cbn in *; tauto).
  all: unfold chain; cbn; rewrite ?lookup_insert_eq; cbn.
  all: try reflexivity.
  all: repeat match goal with
       | Hc : default [] ?x = _ |- context [default [] ?x] => rewrite Hc
       end.
  all: repeat match goal with
       | Hc : default [] ?x = _, Hl : context [default [] ?x] |- _ =>
           lazymatch type of Hl with
           | default [] x = _ => fail
           | _ => rewrite Hc in Hl
           end
       end.
  all: try match goal with
       | |- find_pair _ _ (<[_ := _]> (_ ++ [_])) = Some _ =>
           erewrite find_pair_insert by eassumption; apply find_pair_snoc;
           first [reflexivity | assumption]
       | |- find_pair _ _ (<[_ := _]> _) = Some _ =>
           erewrite find_pair_insert by eassumption;
           match goal with Hf : _ = Some _ |- _ => exact Hf end
       | |- find_pair _ _ _ = Some _ =>
           match goal with Hf : _ = Some _ |- _ => exact Hf end
       end.
  all: try match goal with
       | |- <[_ := _]> _ !! _ = Some _ =>
           apply list_lookup_insert_eq; rewrite ?length_app; cbn; try lia
       end.
  all: try reflexivity.
  all: try eassumption.
  all: try (eapply lookup_lt_Some; eassumption).
  all: heap_cases; cbn; try reflexivity.
  all: match goal with
       | Hl : (_ :: _) !! ?n = Some _ |- (?n < _)%nat =>
           apply lookup_lt_Some in Hl; cbn in Hl; lia
       end.
Qed.

Lemma get_raid_cache_links (dsk blk : Z) (w w' : World) (r : option (list byte)) :
  get_raid_cache dsk blk w = Some (r, w') -> linked (fst w) -> linked (fst w').
Proof.
  intros Hrun Hlinked. apply get_raid_cache_footprint in Hrun as (Hn & _ & Hh & _).
  eapply linked_frame; [exact Hh| |exact Hlinked]. intros a. by rewrite Hn.
Qed.

Lemma init_raid_cache_links (max_items : Z) (b : B) (r : Z) (w : World) :
  init_raid_cache max_items (startup, b) = Some (r, w) -> linked (fst w).
Proof.
  unfold init_raid_cache. intros Hrun. cinv. intros a n Hl. cbn in Hl.
  by rewrite lookup_empty in Hl.
Qed.

Lemma run_cache_ops_links (ops : list lifecycle.cache_op) (w w' : World) (rs : list Z) :
  lifecycle.run_cache_ops ops w = Some (rs, w') ->
  bounded (fst w) -> linked (fst w) -> linked (fst w').
Proof.
  revert w rs. induction ops as [|o ops IH]; intros w rs Hrun Hb Hlinked; cbn in Hrun.
  - by apply ret_Some in Hrun as [= _ <-].
  - apply bind_Some in Hrun as (r & w1 & Ho & Hrun).
    apply bind_Some in Hrun as (rs' & w2 & Hops & Hrun).
    apply ret_Some in Hrun. simplify_eq.
    destruct o as [d b|d b buf]; cbn in Ho.
    + apply bind_Some in Ho as (v & w3 & Hget & Hret).
      apply ret_Some in Hret. simplify_eq.
      eapply IH; [exact Hops|by eapply get_raid_cache_bounded|by eapply get_raid_cache_links].
    + eapply IH; [exact Hops|by eapply put_raid_cache_bounded|].
      by eapply put_raid_cache_links.
Qed.

(** X27: from [init_raid_cache] on, after every sequence of gets and puts,
    a put is followed by a hit, whatever the put returns (with or without
    an eviction, and also when the write of the evicted block was refused):
    a get of the same pair right after it returns the cached buffer with
    its first [RAID_BLOCK_SIZE] bytes taken from the buffer that was put. *)
Theorem put_is_followed_by_a_hit (b : B) (max_items : Z) (ops : list lifecycle.cache_op)
    (rs : list Z) (r0 r : Z) (w0 w w' : World) (dsk blk : Z) (buf : list byte) :
  init_raid_cache max_items (startup, b) = Some (r0, w0) ->
  lifecycle.run_cache_ops ops w0 = Some (rs, w) ->
  put_raid_cache dsk blk buf w = Some (r, w') ->
  exists old w'',
    get_raid_cache dsk blk w' = Some (Some (memcpy old buf RAID_BLOCK_SIZE), w'').
Proof.
  intros Hinit Hops Hput.
  pose proof (init_raid_cache_bounded _ _ _ _ Hinit) as Hb0.
  pose proof (init_raid_cache_links _ _ _ _ Hinit) as Hl0.
  pose proof (run_cache_ops_bounded _ _ _ _ Hops Hb0) as Hb.
  pose proof (run_cache_ops_links _ _ _ _ Hops Hb0 Hl0) as Hl.
  by destruct (put_raid_cache_links _ _ _ _ _ _ Hput Hb Hl) as [_ Hget].
Qed.

End Links.

Section LinksScenario.
Import raid_cache lifecycle scenario.

Local Notation small_put :=
  (@put_raid_cache small_header RaidArray (@array_server small_header)).
Local Notation small_run :=
  (@run_cache_ops small_header RaidArray (@array_server small_header)).

(** Two puts fill the cache of two blocks; the put of a third block evicts
    the first one, and the third block is cached. *)
Lemma put_is_followed_by_a_hit_witness :
  init_raid_cache (@TAGLINE_CACHE_SIZE small_header) cache_boot = Some (0, cache_initialised) /\
  small_run two_puts cache_initialised = Some ([0; 0], cache_after two_puts) /\
  small_put 2 0 bytes_C (cache_after two_puts)
  = Some (0, cache_state_after (small_put 2 0 bytes_C) (cache_after two_puts)) /\
  exists old w'',
    get_raid_cache 2 0 (cache_state_after (small_put 2 0 bytes_C) (cache_after two_puts))
    = Some (Some (memcpy old bytes_C (@RAID_BLOCK_SIZE small_header)), w'').
Proof.
  assert (init_raid_cache (@TAGLINE_CACHE_SIZE small_header) cache_boot
          = Some (0, cache_initialised)) as Hinit by (vm_compute; reflexivity).
  assert (small_run two_puts cache_initialised = Some ([0; 0], cache_after two_puts))
    as Hrun by (vm_compute; reflexivity).
  assert (small_put 2 0 bytes_C (cache_after two_puts)
          = Some (0, cache_state_after (small_put 2 0 bytes_C) (cache_after two_puts)))
    as Hput by (vm_compute; reflexivity).
  split; [exact Hinit|]. split; [exact Hrun|]. split; [exact Hput|].
  exact (@put_is_followed_by_a_hit small_header RaidArray (@array_server small_header)
           blank_array (@TAGLINE_CACHE_SIZE small_header) two_puts [0; 0] 0 0
           cache_initialised (cache_after two_puts)
           (cache_state_after (small_put 2 0 bytes_C) (cache_after two_puts))
           2 0 bytes_C Hinit Hrun Hput).
Defined.

End LinksScenario.
